(** * hpat: the match store and the extraction pass

    A shallow embedding of [hpat/match.py], [hpat/data_sequence.py] and
    [hpat/extractor.py].

    Conventions of the embedding
    - Python [int] is [Z]; list subscripts follow Python (negative
      subscripts count from the end, anything else out of range raises
      [IndexError]).
    - Python [str] is the [string] of its UTF-8 encoding, and its
      characters are those [py_chars] gives; [dict] with [str] keys is
      [gmap string _], [set] of [str] is [gset string].
    - [float] weights are rationals [Qc]: the code only compares weights
      ([min]), which is exact on floats, so an ordered field is enough
      (NaN is not represented).
    - [uuid.uuid4()] is an explicit supply of ids handed to the functions
      that create matches.
    - A method that mutates [self] is a state transformer over the
      receiver which also returns the outcome: a value or the exception
      raised.  The state returned with an exception is the state the
      receiver is left in; for [RecursionError] see [revoke_match]. *)

From Stdlib Require Import QArith Qcanon Sorting.Sorted Sorting.Mergesort Orders.
From stdpp Require Import base option list gmap sets strings numbers pretty.

Set Default Proof Using "Type".
Open Scope Z_scope.

(** ** Outcomes *)

Inductive PyErr : Type :=
| IndexError
| KeyError
| TypeError
| ValueError
| AttributeError
| RecursionError
| Exception (msg : string).

Inductive result (A : Type) : Type :=
| Ok (a : A)
| Raise (e : PyErr).
Arguments Ok {A} a.
Arguments Raise {A} e.

(** A method of an object with state [S] returning [A]. *)
Definition M (S A : Type) : Type := S → S * result A.

Definition ret {S A} (a : A) : M S A := λ s, (s, Ok a).
Definition raise {S A} (e : PyErr) : M S A := λ s, (s, Raise e).
Definition bind {S A B} (c : M S A) (k : A → M S B) : M S B :=
  λ s, match c s with
       | (s', Ok a) => k a s'
       | (s', Raise e) => (s', Raise e)
       end.
Definition get {S} : M S S := λ s, (s, Ok s).

Notation "'let*' x ':=' c 'in' k" := (bind c (λ x, k))
  (at level 10, x name, c at level 100, k at level 200).

(** [for x in l: body(x)] *)
Fixpoint for_each {S A} (body : A → M S unit) (l : list A) : M S unit :=
  match l with
  | [] => ret tt
  | x :: l' => let* _ := body x in for_each body l'
  end.

(** ** Python values of type [any] stored in [structure] *)

(** A [dict] keeps its keys in insertion order. *)
#[warnings="-register-all"] Inductive PyVal : Type :=
| PyStr (s : string)
| PyList (l : list PyVal)
| PyDict (d : list (string * PyVal)).

Fixpoint PyVal_eqb (a b : PyVal) {struct a} : bool :=
  match a, b with
  | PyStr s, PyStr t => bool_decide (s = t)
  | PyList l, PyList k =>
      (fix go (l k : list PyVal) : bool :=
         match l, k with
         | [], [] => true
         | x :: l', y :: k' => PyVal_eqb x y && go l' k'
         | _, _ => false
         end) l k
  | PyDict d, PyDict e =>
      (fix go (d e : list (string * PyVal)) : bool :=
         match d, e with
         | [], [] => true
         | (s, x) :: d', (t, y) :: e' =>
             bool_decide (s = t) && PyVal_eqb x y && go d' e'
         | _, _ => false
         end) d e
  | _, _ => false
  end.

Lemma PyVal_eqb_eq : ∀ a b, PyVal_eqb a b = true → a = b.
Proof.
  fix IH 1. intros [s|l|d] [t|k|e]; simpl; try discriminate.
  - intros H. apply bool_decide_eq_true in H. by subst.
  - intros H. f_equal. revert k H.
    induction l as [|x l IHl]; intros [|y k]; try done.
    intros [H1 H2]%andb_true_iff. f_equal; [apply IH, H1 | apply IHl, H2].
  - intros H. f_equal. revert e H.
    induction d as [|[s x] d IHd]; intros [|[t y] e]; try done.
    intros [[H0 H1]%andb_true_iff H2]%andb_true_iff.
    apply bool_decide_eq_true in H0. subst t.
    f_equal; [f_equal; apply IH, H1 | apply IHd, H2].
Qed.

Lemma PyVal_eqb_refl : ∀ a, PyVal_eqb a a = true.
Proof.
  fix IH 1. intros [s|l|d]; simpl.
  - by apply bool_decide_eq_true.
  - induction l as [|x l IHl]; [done|]. by rewrite IH, IHl.
  - induction d as [|[s x] d IHd]; [done|].
    rewrite IH, IHd. rewrite bool_decide_eq_true_2; done.
Qed.

Global Instance PyVal_eq_dec : EqDecision PyVal.
Proof.
  intros a b. destruct (PyVal_eqb a b) eqn:E.
  - left. by apply PyVal_eqb_eq.
  - right. intros ->. by rewrite PyVal_eqb_refl in E.
Defined.

(** ** Subscripts and slices *)

(** [l[i]] : the position a Python subscript denotes, if any. *)
Definition py_norm_index (len : nat) (i : Z) : option nat :=
  if bool_decide (0 ≤ i < Z.of_nat len) then Some (Z.to_nat i)
  else if bool_decide (- Z.of_nat len ≤ i < 0) then Some (Z.to_nat (Z.of_nat len + i))
  else None.

Definition py_clamp (len : nat) (i : Z) : nat :=
  if bool_decide (i < 0) then Z.to_nat (Z.max (i + Z.of_nat len) 0)
  else Z.to_nat (Z.min i (Z.of_nat len)).

(** A Python [str] is a sequence of characters (code points).  It is
    modelled by the string of the bytes of its UTF-8 encoding, which is
    what a string literal of this file holds; two [str] are equal, and
    ordered, as their encodings are.  Where the code counts, enumerates
    or slices characters the model goes through [py_chars], the list of
    the characters of a string: a character starts at every byte that is
    not a continuation byte ([10xxxxxx]) and takes the continuation
    bytes that follow it. *)
Definition is_continuation (a : Ascii.ascii) : bool :=
  match a with Ascii.Ascii _ _ _ _ _ _ b6 b7 => b7 && negb b6 end.

Fixpoint py_chars (s : string) : list string :=
  match s with
  | EmptyString => []
  | String a rest =>
      match rest with
      | EmptyString => [String a EmptyString]
      | String b _ =>
          if is_continuation b
          then match py_chars rest with
               | ch :: chars => String a ch :: chars
               | [] => [String a EmptyString]
               end
          else String a EmptyString :: py_chars rest
      end
  end.

(** [len(s)] *)
Definition py_len (s : string) : nat := length (py_chars s).

(** [''.join(chars)] *)
Definition py_join (chars : list string) : string := foldr String.append EmptyString chars.

(** [s[a:b]]; [None] bounds are the ends of the string. *)
Definition py_slice (s : string) (a b : option Z) : string :=
  let chars := py_chars s in
  let len := length chars in
  let lo := from_option (py_clamp len) 0%nat a in
  let hi := from_option (py_clamp len) len b in
  py_join (take (hi - lo) (drop lo chars)).

(** ** match.py : [Match] *)

Record Match : Type := mkMatch {
  concept : string;
  value : string;
  size : Z;
  start_idx : Z;
  id : string;
  assumed : bool;
  depends_on_matches : list string;
  extractions : gmap string (list string);
  structure : list (string * PyVal);
  weight : Qc;
}.

Definition end_idx (m : Match) : Z := start_idx m + size m.

(** Dataclass equality is field by field. *)
Global Instance Match_eq_dec : EqDecision Match.
Proof. solve_decision. Defined.

(** ** data_sequence.py : [DataElement] *)

Record DataElement : Type := mkDataElement {
  el_value : option string;
  matches : list Match;
  disabled : bool;
}.

Definition set_matches (f : list Match → list Match) (e : DataElement) : DataElement :=
  {| el_value := el_value e; matches := f (matches e); disabled := disabled e |}.

(** The concepts for which two derivations of one span are both kept. *)
Definition duplicable (c : string) : bool :=
  bool_decide (c ∈ ["Sentence"; "MakesSense"]).

Fixpoint contains_match_loop (saved_matches : list Match) (m : Match) : bool :=
  match saved_matches with
  | [] => false
  | saved :: rest =>
      if negb (bool_decide (concept saved = concept m)) then contains_match_loop rest m
      else if negb (bool_decide (size saved = size m)) then contains_match_loop rest m
      else if negb (bool_decide (start_idx saved = start_idx m)) then contains_match_loop rest m
      else if duplicable (concept m)
                && negb (bool_decide (depends_on_matches saved = depends_on_matches m))
           then contains_match_loop rest m
      else true
  end.

Definition contains_match (e : DataElement) (m : Match) : bool :=
  contains_match_loop (matches e) m.

(** [DataElement.add_match]: the element as it is left, and the answer. *)
Definition DataElement_add_match (m : Match) (e : DataElement) : DataElement * bool :=
  if negb (contains_match e m)
  then (set_matches (λ l, l ++ [m]) e, true)
  else (e, false).

(** ** data_sequence.py : [DataSequence] *)

Record DataSequence : Type := mkDataSequence {
  seq_value : string;
  elements : list DataElement;
  seq_extractions : gmap string (list string);
  consolidated : bool;
  match_by_id : gmap string Match;
}.

Definition set_elements (f : list DataElement → list DataElement) (s : DataSequence) :=
  {| seq_value := seq_value s; elements := f (elements s);
     seq_extractions := seq_extractions s; consolidated := consolidated s;
     match_by_id := match_by_id s |}.
Definition set_seq_extractions (x : gmap string (list string)) (s : DataSequence) :=
  {| seq_value := seq_value s; elements := elements s;
     seq_extractions := x; consolidated := consolidated s;
     match_by_id := match_by_id s |}.
Definition set_consolidated (b : bool) (s : DataSequence) :=
  {| seq_value := seq_value s; elements := elements s;
     seq_extractions := seq_extractions s; consolidated := b;
     match_by_id := match_by_id s |}.
Definition set_match_by_id (f : gmap string Match → gmap string Match) (s : DataSequence) :=
  {| seq_value := seq_value s; elements := elements s;
     seq_extractions := seq_extractions s; consolidated := consolidated s;
     match_by_id := f (match_by_id s) |}.

(** [self.elements[i]], with the position it denotes. *)
Definition element_at (s : DataSequence) (i : Z) : option (nat * DataElement) :=
  k ← py_norm_index (length (elements s)) i;
  e ← elements s !! k;
  Some (k, e).

(** All matches of the sequence: position order, then the order inside a
    position (the order of the two nested loops over [elements] and
    [matches]). *)
Definition all_matches (s : DataSequence) : list Match :=
  concat (matches <$> elements s).

Definition get_all_match_ids (s : DataSequence) : gset string :=
  foldl (λ match_ids e,
           foldl (λ match_ids m, match_ids ∪ {[ id m ]}) match_ids (matches e))
        ∅ (elements s).

(** [__post_init__] *)
Definition post_init (s : DataSequence) : DataSequence :=
  foldl (λ s e, foldl (λ s m, set_match_by_id <[id m := m]> s) s (matches e))
        s (elements s).

(** [bool(x)] for a set: it is not empty. *)
Definition py_bool (x : gset string) : bool := negb (bool_decide (x = ∅)).

(** match.py : [Match.dependencies_present] *)
Definition dependencies_present (m : Match) (s : DataSequence) : bool :=
  let match_ids := get_all_match_ids s in
  negb (py_bool (list_to_set (depends_on_matches m) ∖ match_ids)).

(** The loop of [add_match] over [range(match.size)]. *)
Fixpoint add_match_loop (m : Match) (idxs : list Z) (added_new_match : bool)
    : M DataSequence bool :=
  match idxs with
  | [] => ret added_new_match
  | idx :: rest => λ s,
      match element_at s (start_idx m + idx) with
      | None => (s, Raise IndexError)
      | Some (k, e) =>
          let '(e', added) := DataElement_add_match m e in
          let s1 := set_elements <[k := e']> s in
          let s2 := if added then set_match_by_id <[id m := m]> s1 else s1 in
          add_match_loop m rest (added_new_match || added) s2
      end
  end.

Definition add_match (m : Match) : M DataSequence bool :=
  λ s, if negb (dependencies_present m s) then (s, Ok false)
       else add_match_loop m (seqZ 0 (size m)) false (set_consolidated false s).

(** [add_concept]; [new_id] is the id [uuid4] hands out. *)
Definition add_concept (c : string) (start sz : Z) (w : Qc) (new_id : string)
    : M DataSequence bool :=
  λ s, add_match
         {| concept := c; value := py_slice (seq_value s) (Some start) (Some (start + sz));
            size := sz; start_idx := start; id := new_id; assumed := false;
            depends_on_matches := []; extractions := ∅; structure := [];
            weight := w |} s.

(** *** [revoke_match] *)

(** [list.remove(x)]: drops the first element equal to [x]; [None] is the
    [ValueError] of a missing element (which [revoke_match] never meets,
    see [revoke_nodes_spec]). *)
Fixpoint py_list_remove (x : Match) (l : list Match) : option (list Match) :=
  match l with
  | [] => None
  | y :: l' => if decide (y = x) then Some l' else cons y <$> py_list_remove x l'
  end.

(** First inner loop: matches depending on [match_id] are queued for the
    cascade, the others carrying the id are queued for removal. *)
Fixpoint revoke_scan (match_id : string) (ms : list Match)
    (to_revoke : list string) (to_remove : list Match) : list string * list Match :=
  match ms with
  | [] => (to_revoke, to_remove)
  | m :: rest =>
      if bool_decide (match_id ∈ depends_on_matches m)
      then revoke_scan match_id rest (to_revoke ++ [id m]) to_remove
      else if bool_decide (match_id = id m)
      then revoke_scan match_id rest to_revoke (to_remove ++ [m])
      else revoke_scan match_id rest to_revoke to_remove
  end.

(** Second inner loop: [match_by_id.pop(match.id, None)] and
    [node.matches.remove(match)]. *)
Fixpoint revoke_remove (to_remove : list Match) (reg : gmap string Match)
    (ms : list Match) : result (gmap string Match * list Match) :=
  match to_remove with
  | [] => Ok (reg, ms)
  | m :: rest =>
      let reg := delete (id m) reg in
      match py_list_remove m ms with
      | None => Raise ValueError
      | Some ms => revoke_remove rest reg ms
      end
  end.

(** The loop over the nodes; it returns the nodes as they are left, the
    registry and [to_revoke]. *)
Fixpoint revoke_nodes (match_id : string) (nodes : list DataElement)
    (reg : gmap string Match) (to_revoke : list string)
    : result (list DataElement * gmap string Match * list string) :=
  match nodes with
  | [] => Ok ([], reg, to_revoke)
  | node :: rest =>
      let '(to_revoke, to_remove) := revoke_scan match_id (matches node) to_revoke [] in
      match revoke_remove to_remove reg (matches node) with
      | Raise e => Raise e
      | Ok (reg, ms) =>
          match revoke_nodes match_id rest reg to_revoke with
          | Raise e => Raise e
          | Ok (nodes', reg, to_revoke) =>
              Ok (set_matches (λ _, ms) node :: nodes', reg, to_revoke)
          end
      end
  end.

(** [fuel] is the depth of recursion the interpreter allows: a call that
    would exceed it raises [RecursionError] before its body runs.  The
    recursive calls take the default [cascade=True].  The interpreter can
    also raise [RecursionError] inside the body, where a call made there
    (the comparison behind [list.remove], say) finds no frame left; the
    state such a call leaves behind is not the one given here, so what is
    stated of the state after [revoke_match] is stated of calls that
    return, or holds of every state the body goes through. *)
Fixpoint revoke_match (fuel : nat) (match_id : string) (cascade : bool)
    : M DataSequence unit :=
  match fuel with
  | O => raise RecursionError
  | S fuel' => λ s,
      let s := set_consolidated false s in
      match revoke_nodes match_id (elements s) (match_by_id s) [] with
      | Raise e => (s, Raise e)
      | Ok (nodes, reg, to_revoke) =>
          let s := set_match_by_id (λ _, reg) (set_elements (λ _, nodes) s) in
          if cascade
          then for_each (λ match_id, revoke_match fuel' match_id true) to_revoke s
          else (s, Ok tt)
      end
  end.

(** *** [consolidate] and [extract] *)

Fixpoint consolidate_collect (ms : list Match)
    (found : list Match * gset string) : list Match * gset string :=
  match ms with
  | [] => found
  | m :: rest =>
      if bool_decide (id m ∉ found.2)
      then consolidate_collect rest (found.1 ++ [m], found.2 ∪ {[ id m ]})
      else consolidate_collect rest found
  end.

(** [for key, values in match.extractions.items():
       self.extractions[key].extend(values)]
    on a [defaultdict(list)]. *)
Definition merge_extractions (ext : gmap string (list string)) (m : Match)
    : gmap string (list string) :=
  map_fold (λ pattern_node_id values ext,
              <[pattern_node_id := default [] (ext !! pattern_node_id) ++ values]> ext)
           ext (extractions m).

Definition consolidate : M DataSequence unit :=
  λ s, if consolidated s then (s, Ok tt)
       else
         let found := foldl (λ found node, consolidate_collect (matches node) found)
                            ([], ∅) (elements s) in
         let ext := foldl merge_extractions ∅ found.1 in
         (set_consolidated true (set_seq_extractions ext s), Ok tt).

Definition extract (pattern_node_id : string) : M DataSequence (list string) :=
  λ s, if negb (consolidated s) then (s, Raise (Exception "Must consolidate first"))
       else (s, Ok (default [] (seq_extractions s !! pattern_node_id))).

(** *** Dependants *)

Module StringOrder <: TotalLeBool.
Definition t := string.
Definition leb := String.leb.
Lemma leb_total : ∀ x y, leb x y = true ∨ leb y x = true.
Proof. exact String.leb_total. Qed.
End StringOrder.
Module StringSort := Sort StringOrder.

(** [sorted] on a list of [str]. *)
Definition py_sorted (l : list string) : list string := StringSort.sort l.

Definition find_dependant_matches (match_id : string) (s : DataSequence) : list string :=
  let result :=
    foldl (λ result element,
             foldl (λ result m,
                      if bool_decide (match_id ∈ depends_on_matches m)
                      then result ++ [id m] else result)
                   result (matches element))
          [] (elements s) in
  py_sorted (base.elements (list_to_set result : gset string)).

(** In [get_dependant_matches] the argument of the recursive call is
    [match_id.id], and [match_id] is a [str]: evaluating it raises
    [AttributeError], so the call is never made. *)
Fixpoint get_dependant_loop (match_id : string) (ms : list Match)
    (deps : gset string) : result (gset string) :=
  match ms with
  | [] => Ok deps
  | m :: rest =>
      if bool_decide (match_id ∈ depends_on_matches m)
      then (let deps := deps ∪ {[ id m ]} in Raise AttributeError)
      else get_dependant_loop match_id rest deps
  end.

Fixpoint get_dependant_nodes (match_id : string) (nodes : list DataElement)
    (deps : gset string) : result (gset string) :=
  match nodes with
  | [] => Ok deps
  | elem :: rest =>
      match get_dependant_loop match_id (matches elem) deps with
      | Ok deps => get_dependant_nodes match_id rest deps
      | Raise e => Raise e
      end
  end.

Definition get_dependant_matches (match_id : string) (s : DataSequence)
    : result (gset string) :=
  get_dependant_nodes match_id (elements s) ∅.

(** *** [from_string] *)

(** [ids i] is the id [uuid4] gives to the match of position [i];
    [enumerate(text)] goes through the characters of the text. *)
Definition from_string (text : string) (ids : nat → string) : DataSequence :=
  post_init
    {| seq_value := text;
       elements :=
         imap (λ i ch,
                 {| el_value := Some ch;
                    matches := [ {| concept := "Character"; value := ch;
                                    size := 1; start_idx := Z.of_nat i; id := ids i;
                                    assumed := false; depends_on_matches := [];
                                    extractions := ∅; structure := [];
                                    weight := 1%Qc |} ];
                    disabled := false |})
              (py_chars text);
       seq_extractions := ∅;
       consolidated := false;
       match_by_id := ∅ |}.

(** *** [keep_only] and [drop_matches] *)

(** The hierarchy service is not part of these sources; the code uses its
    two queries. *)
Record HierarchyProvider : Type := mkHierarchy {
  get_parents : string → list string;
  get_children : string → list string;
}.

(** [set(parents).intersection(set(concepts))] as a condition. *)
Definition shares_parent (h : HierarchyProvider) (c : string) (concepts : list string) : bool :=
  let parents := get_parents h c in
  py_bool (list_to_set parents ∩ list_to_set concepts).

Definition keep_only_select (concepts : list string) (hierarchy : option HierarchyProvider)
    (idx : nat) (matches_to_remove : gset string) (m : Match) : gset string :=
  if negb (bool_decide (start_idx m = Z.of_nat idx)) then matches_to_remove
  else if bool_decide (concept m ∈ concepts) then matches_to_remove
  else match hierarchy with
       | Some h =>
           if shares_parent h (concept m) concepts then matches_to_remove
           else matches_to_remove ∪ {[ id m ]}
       | None => matches_to_remove ∪ {[ id m ]}
       end.

Definition drop_select (concepts : list string) (hierarchy : option HierarchyProvider)
    (idx : nat) (matches_to_remove : gset string) (m : Match) : gset string :=
  if negb (bool_decide (start_idx m = Z.of_nat idx)) then matches_to_remove
  else if bool_decide (concept m ∈ concepts) then matches_to_remove ∪ {[ id m ]}
  else match hierarchy with
       | Some h =>
           if shares_parent h (concept m) concepts
           then matches_to_remove ∪ {[ id m ]} else matches_to_remove
       | None => matches_to_remove
       end.

(** [for idx, elem in enumerate(self.elements): for match in elem.matches] *)
Definition select_matches (select : nat → gset string → Match → gset string)
    (s : DataSequence) : gset string :=
  foldl (λ acc ie, foldl (select ie.1) acc (matches ie.2))
        ∅ (imap pair (elements s)).

Definition keep_only (fuel : nat) (concepts : list string)
    (hierarchy : option HierarchyProvider) : M DataSequence unit :=
  λ s, let matches_to_remove := select_matches (keep_only_select concepts hierarchy) s in
       for_each (λ match_id, revoke_match fuel match_id false)
                (base.elements matches_to_remove) s.

(** The parameter [cascade] is not used by the body. *)
Definition drop_matches (fuel : nat) (concepts : list string)
    (hierarchy : option HierarchyProvider) (cascade : bool) : M DataSequence unit :=
  λ s, let matches_to_remove := select_matches (drop_select concepts hierarchy) s in
       for_each (λ match_id, revoke_match fuel match_id false)
                (base.elements matches_to_remove) s.

(** ** match.py : [MatchState] *)

Record MatchAssumption : Type := mkMatchAssumption {
  asm_sequence_start_idx : Z;
  asm_sequence_end_idx : Z;
  assumed_concept : string;
  asm_weight : Qc;
}.

Record MatchState : Type := mkMatchState {
  sequence_idx : Z;
  pattern_idx : Z;
  sequence_start_idx : option Z;
  sequence_end_idx : option Z;
  many_optional : bool;
  st_extractions : gmap string (list string);
  assumptions : list MatchAssumption;
  st_depends_on_matches : list string;
  st_structure : list (string * PyVal);
}.

(** [MatchState(sequence_idx=i)] *)
Definition new_state (i : Z) : MatchState :=
  {| sequence_idx := i; pattern_idx := 0; sequence_start_idx := None;
     sequence_end_idx := None; many_optional := false; st_extractions := ∅;
     assumptions := []; st_depends_on_matches := []; st_structure := [] |}.

(** [min(a, b)]: the first argument unless the second is smaller. *)
Definition py_min (a b : Qc) : Qc := if Qclt_le_dec b a then b else a.

(** The first loop of [get_matches]. *)
Fixpoint propagate_weight (s : DataSequence) (deps : list string) (w : Qc) : result Qc :=
  match deps with
  | [] => Ok w
  | match_id :: rest =>
      match match_by_id s !! match_id with
      | None => Raise KeyError
      | Some m => propagate_weight s rest (py_min w (weight m))
      end
  end.

(** [ids 0] is the id of the main match, [ids (S i)] the id of the match
    of assumption [i]. *)
Definition get_matches (st : MatchState) (s : DataSequence) (c : string) (w : Qc)
    (ids : nat → string) : result (list Match) :=
  match propagate_weight s (st_depends_on_matches st) w with
  | Raise e => Raise e
  | Ok w =>
      let struct_ :=
        match st_structure st with
        | [] => []
        | _ => [("concept", PyStr c); ("data", PyDict (st_structure st))]
        end in
      match sequence_end_idx st, sequence_start_idx st with
      | Some e, Some b =>
          let main_match :=
            {| concept := c;
               value := py_slice (seq_value s) (Some b) (Some e);
               size := e - b; start_idx := b; id := ids 0%nat; assumed := false;
               depends_on_matches := st_depends_on_matches st;
               extractions := st_extractions st; weight := w;
               structure := struct_ |} in
          Ok (main_match ::
              imap (λ i asmp,
                      {| concept := assumed_concept asmp;
                         value := py_slice (seq_value s)
                                    (Some (asm_sequence_start_idx asmp))
                                    (Some (asm_sequence_end_idx asmp));
                         size := asm_sequence_end_idx asmp - asm_sequence_start_idx asmp;
                         start_idx := asm_sequence_start_idx asmp;
                         id := ids (S i); assumed := true;
                         depends_on_matches := [ids 0%nat];
                         extractions := ∅; structure := [];
                         weight := asm_weight asmp |})
                   (assumptions st))
      | _, _ => Raise TypeError
      end
  end.

(** ** extractor.py *)

(** A pattern is not part of these sources: the pass reads its [inside]
    attribute and calls its [match] method, which returns the matches
    found from the state it is given. *)
Record Pattern : Type := mkPattern {
  inside : option string;
  pattern_match : DataSequence → MatchState → HierarchyProvider → list Match;
}.

Record Extractor : Type := mkExtractor {
  patterns : list Pattern;
  hierarchy : option HierarchyProvider;
  single_concepts : list string;
}.

(** Modelled from the spec: [DictHierarchyProvider(children={})], which is
    not part of these sources, is the hierarchy without ancestors and
    without children. *)
Definition empty_hierarchy : HierarchyProvider :=
  {| get_parents := λ _, []; get_children := λ _, [] |}.

(** [self.hierarchy] after [__post_init__]. *)
Definition the_hierarchy (ex : Extractor) : HierarchyProvider :=
  default empty_hierarchy (hierarchy ex).

(** Truth value of [pattern.inside]: the concept it declares, if any. *)
Definition declared_inside (p : Pattern) : option string :=
  match inside p with
  | Some c => if bool_decide (c = "") then None else Some c
  | None => None
  end.

Definition has_concept_or_parent (ex : Extractor) (inside_concept : string) (m : Match) : bool :=
  bool_decide (inside_concept = concept m)
  || bool_decide (inside_concept ∈ get_parents (the_hierarchy ex) (concept m)).

Definition check_inside_start_idx (ex : Extractor) (s : DataSequence) (idx : Z)
    (inside_concept : string) : result bool :=
  match element_at s idx with
  | None => Raise IndexError
  | Some (_, e) => Ok (existsb (has_concept_or_parent ex inside_concept) (matches e))
  end.

Definition check_match_is_inside (ex : Extractor) (s : DataSequence) (m : Match)
    (inside_concept : string) : result bool :=
  match element_at s (start_idx m) with
  | None => Raise IndexError
  | Some (_, e) =>
      Ok (existsb (λ other, has_concept_or_parent ex inside_concept other
                            && bool_decide (start_idx other = start_idx m)
                            && bool_decide (size other = size m))
                  (matches e))
  end.

(** What a pass does with the patterns and the store, in order: each call
    of [pattern.match] and each call of [seq.add_match], with the sequence
    as it is at the call. *)
Inductive Event : Type :=
| Invoked (start : nat) (p : Pattern) (s : DataSequence)
| Submitted (p : Pattern) (m : Match) (s : DataSequence).

Record Run : Type := mkRun {
  run_seq : DataSequence;
  run_log : list Event;
}.

Definition on_seq {A} (c : M DataSequence A) : M Run A :=
  λ r, let '(s, a) := c (run_seq r) in ({| run_seq := s; run_log := run_log r |}, a).
Definition read_seq {A} (f : DataSequence → result A) : M Run A :=
  λ r, (r, f (run_seq r)).
Definition record_event (ev : DataSequence → Event) : M Run unit :=
  λ r, ({| run_seq := run_seq r; run_log := run_log r ++ [ev (run_seq r)] |}, Ok tt).

(** [for match in matches: ...] *)
Fixpoint submit_matches (ex : Extractor) (p : Pattern) (ms : list Match)
    (had_new_matches : bool) : M Run bool :=
  match ms with
  | [] => ret had_new_matches
  | m :: rest =>
      let* skip := match declared_inside p with
                   | Some c => let* ok := read_seq (λ s, check_match_is_inside ex s m c) in
                               ret (negb ok)
                   | None => ret false
                   end in
      if (skip : bool) then submit_matches ex p rest had_new_matches
      else
        let* _ := record_event (Submitted p m) in
        let* added := on_seq (add_match m) in
        submit_matches ex p rest (had_new_matches || added)
  end.

(** [for pattern in self.patterns: ...] *)
Fixpoint apply_patterns (ex : Extractor) (start : nat) (ps : list Pattern)
    (had_new_matches : bool) : M Run bool :=
  match ps with
  | [] => ret had_new_matches
  | p :: rest =>
      let* skip := match declared_inside p with
                   | Some c => let* ok := read_seq (λ s, check_inside_start_idx ex s
                                                          (Z.of_nat start) c) in
                               ret (negb ok)
                   | None => ret false
                   end in
      if (skip : bool) then apply_patterns ex start rest had_new_matches
      else
        let state := new_state (Z.of_nat start) in
        let* _ := record_event (Invoked start p) in
        let* s := read_seq Ok in
        let ms := pattern_match p s state (the_hierarchy ex) in
        let* had := submit_matches ex p ms had_new_matches in
        apply_patterns ex start rest had
  end.

(** [for start_idx in range(len(seq.elements)): ...]; the range is fixed
    when the loop starts. *)
Fixpoint apply_positions (ex : Extractor) (starts : list nat)
    (had_new_matches : bool) : M Run bool :=
  match starts with
  | [] => ret had_new_matches
  | start :: rest =>
      let* r := get in
      match elements (run_seq r) !! start with
      | None => raise IndexError
      | Some e =>
          if disabled e then apply_positions ex rest had_new_matches
          else let* had := apply_patterns ex start (patterns ex) had_new_matches in
               apply_positions ex rest had
      end
  end.

Definition apply_once (ex : Extractor) : M Run bool :=
  λ r, apply_positions ex (seq 0 (length (elements (run_seq r)))) false r.

(** ** data_sequence.py : queries and bulk operations *)

(** [DataSequence.size] *)
Definition seq_size (s : DataSequence) : nat := length (elements s).

(** The loop of [disable_elements] over the matches of one element, with
    its [break]. *)
Fixpoint disable_scan (concepts : list string) (ms : list Match) (elem : DataElement)
    : DataElement :=
  match ms with
  | [] => elem
  | m :: rest =>
      if bool_decide (concept m ∈ concepts)
      then {| el_value := el_value elem; matches := matches elem; disabled := true |}
      else disable_scan concepts rest elem
  end.

(** [concepts] is a [str] or a list of [str]. *)
Definition disable_elements (concepts : string + list string) : M DataSequence unit :=
  λ s, let concepts := match concepts with inl c => [c] | inr l => l end in
       (set_elements (fmap (λ elem, disable_scan concepts (matches elem) elem)) s, Ok tt).

Definition get_slots_select (concept_ : string) (hierarchy : option HierarchyProvider)
    (idx : nat) (result : list (Z * Z)) (m : Match) : list (Z * Z) :=
  if negb (bool_decide (start_idx m = Z.of_nat idx)) then result
  else match hierarchy with
       | None =>
           if negb (bool_decide (concept m = concept_)) then result
           else result ++ [(start_idx m, start_idx m + size m)]
       | Some h =>
           if negb (bool_decide (concept_ ∈ get_parents h (concept m)))
              && negb (bool_decide (concept m = concept_))
           then result
           else result ++ [(start_idx m, start_idx m + size m)]
       end.

Definition get_slots (concept_ : string) (hierarchy : option HierarchyProvider)
    (s : DataSequence) : list (Z * Z) :=
  foldl (λ result ie, foldl (get_slots_select concept_ hierarchy ie.1) result (matches ie.2))
        [] (imap pair (elements s)).

(** The key of [to_list]: [(x.size, len(x.concept))]. *)
Definition display_key (m : Match) : Z * nat := (size m, py_len (concept m)).

(** Order of tuples. *)
Definition key_ltb (a b : Z * nat) : bool :=
  (a.1 <? b.1) || ((a.1 =? b.1) && (a.2 <? b.2)%nat).

(** [sorted(l, key=display_key, reverse=True)]: a stable sort, largest key
    first; an element goes behind the ones already placed whose key is not
    smaller. *)
Fixpoint insert_desc (x : Match) (l : list Match) : list Match :=
  match l with
  | [] => [x]
  | y :: l' =>
      if key_ltb (display_key y) (display_key x) then x :: l
      else y :: insert_desc x l'
  end.

Definition py_sorted_desc (l : list Match) : list Match :=
  foldl (λ sorted x, insert_desc x sorted) [] l.

Definition to_list (s : DataSequence) : list (list (string * string)) :=
  (λ node, (λ m, (concept m, value m)) <$> py_sorted_desc (matches node)) <$> elements s.

(** [get_match_importance]: [len] of what [get_dependant_matches] returns. *)
Definition get_match_importance (match_id : string) (s : DataSequence) : result nat :=
  match get_dependant_matches match_id s with
  | Ok deps => Ok (base.size deps)
  | Raise e => Raise e
  end.

(** match.py : [Match.get_all_dependencies].  [fuel] is the recursion
    depth allowed; a missing registry key is caught ([except KeyError:
    continue]), [RecursionError] is not. *)
Fixpoint get_all_dependencies (fuel : nat) (m : Match) (s : DataSequence)
    : result (list string) :=
  match fuel with
  | O => Raise RecursionError
  | S fuel' =>
      let loop :=
        fix loop (deps : list string) (res : list string) : result (list string) :=
          match deps with
          | [] => Ok res
          | dependency_id :: rest =>
              let res := res ++ [dependency_id] in
              match match_by_id s !! dependency_id with
              | None => loop rest res
              | Some dependency =>
                  match get_all_dependencies fuel' dependency s with
                  | Raise e => Raise e
                  | Ok more => loop rest (res ++ more)
                  end
              end
          end in
      match loop (depends_on_matches m) [] with
      | Raise e => Raise e
      | Ok res => Ok (py_sorted (base.elements (list_to_set res : gset string)))
      end
  end.

(** [Match.slot] *)
Definition slot (m : Match) : Z * Z := (start_idx m, start_idx m + size m).

(** ** match.py : the remaining methods of [MatchState] *)

(** [key in d], [d[key]] and [d[key] = v] on a [dict] kept as a list of
    items in insertion order. *)
Fixpoint dict_get (key : string) (d : list (string * PyVal)) : option PyVal :=
  match d with
  | [] => None
  | (k, v) :: d' => if bool_decide (k = key) then Some v else dict_get key d'
  end.

Fixpoint dict_set (key : string) (v : PyVal) (d : list (string * PyVal))
    : list (string * PyVal) :=
  match d with
  | [] => [(key, v)]
  | (k, w) :: d' =>
      if bool_decide (k = key) then (k, v) :: d' else (k, w) :: dict_set key v d'
  end.

Definition set_st_structure (x : list (string * PyVal)) (st : MatchState) : MatchState :=
  {| sequence_idx := sequence_idx st; pattern_idx := pattern_idx st;
     sequence_start_idx := sequence_start_idx st;
     sequence_end_idx := sequence_end_idx st; many_optional := many_optional st;
     st_extractions := st_extractions st; assumptions := assumptions st;
     st_depends_on_matches := st_depends_on_matches st; st_structure := x |}.

(** [add_data]: both branches treat a key that is present alike. *)
Definition add_data (key : string) (v : PyVal) (many : bool) (st : MatchState)
    : MatchState :=
  match dict_get key (st_structure st) with
  | Some old =>
      let items := match old with PyList l => l | _ => [old] end in
      set_st_structure (dict_set key (PyList (items ++ [v])) (st_structure st)) st
  | None =>
      set_st_structure
        (dict_set key (if many then PyList [v] else v) (st_structure st)) st
  end.

(** [get_next]: the copies are the values themselves. *)
Definition get_next (next_pattern element_advancement : Z) (many_optional_ : bool)
    (st : MatchState) : MatchState :=
  {| sequence_idx := sequence_idx st + element_advancement;
     pattern_idx := pattern_idx st + next_pattern;
     sequence_start_idx := sequence_start_idx st;
     sequence_end_idx := sequence_end_idx st; many_optional := many_optional_;
     st_extractions := st_extractions st; assumptions := assumptions st;
     st_depends_on_matches := st_depends_on_matches st;
     st_structure := st_structure st |}.

(** [get_value] *)
Definition get_value (st : MatchState) (s : DataSequence) : string :=
  py_slice (seq_value s) (sequence_start_idx st) (sequence_end_idx st).

(** [clean_matches].  The ids to revoke are taken from a Python set, whose
    iteration order is not specified: [iter] gives the order.  [fuel_deps]
    and [fuel] are the recursion depths left for [get_all_dependencies]
    and for each call of [revoke_match]. *)
Definition clean_matches_step (fuel : nat) (start end_ : Z) (match_id : string)
    : M DataSequence unit :=
  λ s, match match_by_id s !! match_id with
       | None => (s, Ok tt)
       | Some m =>
           if negb (bool_decide (start ≤ start_idx m) && bool_decide (end_idx m ≤ end_))
           then (s, Ok tt)
           else if bool_decide (concept m = "Character") then (s, Ok tt)
           else revoke_match fuel match_id true s
       end.

Definition clean_matches (fuel_deps fuel : nat) (iter : gset string → list string)
    (main_match_id : string) : M DataSequence unit :=
  λ s, match match_by_id s !! main_match_id with
       | None => (s, Raise KeyError)
       | Some main_match =>
           match get_all_dependencies fuel_deps main_match s with
           | Raise e => (s, Raise e)
           | Ok deps =>
               let matches_to_remove := get_all_match_ids s ∖ list_to_set deps in
               if bool_decide (id main_match ∈ matches_to_remove)
               then
                 let matches_to_remove := matches_to_remove ∖ {[ id main_match ]} in
                 for_each (clean_matches_step fuel (start_idx main_match)
                             (end_idx main_match))
                          (iter matches_to_remove) s
               else (s, Raise KeyError)
           end
       end.

(** * Sample data *)

(** [Match(concept, value, size, start_idx, id, depends_on_matches)], the
    other fields at their defaults. *)
Definition new_match (c v : string) (sz st : Z) (i : string) (deps : list string)
    : Match :=
  {| concept := c; value := v; size := sz; start_idx := st; id := i;
     assumed := false; depends_on_matches := deps; extractions := ∅;
     structure := []; weight := 1%Qc |}.

Definition sample_ids (i : nat) : string :=
  match i with
  | O => "c0"
  | S O => "c1"
  | S (S O) => "c2"
  | _ => "c3"
  end.

(** [DataSequence.from_string("ab")] *)
Definition seq_ab : DataSequence := from_string "ab" sample_ids.

(** A pair over both characters, depending on the first one. *)
Definition pair_ab : Match := new_match "Pair" "ab" 2 0 "p" ["c0"].

(** A word over the pair, depending on it. *)
Definition word_ab : Match := new_match "Word" "ab" 2 0 "w" ["p"].

(** [seq_ab] with the pair and the word added. *)
Definition seq_pair_word : DataSequence :=
  (add_match word_ab (add_match pair_ab seq_ab).1).1.

(** A match that names its own id, and a match depending on it. *)
Definition self_a : Match := new_match "Loop" "x" 1 0 "a" ["a"].
Definition on_a : Match := new_match "Next" "x" 1 0 "b" ["a"].

(** [DataSequence("x", [DataElement("x", [self_a, on_a])])] *)
Definition seq_self : DataSequence :=
  post_init {| seq_value := "x";
               elements := [ {| el_value := Some "x"; matches := [self_a; on_a];
                                disabled := false |} ];
               seq_extractions := ∅; consolidated := false; match_by_id := ∅ |}.

(** Two matches with one id, the second naming that id as a dependency. *)
Definition first_a : Match := new_match "First" "a" 1 0 "a" [].
Definition second_a : Match := new_match "Second" "b" 1 1 "a" ["a"].

(** [seq_ab] after [add_match(first_a)], [add_match(second_a)] and
    [revoke_match("a", cascade=False)]. *)
Definition seq_orphan : DataSequence :=
  (revoke_match 5 "a" false (add_match second_a (add_match first_a seq_ab).1).1).1.

(** A match over the second character that depends on the id ["a"]. *)
Definition third_b : Match := new_match "Third" "b" 1 1 "t" ["a"].

(** Two sentences over the first character with different derivations;
    the second depends on an id that no match has. *)
Definition sentence_1 : Match := new_match "Sentence" "a" 1 0 "s1" [].
Definition sentence_2 : Match := new_match "Sentence" "a" 1 0 "s2" ["gone"].
Definition sentence_3 : Match := new_match "Sentence" "a" 1 0 "s3" ["c0"].

(** A match of weight one half over the first character. *)
Definition half_a : Match :=
  {| concept := "Maybe"; value := "a"; size := 1; start_idx := 0; id := "h";
     assumed := false; depends_on_matches := []; extractions := ∅;
     structure := []; weight := Q2Qc (1 # 2) |}.

Definition sample_new_ids (i : nat) : string :=
  match i with
  | O => "n0"
  | _ => "n1"
  end.

(** A state spanning the first character and depending on [half_a]. *)
Definition state_on_half : MatchState :=
  {| sequence_idx := 1; pattern_idx := 1; sequence_start_idx := Some 0;
     sequence_end_idx := Some 1; many_optional := false; st_extractions := ∅;
     assumptions := []; st_depends_on_matches := ["h"]; st_structure := [] |}.

(** A rule that joins the character at the anchor with the next one. *)
Definition pair_pattern : Pattern :=
  {| inside := None;
     pattern_match := λ s st _,
       match element_at s (sequence_idx st), element_at s (sequence_idx st + 1) with
       | Some (_, e0), Some (_, e1) =>
           [ new_match "Pair"
               (py_slice (seq_value s) (Some (sequence_idx st))
                  (Some (sequence_idx st + 2)))
               2 (sequence_idx st) "p" (id <$> (take 1 (matches e0) ++ take 1 (matches e1))) ]
       | _, _ => []
       end |}.

(** A rule allowed inside pairs only; anchored at the start of the
    sequence it yields a word over two positions, elsewhere a word over
    one position. *)
Definition word_pattern : Pattern :=
  {| inside := Some "Pair";
     pattern_match := λ s st _,
       if bool_decide (sequence_idx st = 0)
       then [ new_match "Word" (py_slice (seq_value s) (Some 0) (Some 2)) 2 0 "w" ["p"] ]
       else [ new_match "Word"
                (py_slice (seq_value s) (Some (sequence_idx st))
                   (Some (sequence_idx st + 1)))
                1 (sequence_idx st) "v" [] ] |}.

Definition sample_extractor : Extractor :=
  {| patterns := [pair_pattern; word_pattern]; hierarchy := None; single_concepts := [] |}.

(** The kind of a call and where it is made: the anchor of a pattern call,
    the id of a submitted match. *)
Definition event_tag (ev : Event) : string * string :=
  match ev with
  | Invoked start p _ => ("match", pretty start)
  | Submitted p m _ => ("add_match", id m)
  end.

(** The same with a match at the first position that the word does not
    depend on. *)
Definition other_a : Match := new_match "Other" "a" 1 0 "o" ["c0"].
Definition seq_other : DataSequence := (add_match other_a seq_pair_word).1.

(** * Notions used in the statements *)

(** The first match of each id, in the order of the list. *)
Fixpoint first_by_id (ms : list Match) : list Match :=
  match ms with
  | [] => []
  | m :: rest => m :: filter (λ m', id m' ≠ id m) (first_by_id rest)
  end.

(** The values a list of matches captured for a key, in order. *)
Definition captured (key : string) (ms : list Match) : list string :=
  concat ((λ m, default [] (extractions m !! key)) <$> ms).

(** [m] has the concept [c] or a concept with [c] among its ancestors. *)
Definition within (ex : Extractor) (c : string) (m : Match) : Prop :=
  c = concept m ∨ c ∈ get_parents (the_hierarchy ex) (concept m).

(** What the inside constraint requires of a call the pass makes. *)
Definition event_ok (ex : Extractor) (ev : Event) : Prop :=
  match ev with
  | Invoked start p s =>
      ∀ c, declared_inside p = Some c →
           ∃ e m, elements s !! start = Some e ∧ m ∈ matches e ∧ within ex c m
  | Submitted p m s =>
      ∀ c, declared_inside p = Some c →
           ∃ k e other, element_at s (start_idx m) = Some (k, e)
                        ∧ other ∈ matches e ∧ within ex c other
                        ∧ start_idx other = start_idx m ∧ size other = size m
  end.

(** [saved] makes [contains_match] answer yes for [m]. *)
Definition equivalent (saved m : Match) : Prop :=
  concept saved = concept m ∧ size saved = size m ∧ start_idx saved = start_idx m
  ∧ (duplicable (concept m) = true → depends_on_matches saved = depends_on_matches m).

Global Instance equivalent_dec (saved m : Match) : Decision (equivalent saved m).
Proof. unfold equivalent. apply _. Defined.

(** The sequence after the loop of [add_match] has stored [m] at position
    [k], which held [e]. *)
Definition add_here (m : Match) (k : nat) (e : DataElement) (s : DataSequence)
    : DataSequence :=
  set_match_by_id <[id m := m]> (set_elements <[k := set_matches (λ l, l ++ [m]) e]> s).

(** No stored match names its own id among its dependencies. *)
Definition no_self_dependency (s : DataSequence) : Prop :=
  ∀ m, m ∈ all_matches s → id m ∉ depends_on_matches m.

(** The registry has a key for an id exactly when a match with that id is
    stored at some position. *)
Definition consistent (s : DataSequence) : Prop :=
  dom (match_by_id s) = get_all_match_ids s.

(** [s'] is [s] with copies of [m] appended at some positions and
    possibly registered. *)
Definition grown (m : Match) (s s' : DataSequence) : Prop :=
  length (elements s') = length (elements s)
  ∧ consolidated s' = consolidated s
  ∧ (match_by_id s' = match_by_id s ∨ match_by_id s' = <[id m := m]> (match_by_id s))
  ∧ ∀ k e, elements s !! k = Some e →
           ∃ e' l, elements s' !! k = Some e' ∧ matches e' = matches e ++ l
                   ∧ Forall (eq m) l.

(** A match that [revoke_match(x)] leaves at its position: it depends on
    [x] or it has another id. *)
Definition survives (x : string) (m : Match) : Prop :=
  x ∈ depends_on_matches m ∨ id m ≠ x.

Global Instance survives_dec (x : string) (m : Match) : Decision (survives x m).
Proof. unfold survives. apply _. Defined.

(** The ids queued for the cascade: one for each stored copy of a match
    depending on [x], in position order. *)
Definition dependants (x : string) (s : DataSequence) : list string :=
  id <$> filter (λ m, x ∈ depends_on_matches m) (all_matches s).

(** The sequence after the loop of [revoke_match(x)] over the nodes. *)
Definition revoke_here (x : string) (s : DataSequence) : DataSequence :=
  {| seq_value := seq_value s;
     elements := set_matches (filter (survives x)) <$> elements s;
     seq_extractions := seq_extractions s;
     consolidated := false;
     match_by_id := if decide (Forall (survives x) (all_matches s))
                    then match_by_id s else delete x (match_by_id s) |}.

(** Number of stored copies of matches. *)
Definition count (s : DataSequence) : nat := length (all_matches s).

(** [m] is stored and a chain of dependencies leads from it to a stored
    match with id [x]. *)
Inductive reaches (s : DataSequence) (x : string) : Match → Prop :=
| reaches_here m :
    m ∈ all_matches s → id m = x → reaches s x m
| reaches_step m m' :
    m ∈ all_matches s → id m' ∈ depends_on_matches m → reaches s x m' →
    reaches s x m.

(** [s'] is [s] with some stored matches and registry keys dropped. *)
Definition shrunk (s s' : DataSequence) : Prop :=
  all_matches s' `sublist_of` all_matches s
  ∧ ∀ y, match_by_id s !! y = None → match_by_id s' !! y = None.

(** Every match dropped between [s] and [s'] has lost its registry key
    and all the matches that depended on it. *)
Definition closed_under (s s' : DataSequence) : Prop :=
  ∀ m, m ∈ all_matches s → m ∉ all_matches s' →
       match_by_id s' !! id m = None
       ∧ ∀ m', m' ∈ all_matches s' → id m ∉ depends_on_matches m'.

(** The sequences obtained from [from_string] by calls of [add_match] and
    calls of [revoke_match] that return, in any order, with any
    arguments, the matches added being taken among the [allowed] ones; a
    call of [add_match] that raises leaves the sequence as it is when the
    exception leaves the call. *)
Inductive reachable (allowed : Match → Prop) : DataSequence → Prop :=
| reachable_from_string text ids :
    reachable allowed (from_string text ids)
| reachable_add_match s m :
    reachable allowed s → allowed m → reachable allowed (add_match m s).1
| reachable_revoke_match s fuel x cascade s' :
    reachable allowed s → revoke_match fuel x cascade s = (s', Ok tt) →
    reachable allowed s'.

Definition any_match (m : Match) : Prop := True.

Definition not_self_dependent (m : Match) : Prop :=
  id m ∉ depends_on_matches m.

(** The matches [drop_matches] selects at position [idx]. *)
Definition dropped (concepts : list string) (hierarchy : option HierarchyProvider)
    (idx : nat) (m : Match) : Prop :=
  start_idx m = Z.of_nat idx
  ∧ (concept m ∈ concepts
     ∨ ∃ h p, hierarchy = Some h ∧ p ∈ get_parents h (concept m) ∧ p ∈ concepts).

Global Instance not_self_dependent_dec (m : Match) : Decision (not_self_dependent m).
Proof. unfold not_self_dependent. apply _. Defined.

Global Instance dropped_dec (concepts : list string) (hierarchy : option HierarchyProvider)
    (idx : nat) (m : Match) : Decision (dropped concepts hierarchy idx m).
Proof.
  unfold dropped. apply and_dec; [apply _|]. apply or_dec; [apply _|].
  destruct hierarchy as [h|].
  - destruct (decide (Exists (λ p, p ∈ concepts) (get_parents h (concept m))))
      as [Hex|Hex].
    + left. apply list.Exists_exists in Hex as (p & ? & ?). by exists h, p.
    + right. intros (h' & p & [= <-] & ? & ?). apply Hex, list.Exists_exists. by exists p.
  - right. by intros (h & p & ? & _).
Defined.

(** What never changes at the positions: payload and disabled flag. *)
Definition positions (s : DataSequence) : list (option string * bool) :=
  (λ e, (el_value e, disabled e)) <$> elements s.

(** The matches [keep_only] selects at position [idx]. *)
Definition unwanted (concepts : list string) (hierarchy : option HierarchyProvider)
    (idx : nat) (m : Match) : Prop :=
  start_idx m = Z.of_nat idx
  ∧ (concept m ∉ concepts)
  ∧ (∀ h, hierarchy = Some h →
          ¬ (∃ p, p ∈ get_parents h (concept m) ∧ p ∈ concepts)).

Global Instance unwanted_dec (concepts : list string) (hierarchy : option HierarchyProvider)
    (idx : nat) (m : Match) : Decision (unwanted concepts hierarchy idx m).
Proof.
  unfold unwanted. apply and_dec; [apply _|]. apply and_dec; [apply _|].
  destruct hierarchy as [h|].
  - destruct (decide (Exists (λ p, p ∈ concepts) (get_parents h (concept m))))
      as [Hex|Hex].
    + right. intros H. apply (H h eq_refl).
      apply list.Exists_exists in Hex as (p & ? & ?). by exists p.
    + left. intros h' [= <-] (p & ? & ?). apply Hex, list.Exists_exists. by exists p.
  - left. by intros h.
Defined.

(** A stored match carries id [y] and does not name it as a dependency:
    [revoke_match(y)] removes it. *)
Definition removable (s : DataSequence) (y : string) : Prop :=
  Exists (λ m, id m = y ∧ y ∉ depends_on_matches m) (all_matches s).

(** The ids the cascade started at [x] revokes: [x], and the id of every
    stored match that lists a revoked id among its dependencies. *)
Inductive revoked_id (s : DataSequence) (x : string) : string → Prop :=
| revoked_root : revoked_id s x x
| revoked_step m d :
    m ∈ all_matches s → d ∈ depends_on_matches m → revoked_id s x d →
    revoked_id s x (id m).

(** [s'] is [s] after the ids of [L] have been revoked at the positions
    and in the registry. *)
Definition without (L : list string) (s s' : DataSequence) : Prop :=
  seq_value s' = seq_value s
  ∧ seq_extractions s' = seq_extractions s
  ∧ elements s'
    = set_matches (filter (λ m, id m ∉ L ∨ id m ∈ depends_on_matches m)) <$> elements s
  ∧ ∀ y, match_by_id s' !! y
         = if decide (y ∈ L ∧ removable s y) then None else match_by_id s !! y.

(** [s] keeps what [s0] stores: the positions are the same, every
    position holds its former matches, in order, before the new ones, and
    every registered id is still registered. *)
Definition kept (s0 s : DataSequence) : Prop :=
  positions s = positions s0
  ∧ seq_value s = seq_value s0
  ∧ (∀ k e, elements s0 !! k = Some e →
            ∃ e' l, elements s !! k = Some e' ∧ matches e' = matches e ++ l)
  ∧ ∀ y, is_Some (match_by_id s0 !! y) → is_Some (match_by_id s !! y).

(** A call of a pattern is made at a position of [s0] that satisfies
    [ok]. *)
Definition invoked_where (ok : DataElement → Prop) (s0 : DataSequence) (ev : Event)
    : Prop :=
  match ev with
  | Invoked start _ _ => ∃ e, elements s0 !! start = Some e ∧ ok e
  | Submitted _ _ _ => True
  end.

(** The argument of [disable_elements] as a list. *)
Definition concept_list (concepts : string + list string) : list string :=
  match concepts with inl c => [c] | inr l => l end.

(** The matches [get_slots] lists at position [idx]. *)
Definition listed (concept_ : string) (hierarchy : option HierarchyProvider)
    (idx : nat) (m : Match) : Prop :=
  start_idx m = Z.of_nat idx
  ∧ (concept m = concept_
     ∨ ∃ h, hierarchy = Some h ∧ concept_ ∈ get_parents h (concept m)).

Global Instance listed_dec (concept_ : string) (hierarchy : option HierarchyProvider)
    (idx : nat) (m : Match) : Decision (listed concept_ hierarchy idx m).
Proof.
  unfold listed. apply and_dec; [apply _|]. apply or_dec; [apply _|].
  destruct hierarchy as [h|].
  - destruct (decide (concept_ ∈ get_parents h (concept m))) as [Hin|Hout].
    + left. by exists h.
    + right. by intros (h' & [= <-] & ?).
  - right. by intros (h' & ? & _).
Defined.

(** [x] is a dependency of [m], directly or through the registered
    matches of its dependencies. *)
Inductive depends_on (s : DataSequence) : Match → string → Prop :=
| depends_direct m d :
    d ∈ depends_on_matches m → depends_on s m d
| depends_via m d m' x :
    d ∈ depends_on_matches m → match_by_id s !! d = Some m' → depends_on s m' x →
    depends_on s m x.

(** Position [k] is one of the positions [start_idx + idx], [idx] in
    [range(size)], of a sequence of length [len]. *)
Definition in_span (m : Match) (len k : nat) : Prop :=
  Exists (λ idx, py_norm_index len (start_idx m + idx) = Some k) (seqZ 0 (size m)).

Global Instance in_span_dec (m : Match) (len k : nat) : Decision (in_span m len k).
Proof. unfold in_span. apply _. Defined.

(** The registered match of [x] lies in the span and is not a
    ['Character']: [clean_matches] revokes [x] when it meets it. *)
Definition in_clean_span (start end_ : Z) (s : DataSequence) (x : string) : Prop :=
  ∃ m, match_by_id s !! x = Some m
       ∧ start ≤ start_idx m ∧ end_idx m ≤ end_ ∧ concept m ≠ "Character".

(** The ids [clean_matches] revokes for the main match [main]: stored,
    not the id of [main] and not among its dependencies, with a
    registered match in the span of [main] that is not a ['Character']. *)
Definition clean_root (s : DataSequence) (main : Match) (x : string) : Prop :=
  x ∈ get_all_match_ids s ∧ x ≠ id main ∧ ¬ depends_on s main x
  ∧ in_clean_span (start_idx main) (end_idx main) s x.

(** The registry holds exactly the stored matches, under their ids. *)
Definition registry_exact (s : DataSequence) : Prop :=
  ∀ y m, match_by_id s !! y = Some m ↔ m ∈ all_matches s ∧ id m = y.

(** The span of [m] lies in a sequence of length [len]: every subscript
    [start_idx + idx] the store computes for it denotes a position. *)
Definition span_in_range (len : nat) (m : Match) : Prop :=
  - Z.of_nat len ≤ start_idx m < Z.of_nat len ∧ start_idx m + size m ≤ Z.of_nat len.

(** What [py_chars] returns: characters, each a first byte followed by
    continuation bytes, all but the first starting at a byte that is not
    a continuation byte. *)
Fixpoint all_continuation (s : string) : bool :=
  match s with
  | EmptyString => true
  | String a rest => is_continuation a && all_continuation rest
  end.

Definition is_char (ch : string) : Prop :=
  match ch with
  | EmptyString => False
  | String _ rest => all_continuation rest = true
  end.

Definition starts_char (s : string) : Prop :=
  match s with
  | EmptyString => True
  | String a _ => is_continuation a = false
  end.

Definition chars_ok (chars : list string) : Prop :=
  match chars with
  | [] => True
  | ch :: rest => is_char ch ∧ Forall (λ c, is_char c ∧ starts_char c) rest
  end.

Global Instance span_in_range_dec (len : nat) (m : Match) : Decision (span_in_range len m).
Proof. unfold span_in_range. apply _. Defined.

(** The matches returned by the call of a pattern recorded in [ev] lie in
    a sequence of length [len]. *)
Definition returned_in_range (ex : Extractor) (len : nat) (ev : Event) : Prop :=
  match ev with
  | Invoked start p s =>
      Forall (span_in_range len)
             (pattern_match p s (new_state (Z.of_nat start)) (the_hierarchy ex))
  | Submitted _ _ _ => True
  end.

Global Instance returned_in_range_dec (ex : Extractor) (len : nat) (ev : Event) :
  Decision (returned_in_range ex len ev).
Proof. destruct ev; simpl; apply _. Defined.

(** * Properties *)

(** ** The matches a sequence stores *)

Lemma elem_of_concat_matches (es : list DataElement) (m : Match) :
  m ∈ concat (matches <$> es) ↔ ∃ e, e ∈ es ∧ m ∈ matches e.
Proof.
  induction es as [|e es IH]; simpl.
  - rewrite elem_of_nil. split; [done|]. intros (e & He & _). by apply elem_of_nil in He.
  - rewrite elem_of_app, IH. split.
    + intros [?|(e' & ? & ?)]; [exists e|exists e']; split; auto; [left|by right].
    + intros (e' & [->|?]%elem_of_cons & ?); eauto.
Qed.

Lemma elem_of_all_matches (s : DataSequence) (m : Match) :
  m ∈ all_matches s ↔ ∃ e, e ∈ elements s ∧ m ∈ matches e.
Proof. apply elem_of_concat_matches. Qed.

Lemma collect_ids_inner (ms : list Match) (acc : gset string) (x : string) :
  x ∈ foldl (λ match_ids m, match_ids ∪ {[ id m ]}) acc ms
  ↔ x ∈ acc ∨ ∃ m, m ∈ ms ∧ id m = x.
Proof.
  revert acc. induction ms as [|m ms IH]; intros acc; simpl.
  - split; [auto|]. intros [?|(m & Hm & _)]; [done|]. by apply elem_of_nil in Hm.
  - rewrite IH, elem_of_union, elem_of_singleton. split.
    + intros [[?| ->]|(m' & Hm' & <-)]; eauto using list_elem_of_here, list_elem_of_further.
    + intros [?|(m' & Hm' & <-)]; [auto|].
      apply elem_of_cons in Hm' as [->|?]; eauto.
Qed.

Lemma collect_ids_outer (es : list DataElement) (acc : gset string) (x : string) :
  x ∈ foldl (λ match_ids e,
               foldl (λ match_ids m, match_ids ∪ {[ id m ]}) match_ids (matches e))
            acc es
  ↔ x ∈ acc ∨ ∃ m, m ∈ concat (matches <$> es) ∧ id m = x.
Proof.
  revert acc. induction es as [|e es IH]; intros acc; simpl.
  - split; [auto|]. intros [?|(m & Hm & _)]; [done|]. by apply elem_of_nil in Hm.
  - rewrite IH, collect_ids_inner. split.
    + intros [[?|(m & Hm & <-)]|(m & Hm & <-)]; [auto|right..];
        exists m; (split; [|done]); apply elem_of_app; auto.
    + intros [?|(m & Hm & <-)]; [auto|].
      apply elem_of_app in Hm as [?|?]; eauto.
Qed.

Lemma elem_of_get_all_match_ids (s : DataSequence) (x : string) :
  x ∈ get_all_match_ids s ↔ ∃ m, m ∈ all_matches s ∧ id m = x.
Proof.
  unfold get_all_match_ids. rewrite collect_ids_outer.
  split; [intros [H|H]; [by apply not_elem_of_empty in H|done]|auto].
Qed.

Lemma dependencies_present_spec (m : Match) (s : DataSequence) :
  dependencies_present m s = true
  ↔ ∀ d, d ∈ depends_on_matches m → d ∈ get_all_match_ids s.
Proof.
  unfold dependencies_present, py_bool. rewrite negb_involutive, bool_decide_eq_true.
  split.
  - intros H d Hd. destruct (decide (d ∈ get_all_match_ids s)) as [|Hn]; [done|].
    assert (d ∈ (∅ : gset string)) as Hin; [|by apply not_elem_of_empty in Hin].
    rewrite <- H. apply elem_of_difference. split; [|done].
    by apply elem_of_list_to_set.
  - intros H. apply set_eq. intros d.
    rewrite elem_of_difference, elem_of_list_to_set. split.
    + intros [Hd Hn]. destruct Hn. by apply H.
    + intros Hd. by apply not_elem_of_empty in Hd.
Qed.

(** ** Adding a match whose dependency is missing *)

(** C1, with the ids stored at the positions in place of the registry.
    A match one of whose dependency ids is not the id of a match stored
    at some position is rejected: [add_match] returns [False] and the
    sequence is left as it was (positions, registry, consolidated flag,
    everything).  An id missing from the registry has the same effect on
    the sequences whose registry has a key for every stored id. *)
Theorem add_match_missing_dependency (s : DataSequence) (m : Match) (d : string) :
  d ∈ depends_on_matches m →
  (d ∉ get_all_match_ids s → add_match m s = (s, Ok false))
  ∧ (get_all_match_ids s ⊆ dom (match_by_id s) →
     d ∉ dom (match_by_id s) → add_match m s = (s, Ok false)).
Proof.
  intros Hd.
  assert (d ∉ get_all_match_ids s → add_match m s = (s, Ok false)) as H.
  { intros Hn. unfold add_match.
    destruct (dependencies_present m s) eqn:E; [|done].
    destruct Hn. by apply (proj1 (dependencies_present_spec m s) E). }
  split; [done|]. intros Hsub Hn. apply H. intros Hin. by apply Hn, Hsub.
Qed.

(** ** Reading the aggregated captures *)

(** C5. While the consolidated flag is false [extract] raises; when it is
    set, [extract] returns the list the aggregated mapping has for the
    key, and the empty list when it has none.  The sequence is not
    changed. *)
Theorem extract_spec (s : DataSequence) (key : string) :
  (consolidated s = false →
     extract key s = (s, Raise (Exception "Must consolidate first")))
  ∧ (consolidated s = true →
     (∀ values, seq_extractions s !! key = Some values →
                extract key s = (s, Ok values))
     ∧ (seq_extractions s !! key = None → extract key s = (s, Ok []))).
Proof.
  unfold extract. split.
  - by intros ->.
  - intros ->. simpl. split; [intros values ->|intros ->]; done.
Qed.

(** ** Weight of a finalized match *)

Lemma py_min_le_l (a b : Qc) : (py_min a b ≤ a)%Qc.
Proof.
  unfold py_min. destruct (Qclt_le_dec b a); [by apply Qclt_le_weak|apply Qcle_refl].
Qed.

Lemma py_min_le_r (a b : Qc) : (py_min a b ≤ b)%Qc.
Proof.
  unfold py_min. destruct (Qclt_le_dec b a); [apply Qcle_refl|done].
Qed.

Lemma py_min_cases (a b : Qc) : py_min a b = a ∨ py_min a b = b.
Proof. unfold py_min. destruct (Qclt_le_dec b a); auto. Qed.

Lemma propagate_weight_spec (s : DataSequence) (deps : list string) (w : Qc) :
  (∀ d, d ∈ deps → d ∈ dom (match_by_id s)) →
  ∃ w', propagate_weight s deps w = Ok w'
        ∧ (w' ≤ w)%Qc
        ∧ (∀ d m, d ∈ deps → match_by_id s !! d = Some m → (w' ≤ weight m)%Qc)
        ∧ (w' = w ∨ ∃ d m, d ∈ deps ∧ match_by_id s !! d = Some m ∧ w' = weight m).
Proof.
  revert w. induction deps as [|d deps IH]; intros w Hdeps; simpl.
  - exists w. split_and!; [done|apply Qcle_refl| |auto].
    intros d m Hd. by apply elem_of_nil in Hd.
  - assert (d ∈ dom (match_by_id s)) as Hd by (apply Hdeps; left).
    apply elem_of_dom in Hd as [m Hm]. rewrite Hm.
    destruct (IH (py_min w (weight m))) as (w' & -> & Hle & Hall & Hex).
    { intros d' Hd'. apply Hdeps. by right. }
    exists w'. split_and!; [done|..].
    + eapply Qcle_trans; [done|apply py_min_le_l].
    + intros d' m' Hd' Hm'. apply elem_of_cons in Hd' as [->|Hd'].
      * rewrite Hm in Hm'. injection Hm' as <-.
        eapply Qcle_trans; [done|apply py_min_le_r].
      * by eapply Hall.
    + destruct Hex as [->|(d' & m' & Hd' & Hm' & ->)].
      * destruct (py_min_cases w (weight m)) as [->| ->]; [by left|].
        right. exists d, m. split_and!; [left|done|done].
      * right. exists d', m'. split_and!; [by right|done|done].
Qed.

(** C4. A state whose span is set and whose dependency ids are all keys
    of the registry is finalized by [get_matches] into a list headed by
    the main match, and the weight stored in the main match is the
    minimum of the requested weight and the weights of the matches the
    registry has for its dependency ids: it is one of these weights, it is
    at most the requested weight, and it is at most the weight of every
    direct dependency. *)
Theorem get_matches_weight (st : MatchState) (s : DataSequence) (c : string)
    (w : Qc) (ids : nat → string) (b e : Z) :
  sequence_start_idx st = Some b →
  sequence_end_idx st = Some e →
  (∀ d, d ∈ st_depends_on_matches st → d ∈ dom (match_by_id s)) →
  ∃ main others,
    get_matches st s c w ids = Ok (main :: others)
    ∧ depends_on_matches main = st_depends_on_matches st
    ∧ (weight main = w
       ∨ ∃ d m, d ∈ depends_on_matches main ∧ match_by_id s !! d = Some m
                ∧ weight main = weight m)
    ∧ (weight main ≤ w)%Qc
    ∧ (∀ d m, d ∈ depends_on_matches main → match_by_id s !! d = Some m →
              (weight main ≤ weight m)%Qc).
Proof.
  intros Hb He Hdeps. unfold get_matches.
  destruct (propagate_weight_spec s _ w Hdeps) as (w' & -> & Hle & Hall & Hex).
  rewrite Hb, He. eexists _, _. split; [done|]. simpl. done.
Qed.

(** ** Consolidation *)

Lemma merge_extractions_lookup (ext : gmap string (list string)) (m : Match) (key : string) :
  merge_extractions ext m !! key =
    match extractions m !! key with
    | Some values => Some (default [] (ext !! key) ++ values)
    | None => ext !! key
    end.
Proof.
  unfold merge_extractions. revert key.
  apply (map_fold_weak_ind (λ r (mm : gmap string (list string)), ∀ key,
    r !! key = match mm !! key with
               | Some values => Some (default [] (ext !! key) ++ values)
               | None => ext !! key
               end)).
  - intros key. by rewrite lookup_empty.
  - intros i x mm r Hi IH key. destruct (decide (i = key)) as [->|Hne].
    + rewrite !lookup_insert_eq. specialize (IH key). rewrite Hi in IH. by rewrite IH.
    + rewrite !lookup_insert_ne by done. apply IH.
Qed.

Lemma foldl_merge_extractions (ms : list Match) (ext : gmap string (list string))
    (key : string) :
  default [] (foldl merge_extractions ext ms !! key)
  = default [] (ext !! key) ++ captured key ms.
Proof.
  revert ext. induction ms as [|m ms IH]; intros ext; simpl.
  - unfold captured. simpl. by rewrite app_nil_r.
  - rewrite IH, merge_extractions_lookup. unfold captured. simpl.
    destruct (extractions m !! key); simpl; by rewrite <- ?app_assoc.
Qed.

Lemma foldl_merge_extractions_dom (ms : list Match) (ext : gmap string (list string))
    (key : string) :
  is_Some (foldl merge_extractions ext ms !! key)
  ↔ is_Some (ext !! key) ∨ ∃ m, m ∈ ms ∧ is_Some (extractions m !! key).
Proof.
  revert ext. induction ms as [|m ms IH]; intros ext; simpl.
  - split; [auto|]. intros [?|(m & Hm & _)]; [done|]. by apply elem_of_nil in Hm.
  - rewrite IH, merge_extractions_lookup. split.
    + intros [H|(m' & Hm' & H)].
      * destruct (extractions m !! key) eqn:E; [|auto].
        right. exists m. split; [left|]. by rewrite E.
      * right. exists m'. split; [by right|done].
    + intros [H|(m' & [->|Hm']%elem_of_cons & H)].
      * left. destruct (extractions m !! key); [done|done].
      * left. destruct H as [v ->]. done.
      * right. eauto.
Qed.

Lemma consolidate_collect_spec (ms : list Match) (found : list Match * gset string) :
  consolidate_collect ms found
  = (found.1 ++ filter (λ m, id m ∉ found.2) (first_by_id ms),
     found.2 ∪ list_to_set (id <$> ms)).
Proof.
  revert found. induction ms as [|m ms IH]; intros [acc seen]; simpl.
  - by rewrite filter_nil, app_nil_r, (right_id_L ∅ (∪)).
  - case_bool_decide as Hm; rewrite IH; simpl.
    + rewrite filter_cons_True by done. rewrite <- app_assoc. simpl.
      f_equal; [|symmetry; apply (assoc_L (∪))].
      do 2 f_equal. rewrite list_filter_filter. apply list_filter_iff.
      intros m'. rewrite not_elem_of_union, elem_of_singleton. tauto.
    + rewrite filter_cons_False by tauto.
      f_equal.
      * f_equal. rewrite list_filter_filter. apply list_filter_iff.
        intros m'. split; [|tauto]. intros H. split; [done|]. congruence.
      * apply set_eq. intros x.
        rewrite !elem_of_union, elem_of_singleton. split; [tauto|].
        intros [?|[->|?]]; auto.
Qed.

Lemma consolidate_collect_app (l1 l2 : list Match) (found : list Match * gset string) :
  consolidate_collect (l1 ++ l2) found
  = consolidate_collect l2 (consolidate_collect l1 found).
Proof.
  revert found. induction l1 as [|m l1 IH]; intros found; simpl; [done|].
  case_bool_decide; apply IH.
Qed.

Lemma foldl_consolidate_collect (es : list DataElement) (found : list Match * gset string) :
  foldl (λ found node, consolidate_collect (matches node) found) found es
  = consolidate_collect (concat (matches <$> es)) found.
Proof.
  revert found. induction es as [|e es IH]; intros found; simpl; [done|].
  by rewrite IH, consolidate_collect_app.
Qed.

Lemma consolidate_stale (s : DataSequence) :
  consolidated s = false →
  consolidate s
  = (set_consolidated true
       (set_seq_extractions
          (foldl merge_extractions ∅ (first_by_id (all_matches s))) s), Ok tt).
Proof.
  intros Hc. unfold consolidate. rewrite Hc.
  rewrite foldl_consolidate_collect, consolidate_collect_spec. simpl.
  do 4 f_equal. fold (all_matches s).
  induction (first_by_id (all_matches s)) as [|m l IH]; [done|].
  rewrite filter_cons_True by apply not_elem_of_empty. by rewrite IH.
Qed.

Lemma first_by_id_sublist (ms : list Match) : first_by_id ms `sublist_of` ms.
Proof.
  induction ms as [|m ms IH]; simpl; [constructor|].
  apply sublist_skip. etrans; [apply sublist_filter|done].
Qed.

Lemma elem_of_first_by_id_ids (ms : list Match) (x : string) :
  x ∈ id <$> first_by_id ms ↔ x ∈ id <$> ms.
Proof.
  induction ms as [|m ms IH]; simpl; [done|].
  rewrite !elem_of_cons, <- IH. split; [|destruct (decide (x = id m)); [auto|]].
  - intros [?|(m' & -> & [_ ?]%list_elem_of_filter)%list_elem_of_fmap]; [auto|].
    right. by apply list_elem_of_fmap_2.
  - intros [?|(m' & -> & ?)%list_elem_of_fmap]; [auto|]. right.
    apply list_elem_of_fmap. exists m'. split; [done|]. by apply list_elem_of_filter.
Qed.

Lemma first_by_id_NoDup (ms : list Match) : NoDup (id <$> first_by_id ms).
Proof.
  induction ms as [|m ms IH]; simpl; [constructor|].
  apply NoDup_cons_2.
  - intros (m' & Heq & [Hne _]%list_elem_of_filter)%list_elem_of_fmap. congruence.
  - eapply sublist_NoDup; [done|]. apply fmap_sublist, sublist_filter.
Qed.

(** C6. [consolidate] does nothing on a sequence that is already
    consolidated, so a second call right after a first one leaves the
    aggregated mapping of the first.  On a stale sequence it sets the
    flag and builds the mapping from the first match of each id met in
    position order, then in the order inside a position: these matches
    have pairwise different ids, carry every id stored in the sequence, and
    the list the mapping has for a key is the concatenation, in that order,
    of what each of them captured for the key (so each is merged once); a
    key is present exactly when one of them has it. *)
Theorem consolidate_idempotent (s : DataSequence) :
  (consolidated s = true → consolidate s = (s, Ok tt))
  ∧ (∀ s1, (consolidate s).1 = s1 →
       consolidated s1 = true
       ∧ consolidate s1 = (s1, Ok tt)
       ∧ seq_extractions (consolidate s1).1 = seq_extractions s1)
  ∧ (consolidated s = false →
     let found := first_by_id (all_matches s) in
     let s1 := (consolidate s).1 in
     found `sublist_of` all_matches s
     ∧ NoDup (id <$> found)
     ∧ (∀ x, x ∈ id <$> found ↔ x ∈ get_all_match_ids s)
     ∧ elements s1 = elements s
     ∧ match_by_id s1 = match_by_id s
     ∧ (∀ key, default [] (seq_extractions s1 !! key) = captured key found)
     ∧ (∀ key, is_Some (seq_extractions s1 !! key)
               ↔ ∃ m, m ∈ found ∧ is_Some (extractions m !! key))).
Proof.
  assert (∀ s', consolidated s' = true → consolidate s' = (s', Ok tt)) as Hfresh.
  { intros s' H. unfold consolidate. by rewrite H. }
  split_and!; [apply Hfresh| |].
  - intros s1 <-. assert (consolidated (consolidate s).1 = true) as Hc.
    { destruct (consolidated s) eqn:E; [by rewrite Hfresh|].
      by rewrite consolidate_stale. }
    split_and!; [done|by apply Hfresh|by rewrite Hfresh].
  - intros Hc. simpl. rewrite consolidate_stale by done. simpl.
    split_and!; [apply first_by_id_sublist|apply first_by_id_NoDup| |done|done| |].
    + intros x. rewrite elem_of_first_by_id_ids, elem_of_get_all_match_ids.
      rewrite list_elem_of_fmap.
      split; intros (m & ? & ?); exists m; auto.
    + intros key. by rewrite foldl_merge_extractions, lookup_empty.
    + intros key. rewrite foldl_merge_extractions_dom, lookup_empty.
      split; [intros [[? ?]|?]; done|auto].
Qed.

(** ** The inside constraint of a pass *)

Lemma has_concept_or_parent_within (ex : Extractor) (c : string) (m : Match) :
  has_concept_or_parent ex c m = true ↔ within ex c m.
Proof.
  unfold has_concept_or_parent, within.
  by rewrite orb_true_iff, !bool_decide_eq_true.
Qed.

Lemma existsb_elem_of {A} (f : A → bool) (l : list A) :
  existsb f l = true ↔ ∃ x, x ∈ l ∧ f x = true.
Proof.
  rewrite existsb_exists. split; intros (x & Hx & Hf); exists x;
    (split; [by apply list_elem_of_In|done]).
Qed.

Lemma check_inside_start_idx_true (ex : Extractor) (s : DataSequence)
    (start : nat) (c : string) :
  check_inside_start_idx ex s (Z.of_nat start) c = Ok true →
  ∃ e m, elements s !! start = Some e ∧ m ∈ matches e ∧ within ex c m.
Proof.
  unfold check_inside_start_idx, element_at, py_norm_index.
  case_bool_decide as Hr; simpl.
  - rewrite Nat2Z.id. destruct (elements s !! start) as [e|]; simpl; [|done].
    intros [= (m & Hm & Hc)%existsb_elem_of].
    exists e, m. split_and!; [done..|]. by apply has_concept_or_parent_within.
  - case_bool_decide; [lia|done].
Qed.

Lemma check_match_is_inside_true (ex : Extractor) (s : DataSequence)
    (m : Match) (c : string) :
  check_match_is_inside ex s m c = Ok true →
  ∃ k e other, element_at s (start_idx m) = Some (k, e)
               ∧ other ∈ matches e ∧ within ex c other
               ∧ start_idx other = start_idx m ∧ size other = size m.
Proof.
  unfold check_match_is_inside.
  destruct (element_at s (start_idx m)) as [[k e]|]; [|done].
  intros [= (other & Ho & Hc)%existsb_elem_of].
  apply andb_true_iff in Hc as [[H1 H2]%andb_true_iff H3].
  apply bool_decide_eq_true in H2, H3.
  exists k, e, other. split_and!; [done..| |done|done].
  by apply has_concept_or_parent_within.
Qed.

Section pass.
Context (ex : Extractor).

Lemma submit_matches_log (p : Pattern) (ms : list Match) (had : bool) (r : Run) :
  Forall (event_ok ex) (run_log r) →
  Forall (event_ok ex) (run_log (submit_matches ex p ms had r).1).
Proof.
  revert had r. induction ms as [|m ms IH]; intros had r Hlog; simpl; [done|].
  unfold bind at 1. destruct (declared_inside p) as [c|] eqn:Hin.
  - unfold bind at 1, read_seq at 1.
    destruct (check_match_is_inside ex (run_seq r) m c) as [[]|] eqn:Hchk;
      simpl; [|by apply IH|done].
    unfold bind, record_event, on_seq. simpl.
    destruct (add_match m (run_seq r)) as [s' [added|err]]; simpl.
    + apply IH. simpl. apply Forall_app. split; [done|].
      constructor; [|constructor]. simpl. intros c' Hc'.
      rewrite Hin in Hc'. injection Hc' as <-.
      by apply check_match_is_inside_true.
    + apply Forall_app. split; [done|].
      constructor; [|constructor]. simpl. intros c' Hc'.
      rewrite Hin in Hc'. injection Hc' as <-.
      by apply check_match_is_inside_true.
  - unfold ret at 1. simpl. unfold bind, record_event, on_seq. simpl.
    assert (event_ok ex (Submitted p m (run_seq r))) as Hev.
    { simpl. intros c' Hc'. by rewrite Hin in Hc'. }
    destruct (add_match m (run_seq r)) as [s' [added|err]]; simpl.
    + apply IH. simpl. apply Forall_app. split; [done|]. by repeat constructor.
    + apply Forall_app. split; [done|]. by repeat constructor.
Qed.

Lemma apply_patterns_log (start : nat) (ps : list Pattern) (had : bool) (r : Run) :
  Forall (event_ok ex) (run_log r) →
  Forall (event_ok ex) (run_log (apply_patterns ex start ps had r).1).
Proof.
  revert had r. induction ps as [|p ps IH]; intros had r Hlog; simpl; [done|].
  assert (event_ok ex (Invoked start p (run_seq r)) →
          Forall (event_ok ex)
            (run_log
               ((let* _ := record_event (Invoked start p) in
                 let* s := read_seq Ok in
                 let* had := submit_matches ex p
                               (pattern_match p s (new_state (Z.of_nat start))
                                  (the_hierarchy ex)) had in
                 apply_patterns ex start ps had) r).1)) as Hgo.
  { intros Hev. unfold bind at 1, record_event at 1. simpl.
    unfold bind at 1, read_seq at 1. simpl. unfold bind.
    match goal with |- context [submit_matches ex p ?ms had ?r'] =>
      pose proof (submit_matches_log p ms had r') as Hsub;
      destruct (submit_matches ex p ms had r') as [r1 [had1|err]] end.
    - apply IH, Hsub. simpl. apply Forall_app. split; [done|]. by repeat constructor.
    - apply Hsub. simpl. apply Forall_app. split; [done|]. by repeat constructor. }
  unfold bind at 1. destruct (declared_inside p) as [c|] eqn:Hin.
  - unfold bind at 1, read_seq at 1.
    destruct (check_inside_start_idx ex (run_seq r) (Z.of_nat start) c)
      as [[]|] eqn:Hchk; simpl; [|by apply IH|done].
    apply Hgo. simpl. intros c' Hc'. rewrite Hin in Hc'. injection Hc' as <-.
    by apply check_inside_start_idx_true.
  - unfold ret at 1. simpl. apply Hgo. simpl. intros c' Hc'. by rewrite Hin in Hc'.
Qed.

Lemma apply_positions_log (starts : list nat) (had : bool) (r : Run) :
  Forall (event_ok ex) (run_log r) →
  Forall (event_ok ex) (run_log (apply_positions ex starts had r).1).
Proof.
  revert had r. induction starts as [|start starts IH]; intros had r Hlog; simpl; [done|].
  unfold bind at 1, get at 1.
  destruct (elements (run_seq r) !! start) as [e|]; [|done].
  destruct (disabled e); [by apply IH|].
  unfold bind. pose proof (apply_patterns_log start (patterns ex) had r Hlog) as Hp.
  destruct (apply_patterns ex start (patterns ex) had r) as [r1 [had1|err]]; [|done].
  by apply IH.
Qed.
End pass.

(** C7. In a pass, every call of a pattern that declares an inside
    concept is made at a position where some stored match has that concept
    or a concept with it among its ancestors, and every match of such a
    pattern that is handed to [add_match] has, at the position where it
    starts, a stored match with the same start index and the same size
    whose concept is the inside concept or has it among its ancestors.
    The log is the list of these calls, in order, whether the pass ends
    normally or with an exception. *)
Theorem apply_once_inside (ex : Extractor) (s : DataSequence) :
  Forall (event_ok ex) (run_log (apply_once ex {| run_seq := s; run_log := [] |}).1).
Proof. unfold apply_once. apply apply_positions_log. constructor. Qed.

(** ** The loop of [add_match] *)

Lemma element_at_Some (s : DataSequence) (i : Z) (k : nat) (e : DataElement) :
  element_at s i = Some (k, e)
  ↔ py_norm_index (length (elements s)) i = Some k ∧ elements s !! k = Some e.
Proof.
  unfold element_at. destruct (py_norm_index _ i) as [k'|]; simpl.
  2: { split; [done|]. by intros [? _]. }
  destruct (elements s !! k') as [e'|] eqn:E; simpl.
  - split; [by intros [= <- <-]|]. intros [[= <-] H]. rewrite E in H. by injection H as <-.
  - split; [done|]. intros [[= <-] H]. by rewrite E in H.
Qed.

Lemma set_elements_insert_id (s : DataSequence) (k : nat) (e : DataElement) :
  elements s !! k = Some e → set_elements <[k := e]> s = s.
Proof.
  intros H. destruct s. unfold set_elements. simpl in *. by rewrite list_insert_id.
Qed.

Lemma add_match_loop_old (m : Match) (idx : Z) (rest : list Z) (b : bool)
    (s : DataSequence) (k : nat) (e : DataElement) :
  element_at s (start_idx m + idx) = Some (k, e) →
  contains_match e m = true →
  add_match_loop m (idx :: rest) b s = add_match_loop m rest b s.
Proof.
  intros Hat Hc. simpl. rewrite Hat. unfold DataElement_add_match. rewrite Hc. simpl.
  apply element_at_Some in Hat as [_ Hk].
  by rewrite set_elements_insert_id, orb_false_r.
Qed.

Lemma add_match_loop_new (m : Match) (idx : Z) (rest : list Z) (b : bool)
    (s : DataSequence) (k : nat) (e : DataElement) :
  element_at s (start_idx m + idx) = Some (k, e) →
  contains_match e m = false →
  add_match_loop m (idx :: rest) b s = add_match_loop m rest true (add_here m k e s).
Proof.
  intros Hat Hc. simpl. rewrite Hat. unfold DataElement_add_match. rewrite Hc. simpl.
  by rewrite orb_true_r.
Qed.

Lemma add_match_loop_out (m : Match) (idx : Z) (rest : list Z) (b : bool)
    (s : DataSequence) :
  element_at s (start_idx m + idx) = None →
  add_match_loop m (idx :: rest) b s = (s, Raise IndexError).
Proof. intros Hat. simpl. by rewrite Hat. Qed.

(** A property kept by storing a match at one position is kept by the
    loop, whatever its outcome. *)
Lemma add_match_loop_inv (m : Match) (P : DataSequence → Prop) :
  (∀ s k e, P s → elements s !! k = Some e → contains_match e m = false →
            P (add_here m k e s)) →
  ∀ idxs b s, P s → P (add_match_loop m idxs b s).1.
Proof.
  intros Hstep idxs. induction idxs as [|idx rest IH]; intros b s HP; [done|].
  destruct (element_at s (start_idx m + idx)) as [[k e]|] eqn:Hat.
  - destruct (contains_match e m) eqn:Hc.
    + erewrite add_match_loop_old by done. by apply IH.
    + erewrite add_match_loop_new by done. apply IH.
      apply element_at_Some in Hat as [_ Hk]. by apply Hstep.
  - by rewrite add_match_loop_out.
Qed.

Lemma contains_match_loop_cons (x : Match) (l : list Match) (m : Match) :
  contains_match_loop (x :: l) m
  = if decide (equivalent x m) then true else contains_match_loop l m.
Proof.
  simpl. destruct (decide (concept x = concept m)) as [H1|H1].
  2: { rewrite (bool_decide_eq_false_2 _ H1). simpl.
       rewrite decide_False; [done|]. by intros (? & ?). }
  rewrite (bool_decide_eq_true_2 _ H1). simpl.
  destruct (decide (size x = size m)) as [H2|H2].
  2: { rewrite (bool_decide_eq_false_2 _ H2). simpl.
       rewrite decide_False; [done|]. by intros (? & ? & ?). }
  rewrite (bool_decide_eq_true_2 _ H2). simpl.
  destruct (decide (start_idx x = start_idx m)) as [H3|H3].
  2: { rewrite (bool_decide_eq_false_2 _ H3). simpl.
       rewrite decide_False; [done|]. by intros (? & ? & ? & ?). }
  rewrite (bool_decide_eq_true_2 _ H3). simpl.
  destruct (duplicable (concept m)) eqn:Hd; simpl.
  - destruct (decide (depends_on_matches x = depends_on_matches m)) as [H4|H4].
    + rewrite (bool_decide_eq_true_2 _ H4). simpl. rewrite decide_True; [done|].
      by unfold equivalent.
    + rewrite (bool_decide_eq_false_2 _ H4). simpl. rewrite decide_False; [done|].
      intros (? & ? & ? & H). by apply H4, H.
  - rewrite decide_True; [done|]. unfold equivalent. by rewrite Hd.
Qed.

Lemma contains_match_loop_spec (l : list Match) (m : Match) :
  contains_match_loop l m = true ↔ ∃ saved, saved ∈ l ∧ equivalent saved m.
Proof.
  induction l as [|x l IH].
  - split; [done|]. intros (saved & H & _). by apply elem_of_nil in H.
  - rewrite contains_match_loop_cons. destruct (decide (equivalent x m)) as [He|He].
    + split; [|done]. intros _. exists x. split; [left|done].
    + rewrite IH. split.
      * intros (saved & ? & ?). exists saved. split; [by right|done].
      * intros (saved & [->|?]%elem_of_cons & ?); [done|]. by exists saved.
Qed.

Lemma contains_match_spec (e : DataElement) (m : Match) :
  contains_match e m = true ↔ ∃ saved, saved ∈ matches e ∧ equivalent saved m.
Proof. apply contains_match_loop_spec. Qed.

Lemma equivalent_refl (m : Match) : equivalent m m.
Proof. by unfold equivalent. Qed.

Lemma grown_refl (m : Match) (s : DataSequence) : grown m s s.
Proof.
  split_and!; [done|done|by left|]. intros k e Hk. exists e, [].
  by rewrite app_nil_r.
Qed.

Lemma grown_add_here (m : Match) (s : DataSequence) (k : nat) (e : DataElement) :
  elements s !! k = Some e → grown m s (add_here m k e s).
Proof.
  intros Hk. unfold grown, add_here. simpl. split_and!.
  - by rewrite length_insert.
  - done.
  - by right.
  - intros j e0 Hj. destruct (decide (k = j)) as [->|Hne].
    + rewrite list_lookup_insert_eq by (by eapply lookup_lt_Some).
      rewrite Hk in Hj. injection Hj as ->.
      eexists _, [m]. split_and!; [done|done|by repeat constructor].
    + rewrite list_lookup_insert_ne by done. exists e0, [].
      by rewrite app_nil_r.
Qed.

Lemma grown_trans (m : Match) (s1 s2 s3 : DataSequence) :
  grown m s1 s2 → grown m s2 s3 → grown m s1 s3.
Proof.
  intros (Hl1 & Hc1 & Hr1 & He1) (Hl2 & Hc2 & Hr2 & He2). split_and!.
  - congruence.
  - congruence.
  - destruct Hr2 as [-> | ->], Hr1 as [-> | ->]; auto.
    right. by rewrite insert_insert_eq.
  - intros k e Hk. destruct (He1 k e Hk) as (e' & l & Hk' & Hm' & Hf').
    destruct (He2 k e' Hk') as (e'' & l' & Hk'' & Hm'' & Hf'').
    exists e'', (l ++ l'). split_and!; [done| |by apply Forall_app].
    by rewrite Hm'', Hm', app_assoc.
Qed.

Lemma add_match_loop_grown (m : Match) (idxs : list Z) (b : bool) (s : DataSequence) :
  grown m s (add_match_loop m idxs b s).1.
Proof.
  apply (add_match_loop_inv m (grown m s)); [|apply grown_refl].
  intros s' k e Hg Hk _. eapply grown_trans; [done|]. by apply grown_add_here.
Qed.

Lemma grown_element_at (m : Match) (s s' : DataSequence) (i : Z) (k : nat)
    (e : DataElement) :
  grown m s s' → element_at s i = Some (k, e) →
  ∃ e' l, element_at s' i = Some (k, e') ∧ matches e' = matches e ++ l
          ∧ Forall (eq m) l.
Proof.
  intros (Hl & _ & _ & He) [Hi Hk]%element_at_Some.
  destruct (He k e Hk) as (e' & l & Hk' & Hm & Hf). exists e', l.
  split_and!; [|done|done]. apply element_at_Some. by rewrite Hl.
Qed.

Lemma grown_element_at_inv (m : Match) (s s' : DataSequence) (i : Z) (k : nat)
    (e' : DataElement) :
  grown m s s' → element_at s' i = Some (k, e') →
  ∃ e l, element_at s i = Some (k, e) ∧ matches e' = matches e ++ l
         ∧ Forall (eq m) l.
Proof.
  intros Hg [Hi Hk]%element_at_Some. pose proof Hg as (Hl & _ & _ & He).
  destruct (elements s !! k) as [e|] eqn:Hs.
  - destruct (He k e Hs) as (e'' & l & Hk' & Hm & Hf).
    rewrite Hk in Hk'. injection Hk' as <-. exists e, l.
    split_and!; [|done|done]. apply element_at_Some. by rewrite <- Hl.
  - apply lookup_ge_None in Hs. apply lookup_lt_Some in Hk. lia.
Qed.

Lemma contains_match_app (e e' : DataElement) (l : list Match) (m : Match) :
  matches e' = matches e ++ l → contains_match e m = true → contains_match e' m = true.
Proof.
  intros Hm (saved & Hs & Heq)%contains_match_spec. apply contains_match_spec.
  exists saved. split; [|done]. rewrite Hm. apply elem_of_app. by left.
Qed.

(** When the loop ends normally every position it went through holds a
    match equivalent to the one added. *)
Lemma add_match_loop_covers (m : Match) (idxs : list Z) (b r : bool)
    (s s' : DataSequence) :
  add_match_loop m idxs b s = (s', Ok r) →
  ∀ idx, idx ∈ idxs →
         ∃ k e, element_at s' (start_idx m + idx) = Some (k, e)
                ∧ contains_match e m = true.
Proof.
  revert b s. induction idxs as [|i rest IH]; intros b s Hrun idx Hidx.
  { by apply elem_of_nil in Hidx. }
  destruct (element_at s (start_idx m + i)) as [[k e]|] eqn:Hat.
  2: { by rewrite add_match_loop_out in Hrun. }
  destruct (contains_match e m) eqn:Hc.
  - rewrite (add_match_loop_old _ _ _ _ _ _ _ Hat Hc) in Hrun.
    apply elem_of_cons in Hidx as [-> |Hidx]; [|by eapply IH].
    pose proof (add_match_loop_grown m rest b s) as Hg. rewrite Hrun in Hg.
    destruct (grown_element_at _ _ _ _ _ _ Hg Hat) as (e' & l & Hat' & Hm & _).
    exists k, e'. split; [done|]. by eapply contains_match_app.
  - rewrite (add_match_loop_new _ _ _ _ _ _ _ Hat Hc) in Hrun.
    apply elem_of_cons in Hidx as [-> |Hidx]; [|by eapply IH].
    pose proof (add_match_loop_grown m rest true (add_here m k e s)) as Hg.
    rewrite Hrun in Hg. simpl in Hg.
    apply element_at_Some in Hat as [Hi Hk].
    assert (element_at (add_here m k e s) (start_idx m + i)
            = Some (k, set_matches (λ l, l ++ [m]) e)) as Hat1.
    { apply element_at_Some. unfold add_here. simpl. rewrite length_insert.
      split; [done|]. apply list_lookup_insert_eq. by eapply lookup_lt_Some. }
    destruct (grown_element_at _ _ _ _ _ _ Hg Hat1) as (e' & l & Hat' & Hm & _).
    exists k, e'. split; [done|]. eapply contains_match_app; [done|].
    apply contains_match_spec. exists m. split; [|apply equivalent_refl].
    simpl. apply elem_of_app. right. left.
Qed.

Lemma add_match_loop_all_old (m : Match) (idxs : list Z) (b : bool) (s : DataSequence) :
  (∀ idx, idx ∈ idxs →
          ∃ k e, element_at s (start_idx m + idx) = Some (k, e)
                 ∧ contains_match e m = true) →
  add_match_loop m idxs b s = (s, Ok b).
Proof.
  induction idxs as [|i rest IH]; intros H; [done|].
  destruct (H i) as (k & e & Hat & Hc); [left|].
  erewrite add_match_loop_old by done. apply IH. intros idx Hidx. apply H. by right.
Qed.

Lemma grown_stored (m m0 : Match) (s s' : DataSequence) (i : Z) (k : nat)
    (e : DataElement) :
  grown m s s' → element_at s i = Some (k, e) → m0 ∈ matches e →
  ∃ e', element_at s' i = Some (k, e') ∧ m0 ∈ matches e'.
Proof.
  intros Hg Hat Hm0. destruct (grown_element_at _ _ _ _ _ _ Hg Hat) as (e' & l & ? & Hm & _).
  exists e'. split; [done|]. rewrite Hm. apply elem_of_app. by left.
Qed.

Lemma grown_registered (m : Match) (s s' : DataSequence) :
  grown m s s' → match_by_id s !! id m = Some m → match_by_id s' !! id m = Some m.
Proof.
  intros (_ & _ & [-> | ->] & _) H; [done|]. apply lookup_insert_eq.
Qed.

(** When every position of the loop either holds no match equivalent to
    [m] or already holds [m] itself, the loop ends normally with [m]
    stored at each of them. *)
Lemma add_match_loop_fresh (m : Match) (idxs : list Z) (b : bool) (s : DataSequence) :
  (∀ idx, idx ∈ idxs →
          ∃ k e, element_at s (start_idx m + idx) = Some (k, e)
                 ∧ (contains_match e m = false
                    ∨ (m ∈ matches e ∧ b = true ∧ match_by_id s !! id m = Some m))) →
  ∃ s', add_match_loop m idxs b s = (s', Ok (b || bool_decide (idxs ≠ [])))
        ∧ grown m s s'
        ∧ (∀ idx, idx ∈ idxs →
                  ∃ k e, element_at s' (start_idx m + idx) = Some (k, e) ∧ m ∈ matches e)
        ∧ (idxs ≠ [] → match_by_id s' !! id m = Some m).
Proof.
  revert b s. induction idxs as [|i rest IH]; intros b s H.
  { exists s. simpl. rewrite orb_false_r. split_and!; [done|apply grown_refl| |done].
    intros idx Hidx. by apply elem_of_nil in Hidx. }
  destruct (H i) as (k & e & Hat & Hcase); [left|].
  destruct (contains_match e m) eqn:Hc.
  - destruct Hcase as [?|(Hm & -> & Hreg)]; [done|].
    erewrite add_match_loop_old by done.
    destruct (IH true s) as (s' & Hrun & Hg & Hall & _).
    { intros idx Hidx. apply H. by right. }
    exists s'. split_and!; [by rewrite Hrun|done| |].
    + intros idx [-> |Hidx]%elem_of_cons; [|by apply Hall].
      destruct (grown_stored _ _ _ _ _ _ _ Hg Hat Hm) as (e' & ? & ?). by exists k, e'.
    + intros _. by eapply grown_registered.
  - erewrite add_match_loop_new by done.
    pose proof Hat as [Hi Hk]%element_at_Some.
    assert (element_at (add_here m k e s) (start_idx m + i)
            = Some (k, set_matches (λ l, l ++ [m]) e)) as Hat1.
    { apply element_at_Some. unfold add_here. simpl. rewrite length_insert.
      split; [done|]. apply list_lookup_insert_eq. by eapply lookup_lt_Some. }
    assert (m ∈ matches (set_matches (λ l, l ++ [m]) e)) as Hin.
    { simpl. apply elem_of_app. right. left. }
    assert (match_by_id (add_here m k e s) !! id m = Some m) as Hreg.
    { unfold add_here. simpl. apply lookup_insert_eq. }
    destruct (IH true (add_here m k e s)) as (s' & Hrun & Hg & Hall & _).
    { intros idx Hidx. destruct (H idx) as (k' & e' & Hat' & Hcase'); [by right|].
      destruct (decide (k' = k)) as [-> |Hne].
      - exists k, (set_matches (λ l, l ++ [m]) e). split; [|by auto].
        apply element_at_Some. apply element_at_Some in Hat' as [Hi' _].
        apply element_at_Some in Hat1 as [_ Hk1]. split; [|done].
        unfold add_here. simpl. by rewrite length_insert.
      - exists k', e'. split.
        + apply element_at_Some. apply element_at_Some in Hat' as [Hi' Hk'].
          unfold add_here. simpl. rewrite length_insert. split; [done|].
          by rewrite list_lookup_insert_ne.
        + destruct Hcase' as [?|(? & _ & _)]; auto. }
    exists s'. split_and!.
    + rewrite Hrun. f_equal. f_equal. simpl. by rewrite orb_true_r.
    + eapply grown_trans; [by apply grown_add_here|done].
    + intros idx [-> |Hidx]%elem_of_cons; [|by apply Hall].
      destruct (grown_stored _ _ _ _ _ _ _ Hg Hat1 Hin) as (e' & ? & ?). by exists k, e'.
    + intros _. by eapply grown_registered.
Qed.

Lemma add_match_true (m : Match) (s s1 : DataSequence) :
  add_match m s = (s1, Ok true) →
  dependencies_present m s = true
  ∧ add_match_loop m (seqZ 0 (size m)) false (set_consolidated false s) = (s1, Ok true).
Proof.
  unfold add_match. destruct (dependencies_present m s); simpl; [|done].
  by intros H.
Qed.

Lemma set_consolidated_id (s : DataSequence) (b : bool) :
  consolidated s = b → set_consolidated b s = s.
Proof. intros <-. by destruct s. Qed.

(** C3. Let [m1] and [m2] have the same concept, start index and size,
    and let [add_match(m1)] have returned [True].
    - When the concept is not one of ['Sentence'], ['MakesSense'],
      [add_match(m2)] returns [False] and leaves the sequence exactly as
      it was (no position and no registry entry changes).
    - When it is one of them and the dependency list of [m2] differs from
      the one of [m1], [add_match(m2)] returns [True], stores [m2] at every
      position of the span and registers it, provided all the dependency
      ids of [m2] are ids of stored matches and no match stored in the
      span before [m1] was added is equivalent to [m2]. *)
Theorem add_match_same_span (s s1 : DataSequence) (m1 m2 : Match) :
  concept m2 = concept m1 → start_idx m2 = start_idx m1 → size m2 = size m1 →
  add_match m1 s = (s1, Ok true) →
  (duplicable (concept m1) = false → add_match m2 s1 = (s1, Ok false))
  ∧ (duplicable (concept m1) = true →
     depends_on_matches m2 ≠ depends_on_matches m1 →
     dependencies_present m2 s1 = true →
     (∀ idx k e saved, 0 ≤ idx < size m2 →
        element_at s (start_idx m2 + idx) = Some (k, e) → saved ∈ matches e →
        ¬ equivalent saved m2) →
     ∃ s2, add_match m2 s1 = (s2, Ok true)
           ∧ (∀ idx, 0 ≤ idx < size m2 →
                ∃ k e, element_at s2 (start_idx m2 + idx) = Some (k, e)
                       ∧ m2 ∈ matches e)
           ∧ match_by_id s2 !! id m2 = Some m2).
Proof.
  intros Hconcept Hstart Hsize [Hdeps Hloop]%add_match_true.
  pose proof (add_match_loop_covers _ _ _ _ _ _ Hloop) as Hcov.
  pose proof (add_match_loop_grown m1 (seqZ 0 (size m1)) false (set_consolidated false s))
    as Hg.
  rewrite Hloop in Hg. simpl in Hg.
  assert (consolidated s1 = false) as Hcons by apply Hg.
  split.
  - intros Hdup. unfold add_match.
    destruct (dependencies_present m2 s1); simpl; [|done].
    rewrite set_consolidated_id by done. apply add_match_loop_all_old.
    intros idx Hidx. rewrite Hsize in Hidx. rewrite Hstart.
    destruct (Hcov idx Hidx) as (k & e & Hat & (saved & Hin & Heq)%contains_match_spec).
    exists k, e. split; [done|]. apply contains_match_spec. exists saved.
    split; [done|]. unfold equivalent in *. rewrite Hconcept, Hstart, Hsize, Hdup.
    destruct Heq as (? & ? & ? & _). done.
  - intros Hdup Hne Hpresent Hfree. unfold add_match. rewrite Hpresent. simpl.
    rewrite set_consolidated_id by done.
    assert (size m1 ≠ 0 ∧ seqZ 0 (size m1) ≠ []) as [Hpos Hnonempty].
    { destruct (seqZ 0 (size m1)) as [|i rest] eqn:E; [|split; [|done]].
      - simpl in Hloop. by injection Hloop.
      - intros H0. by rewrite H0 in E. }
    destruct (add_match_loop_fresh m2 (seqZ 0 (size m2)) false s1)
      as (s2 & Hrun & _ & Hall & Hreg).
    { intros idx Hidx. pose proof Hidx as Hrange. apply elem_of_seqZ in Hrange.
      rewrite Hsize in Hidx. rewrite Hstart.
      destruct (Hcov idx Hidx) as (k & e1 & Hat1 & _). exists k, e1. split; [done|].
      left. apply not_true_is_false. intros (saved & Hin & Heq)%contains_match_spec.
      destruct (grown_element_at_inv _ _ _ _ _ _ Hg Hat1) as (e & l & Hat & Hm & Hl).
      rewrite Hm in Hin. apply elem_of_app in Hin as [Hin|Hin].
      - eapply (Hfree idx k e saved); [lia| |done|done].
        rewrite Hstart. apply element_at_Some in Hat as [Hi Hk].
        apply element_at_Some. done.
      - rewrite list.Forall_forall in Hl. specialize (Hl _ Hin). subst saved.
        destruct Heq as (_ & _ & _ & Hd). apply Hne. symmetry. apply Hd.
        by rewrite Hconcept. }
    exists s2. rewrite Hsize in *. rewrite bool_decide_eq_true_2 in Hrun by done.
    split_and!; [done| |by apply Hreg].
    intros idx Hidx. apply Hall. apply elem_of_seqZ. lia.
Qed.

(** ** The loops of [revoke_match] *)

Lemma not_survives (x : string) (m : Match) :
  ¬ survives x m ↔ (x ∉ depends_on_matches m) ∧ id m = x.
Proof.
  unfold survives. split.
  - intros H. split; [tauto|]. destruct (decide (id m = x)); tauto.
  - tauto.
Qed.

Lemma revoke_scan_spec (x : string) (ms : list Match) (to_revoke : list string)
    (to_remove : list Match) :
  revoke_scan x ms to_revoke to_remove
  = (to_revoke ++ (id <$> filter (λ m, x ∈ depends_on_matches m) ms),
     to_remove ++ filter (λ m, ¬ survives x m) ms).
Proof.
  revert to_revoke to_remove. induction ms as [|m ms IH]; intros tr rm; simpl.
  - by rewrite !filter_nil, !app_nil_r.
  - rewrite !filter_cons. case_bool_decide as Hdep.
    + rewrite IH, decide_True by done.
      rewrite decide_False by (unfold survives; tauto).
      simpl. by rewrite <- app_assoc.
    + rewrite decide_False by done. case_bool_decide as Hid; rewrite IH.
      * rewrite decide_True by (apply not_survives; done). by rewrite <- app_assoc.
      * rewrite decide_False; [done|]. rewrite not_survives. intros [_ ?]. done.
Qed.

Lemma py_list_remove_middle (pre l : list Match) (m : Match) :
  m ∉ pre → py_list_remove m (pre ++ m :: l) = Some (pre ++ l).
Proof.
  induction pre as [|y pre IH]; intros Hm; simpl.
  - by rewrite decide_True.
  - apply not_elem_of_cons in Hm as [Hne Hm].
    rewrite decide_False by done. by rewrite IH.
Qed.

Lemma revoke_remove_spec (x : string) (l pre : list Match) (reg : gmap string Match) :
  Forall (survives x) pre →
  revoke_remove (filter (λ m, ¬ survives x m) l) reg (pre ++ l)
  = Ok (if decide (Forall (survives x) l) then reg else delete x reg,
        pre ++ filter (survives x) l).
Proof.
  revert pre reg. induction l as [|m l IH]; intros pre reg Hpre.
  - rewrite decide_True by constructor. by rewrite !filter_nil.
  - rewrite !filter_cons. destruct (decide (survives x m)) as [Hs|Hs].
    + rewrite decide_False by tauto.
      replace (pre ++ m :: l) with ((pre ++ [m]) ++ l) by by rewrite <- app_assoc.
      rewrite IH by (apply list.Forall_app; split; [done|by constructor]).
      rewrite <- app_assoc. simpl. do 2 f_equal.
      apply decide_ext. rewrite list.Forall_cons. tauto.
    + rewrite decide_True by done. simpl.
      rewrite py_list_remove_middle.
      2: { intros Hin. rewrite list.Forall_forall in Hpre. by apply Hs, Hpre. }
      rewrite IH by done. apply not_survives in Hs as Hx. destruct Hx as [_ ->].
      do 2 f_equal. rewrite (decide_False (P := Forall _ (m :: l))).
      2: { rewrite list.Forall_cons. tauto. }
      destruct (decide (Forall (survives x) l)); [done|].
      apply delete_delete_eq.
Qed.

Lemma revoke_nodes_spec (x : string) (nodes : list DataElement)
    (reg : gmap string Match) (to_revoke : list string) :
  revoke_nodes x nodes reg to_revoke
  = Ok (set_matches (filter (survives x)) <$> nodes,
        (if decide (Forall (survives x) (concat (matches <$> nodes)))
         then reg else delete x reg),
        to_revoke
        ++ (id <$> filter (λ m, x ∈ depends_on_matches m) (concat (matches <$> nodes)))).
Proof.
  revert reg to_revoke. induction nodes as [|node nodes IH]; intros reg tr.
  - rewrite decide_True by constructor. simpl. by rewrite app_nil_r.
  - simpl. rewrite revoke_scan_spec. simpl.
    pose proof (revoke_remove_spec x (matches node) [] reg ltac:(constructor)) as Hrem.
    cbn [app] in Hrem. rewrite Hrem, IH. rewrite list.filter_app, fmap_app, app_assoc.
    do 3 f_equal.
    destruct (decide (Forall (survives x) (matches node))) as [H1|H1];
      destruct (decide (Forall (survives x) (concat (matches <$> nodes)))) as [H2|H2].
    + rewrite decide_True; [done|]. by apply list.Forall_app.
    + rewrite decide_False; [done|]. rewrite list.Forall_app. tauto.
    + rewrite decide_False; [done|]. rewrite list.Forall_app. tauto.
    + rewrite decide_False; [apply delete_delete_eq|]. rewrite list.Forall_app. tauto.
Qed.

Lemma revoke_match_unfold (fuel : nat) (x : string) (cascade : bool) (s : DataSequence) :
  revoke_match (S fuel) x cascade s
  = if cascade
    then for_each (λ y, revoke_match fuel y true) (dependants x s) (revoke_here x s)
    else (revoke_here x s, Ok tt).
Proof.
  simpl. rewrite revoke_nodes_spec. simpl. done.
Qed.

Lemma all_matches_revoke_here (x : string) (s : DataSequence) :
  all_matches (revoke_here x s) = filter (survives x) (all_matches s).
Proof.
  unfold all_matches, revoke_here. simpl.
  induction (elements s) as [|e es IH]; simpl; [done|].
  rewrite list.filter_app. f_equal. apply IH.
Qed.

Lemma for_each_cons {S A} (body : A → M S unit) (x : A) (l : list A) (s : S) :
  for_each body (x :: l) s
  = match body x s with
    | (s', Ok _) => for_each body l s'
    | (s', Raise e) => (s', Raise e)
    end.
Proof. done. Qed.

Lemma for_each_cons_Ok {S A} (body : A → M S unit) (x : A) (l : list A) (s s' : S) :
  for_each body (x :: l) s = (s', Ok tt) →
  ∃ s1, body x s = (s1, Ok tt) ∧ for_each body l s1 = (s', Ok tt).
Proof.
  rewrite for_each_cons. destruct (body x s) as [s1 [[]|e]]; [|done]. by exists s1.
Qed.

Lemma revoke_here_sublist (x : string) (s : DataSequence) :
  all_matches (revoke_here x s) `sublist_of` all_matches s.
Proof. rewrite all_matches_revoke_here. apply sublist_filter. Qed.

Lemma no_self_dependency_sublist (s s' : DataSequence) :
  all_matches s' `sublist_of` all_matches s →
  no_self_dependency s → no_self_dependency s'.
Proof. intros Hsub H m Hm. apply H. by eapply elem_of_sublist. Qed.

Lemma count_sublist (s s' : DataSequence) :
  all_matches s' `sublist_of` all_matches s → (count s' ≤ count s)%nat.
Proof. apply sublist_length. Qed.

Lemma count_revoke_here (x : string) (s : DataSequence) (m : Match) :
  no_self_dependency s → m ∈ all_matches s → id m = x →
  (count (revoke_here x s) < count s)%nat.
Proof.
  intros Hnsd Hm Hid. unfold count. rewrite all_matches_revoke_here.
  eapply length_filter_lt; [done|]. apply not_survives. split; [|done].
  rewrite <- Hid. by apply Hnsd.
Qed.

Lemma elem_of_dependants (x y : string) (s : DataSequence) :
  y ∈ dependants x s
  ↔ ∃ m, m ∈ all_matches s ∧ id m = y ∧ x ∈ depends_on_matches m.
Proof.
  unfold dependants. rewrite list_elem_of_fmap. split.
  - intros (m & -> & [? ?]%list_elem_of_filter). by exists m.
  - intros (m & ? & <- & ?). exists m. split; [done|]. by apply list_elem_of_filter.
Qed.

Lemma dependants_survive (x y : string) (s : DataSequence) :
  y ∈ dependants x s → ∃ m, m ∈ all_matches (revoke_here x s) ∧ id m = y.
Proof.
  intros (m & Hm & Hid & Hdep)%elem_of_dependants. exists m. split; [|done].
  rewrite all_matches_revoke_here. apply list_elem_of_filter. split; [by left|done].
Qed.

(** *** Termination of the cascade *)

Lemma revoke_match_terminates_aux (n : nat) :
  (∀ s x fuel,
     no_self_dependency s → (count s ≤ n)%nat →
     (∃ m, m ∈ all_matches s ∧ id m = x) → (2 * n ≤ fuel)%nat →
     ∃ s', revoke_match fuel x true s = (s', Ok tt)
           ∧ all_matches s' `sublist_of` all_matches s
           ∧ (count s' < count s)%nat)
  ∧ (∀ s x fuel,
       no_self_dependency s → (count s ≤ n)%nat → (2 * n < fuel)%nat →
       ∃ s', revoke_match fuel x true s = (s', Ok tt)
             ∧ all_matches s' `sublist_of` all_matches s).
Proof.
  induction n as [|n [IH1 IH2]].
  { split.
    - intros s x fuel _ Hc (m & Hm & _) _. unfold count in Hc.
      destruct (all_matches s); [by apply elem_of_nil in Hm|simpl in Hc; lia].
    - intros s x [|fuel] _ Hc Hf; [lia|]. rewrite revoke_match_unfold.
      assert (dependants x s = []) as ->.
      { unfold dependants, count in *.
        destruct (all_matches s); [done|simpl in Hc; lia]. }
      eexists. split; [done|]. apply revoke_here_sublist. }
  assert (∀ l s fuel,
            no_self_dependency s → (count s ≤ n)%nat → (2 * n < fuel)%nat →
            ∃ s', for_each (λ y, revoke_match fuel y true) l s = (s', Ok tt)
                  ∧ all_matches s' `sublist_of` all_matches s) as FE1.
  { intros l. induction l as [|y l IHl]; intros s fuel Hnsd Hc Hf.
    { exists s. done. }
    destruct (IH2 s y fuel Hnsd Hc Hf) as (s1 & Hrun & Hsub).
    destruct (IHl s1 fuel) as (s' & Hrun' & Hsub').
    { by eapply no_self_dependency_sublist. }
    { apply count_sublist in Hsub. lia. }
    { done. }
    exists s'. rewrite for_each_cons, Hrun. split; [done|]. by etrans. }
  assert (∀ s x fuel,
     no_self_dependency s → (count s ≤ S n)%nat →
     (∃ m, m ∈ all_matches s ∧ id m = x) → (2 * S n ≤ fuel)%nat →
     ∃ s', revoke_match fuel x true s = (s', Ok tt)
           ∧ all_matches s' `sublist_of` all_matches s
           ∧ (count s' < count s)%nat) as T1.
  { intros s x [|fuel] Hnsd Hc (m & Hm & Hid) Hf; [lia|].
    rewrite revoke_match_unfold.
    pose proof (count_revoke_here x s m Hnsd Hm Hid) as Hlt.
    destruct (FE1 (dependants x s) (revoke_here x s) fuel) as (s' & Hrun & Hsub).
    { eapply no_self_dependency_sublist; [apply revoke_here_sublist|done]. }
    { lia. }
    { lia. }
    exists s'. split_and!; [done| |].
    - etrans; [done|apply revoke_here_sublist].
    - apply count_sublist in Hsub. lia. }
  split; [done|].
  assert (∀ l s fuel,
            no_self_dependency s → (count s ≤ S n)%nat → (2 * S n ≤ fuel)%nat →
            ((count s ≤ n)%nat ∨ ∀ y, y ∈ l → ∃ m, m ∈ all_matches s ∧ id m = y) →
            ∃ s', for_each (λ y, revoke_match fuel y true) l s = (s', Ok tt)
                  ∧ all_matches s' `sublist_of` all_matches s) as FE2.
  { intros l. induction l as [|y l IHl]; intros s fuel Hnsd Hc Hf Hcase.
    { exists s. done. }
    assert (∃ s1, revoke_match fuel y true s = (s1, Ok tt)
                  ∧ all_matches s1 `sublist_of` all_matches s
                  ∧ (count s1 ≤ n)%nat) as (s1 & Hrun & Hsub & Hc1).
    { destruct Hcase as [Hsmall|Hids].
      - destruct (IH2 s y fuel Hnsd Hsmall) as (s1 & Hrun & Hsub); [lia|].
        exists s1. split_and!; [done..|]. apply count_sublist in Hsub. lia.
      - destruct (T1 s y fuel Hnsd Hc) as (s1 & Hrun & Hsub & Hlt); [|done|].
        { apply Hids. left. }
        exists s1. split_and!; [done..|]. lia. }
    destruct (IHl s1 fuel) as (s' & Hrun' & Hsub'); [..|by left|].
    { by eapply no_self_dependency_sublist. }
    { lia. }
    { done. }
    exists s'. rewrite for_each_cons, Hrun. split; [done|]. by etrans. }
  intros s x [|fuel] Hnsd Hc Hf; [lia|]. rewrite revoke_match_unfold.
  destruct (FE2 (dependants x s) (revoke_here x s) fuel) as (s' & Hrun & Hsub).
  { eapply no_self_dependency_sublist; [apply revoke_here_sublist|done]. }
  { pose proof (count_sublist _ _ (revoke_here_sublist x s)). lia. }
  { lia. }
  { right. intros y Hy. by apply dependants_survive. }
  exists s'. split; [done|]. etrans; [done|apply revoke_here_sublist].
Qed.

(** On a sequence in which no match depends on itself, a recursion depth
    of twice the number of stored matches plus one is enough. *)
Lemma revoke_match_terminates (s : DataSequence) (x : string) (cascade : bool)
    (fuel : nat) :
  no_self_dependency s → (2 * count s < fuel)%nat →
  ∃ s', revoke_match fuel x cascade s = (s', Ok tt).
Proof.
  intros Hnsd Hf. destruct cascade.
  - destruct (proj2 (revoke_match_terminates_aux (count s)) s x fuel)
      as (s' & Hrun & _); [done|lia|done|]. by exists s'.
  - destruct fuel as [|fuel]; [lia|]. rewrite revoke_match_unfold. by eexists.
Qed.

(** *** What the cascade removes *)

Lemma shrunk_refl (s : DataSequence) : shrunk s s.
Proof. by split. Qed.

Lemma shrunk_trans (s1 s2 s3 : DataSequence) :
  shrunk s1 s2 → shrunk s2 s3 → shrunk s1 s3.
Proof. intros [H1 R1] [H2 R2]. split; [by etrans|auto]. Qed.

Lemma shrunk_revoke_here (x : string) (s : DataSequence) : shrunk s (revoke_here x s).
Proof.
  split; [apply revoke_here_sublist|]. intros y Hy. unfold revoke_here. simpl.
  case_decide; [done|]. apply lookup_delete_None. by right.
Qed.

Lemma closed_under_trans (s1 s2 s3 : DataSequence) :
  shrunk s2 s3 → closed_under s1 s2 → closed_under s2 s3 → closed_under s1 s3.
Proof.
  intros [Hsub Hreg] H12 H23 m Hm Hgone.
  destruct (decide (m ∈ all_matches s2)) as [Hin|Hout]; [by apply H23|].
  destruct (H12 m Hm Hout) as [Hr Hd]. split; [by apply Hreg|].
  intros m' Hm'. apply Hd. by eapply elem_of_sublist.
Qed.

Lemma revoke_cascade_spec (fuel : nat) (x : string) (s s' : DataSequence) :
  no_self_dependency s →
  revoke_match fuel x true s = (s', Ok tt) →
  shrunk s s' ∧ closed_under s s'
  ∧ ∀ m, m ∈ all_matches s' → id m ≠ x ∧ x ∉ depends_on_matches m.
Proof.
  revert x s s'. induction fuel as [|fuel IH]; intros x s s' Hnsd Hrun; [done|].
  assert (∀ l s s',
            no_self_dependency s →
            for_each (λ y, revoke_match fuel y true) l s = (s', Ok tt) →
            shrunk s s' ∧ closed_under s s'
            ∧ ∀ y, y ∈ l → ∀ m, m ∈ all_matches s' →
                   id m ≠ y ∧ y ∉ depends_on_matches m) as FE.
  { clear x s s' Hnsd Hrun. intros l. induction l as [|y l IHl]; intros s s' Hnsd Hrun.
    - injection Hrun as <-. split_and!; [apply shrunk_refl| |].
      + by intros m Hm Hn.
      + intros y Hy. by apply elem_of_nil in Hy.
    - apply for_each_cons_Ok in Hrun as (s1 & Hrun1 & Hrun2).
      destruct (IH y s s1 Hnsd Hrun1) as (Hs1 & Hc1 & Hy1).
      assert (no_self_dependency s1) as Hnsd1.
      { eapply no_self_dependency_sublist; [apply Hs1|done]. }
      destruct (IHl s1 s' Hnsd1 Hrun2) as (Hs2 & Hc2 & Hl2).
      split_and!; [by eapply shrunk_trans|by eapply closed_under_trans|].
      intros y' [-> |Hy']%elem_of_cons m Hm; [|by apply Hl2].
      apply Hy1. eapply elem_of_sublist; [done|apply Hs2]. }
  rewrite revoke_match_unfold in Hrun.
  assert (no_self_dependency (revoke_here x s)) as Hnsd1.
  { eapply no_self_dependency_sublist; [apply revoke_here_sublist|done]. }
  destruct (FE _ _ _ Hnsd1 Hrun) as (Hs & Hc & Hl).
  assert (∀ m, m ∈ all_matches s' → id m ≠ x ∧ x ∉ depends_on_matches m) as Hx.
  { intros m Hm.
    assert (m ∈ all_matches (revoke_here x s)) as Hm1.
    { eapply elem_of_sublist; [done|apply Hs]. }
    assert (m ∈ all_matches s) as Hm0.
    { eapply elem_of_sublist; [done|apply revoke_here_sublist]. }
    assert (x ∉ depends_on_matches m) as Hdep.
    { intros Hdep. destruct (Hl (id m)) with (m := m) as [Hne _]; [|done..].
      apply elem_of_dependants. by exists m. }
    split; [|done]. rewrite all_matches_revoke_here in Hm1.
    apply list_elem_of_filter in Hm1 as [[?|?] _]; done. }
  split_and!; [|  |done].
  - eapply shrunk_trans; [apply shrunk_revoke_here|done].
  - intros m Hm Hgone.
    destruct (decide (m ∈ all_matches (revoke_here x s))) as [Hin|Hout]; [by apply Hc|].
    rewrite all_matches_revoke_here, list_elem_of_filter in Hout.
    assert (¬ survives x m) as Hns by tauto.
    pose proof Hns as [_ Hid]%not_survives. split.
    + apply Hs. unfold revoke_here. simpl. rewrite decide_False.
      * rewrite Hid. apply lookup_delete_eq.
      * rewrite list.Forall_forall. intros Hall. by apply Hns, Hall.
    + intros m' Hm'. rewrite Hid. by apply Hx.
Qed.

Lemma reaches_removed (s s' : DataSequence) (x : string) (m : Match) :
  closed_under s s' → (∀ m, m ∈ all_matches s' → id m ≠ x) →
  reaches s x m → (m ∉ all_matches s') ∧ match_by_id s' !! id m = None.
Proof.
  intros Hc Hx Hr.
  assert (m ∈ all_matches s) as Hm by by destruct Hr.
  assert (m ∉ all_matches s') as Hgone; [|split; [done|by apply Hc]].
  induction Hr as [m Hin Hid|m m' Hin Hdep Hr IH].
  - intros Hm'. by apply (Hx m).
  - intros Hm'. assert (m' ∈ all_matches s) as Hin' by by destruct Hr.
    destruct (Hc m' Hin' (IH Hin')) as [_ Hd]. by apply (Hd m).
Qed.

(** *** Without the cascade *)

Lemma filter_ext_elem_of {A} (P Q : A → Prop) `{!∀ x, Decision (P x)}
    `{!∀ x, Decision (Q x)} (l : list A) :
  (∀ x, x ∈ l → P x ↔ Q x) → filter P l = filter Q l.
Proof.
  induction l as [|a l IH]; intros Hext; [done|].
  rewrite !filter_cons. rewrite IH by (intros x Hx; apply Hext; by right).
  apply decide_ext, Hext. left.
Qed.

Lemma revoke_here_elements (x : string) (s : DataSequence) :
  no_self_dependency s →
  elements (revoke_here x s)
  = set_matches (filter (λ m, id m ≠ x)) <$> elements s.
Proof.
  intros Hnsd. unfold revoke_here. simpl. apply list_fmap_ext. intros k e Hk.
  unfold set_matches. f_equal. apply filter_ext_elem_of. intros m Hm.
  assert (id m ∉ depends_on_matches m) as Hself.
  { apply Hnsd, elem_of_all_matches. exists e. split; [|done].
    by eapply list_elem_of_lookup_2. }
  unfold survives. split; [|tauto]. intros [Hdep|?]; [|done]. intros <-. done.
Qed.

Lemma revoke_here_registry (x : string) (s : DataSequence) (m : Match) :
  no_self_dependency s → m ∈ all_matches s → id m = x →
  match_by_id (revoke_here x s) = delete x (match_by_id s).
Proof.
  intros Hnsd Hm Hid. unfold revoke_here. simpl. rewrite decide_False; [done|].
  rewrite list.Forall_forall. intros Hall. destruct (Hall m Hm) as [Hdep|?]; [|done].
  apply (Hnsd m Hm). by rewrite Hid.
Qed.

(** C2, on sequences in which no stored match names its own id among its
    dependencies.  Let [A] and [B] be stored and let [B] list the id of
    [A].
    - [revoke_match(A.id, cascade=True)] returns, and afterwards [A], [B]
      and every match from which a chain of dependencies leads to a match
      with the id of [A] is at no position and its id is no key of the
      registry.
    - [revoke_match(A.id, cascade=False)] returns; every position keeps,
      in order, exactly its matches whose id is not the id of [A] (so only
      [A] goes when no other match carries its id), the registry loses the
      key of [A] and nothing else, and [B] stays where it was, its
      dependency list still naming the id that is now neither stored nor
      registered. *)
Theorem revoke_match_spec (s : DataSequence) (A B : Match) (fuel : nat) :
  no_self_dependency s →
  A ∈ all_matches s → B ∈ all_matches s → id A ∈ depends_on_matches B →
  (2 * count s < fuel)%nat →
  (∃ s', revoke_match fuel (id A) true s = (s', Ok tt)
         ∧ (∀ m, reaches s (id A) m →
                 (m ∉ all_matches s') ∧ match_by_id s' !! id m = None)
         ∧ (A ∉ all_matches s') ∧ match_by_id s' !! id A = None
         ∧ (B ∉ all_matches s') ∧ match_by_id s' !! id B = None)
  ∧ (∃ s'', revoke_match fuel (id A) false s = (s'', Ok tt)
            ∧ elements s'' = set_matches (filter (λ m, id m ≠ id A)) <$> elements s
            ∧ match_by_id s'' = delete (id A) (match_by_id s)
            ∧ (A ∉ all_matches s'')
            ∧ (id A ∉ get_all_match_ids s'')
            ∧ (∀ k e, elements s !! k = Some e → B ∈ matches e →
                      ∃ e', elements s'' !! k = Some e' ∧ B ∈ matches e')
            ∧ match_by_id s'' !! id B = match_by_id s !! id B
            ∧ ((∀ m, m ∈ all_matches s → id m = id A → m = A) →
               ∀ k e m, elements s !! k = Some e → m ∈ matches e → m ≠ A →
                        ∃ e', elements s'' !! k = Some e' ∧ m ∈ matches e')).
Proof.
  intros Hnsd HA HB Hdep Hfuel. split.
  - destruct (revoke_match_terminates s (id A) true fuel Hnsd Hfuel) as [s' Hrun].
    exists s'. split; [done|].
    destruct (revoke_cascade_spec _ _ _ _ Hnsd Hrun) as (Hs & Hc & Hx).
    assert (∀ m, reaches s (id A) m →
                 (m ∉ all_matches s') ∧ match_by_id s' !! id m = None) as Hreach.
    { intros m. apply reaches_removed; [done|]. intros m' Hm'. by apply Hx. }
    assert (reaches s (id A) A) as HrA by by apply reaches_here.
    assert (reaches s (id A) B) as HrB by by eapply reaches_step.
    destruct (Hreach A HrA), (Hreach B HrB). done.
  - destruct fuel as [|fuel]; [lia|]. rewrite revoke_match_unfold.
    exists (revoke_here (id A) s).
    assert (id B ≠ id A) as Hne.
    { intros Heq. apply (Hnsd B HB). by rewrite Heq. }
    assert (∀ k e m, elements s !! k = Some e → m ∈ matches e → id m ≠ id A →
              ∃ e', elements (revoke_here (id A) s) !! k = Some e' ∧ m ∈ matches e')
      as Hkeep.
    { intros k e m Hk Hm Hid. rewrite revoke_here_elements by done.
      rewrite list_lookup_fmap, Hk. simpl. eexists. split; [done|]. simpl.
      by apply list_elem_of_filter. }
    assert (∀ m, m ∈ all_matches (revoke_here (id A) s) → id m ≠ id A) as Hgone.
    { intros m. rewrite all_matches_revoke_here. intros [Hs Hm]%list_elem_of_filter.
      destruct Hs as [Hd|?]; [|done]. intros Heq. apply (Hnsd m Hm). by rewrite Heq. }
    split_and!; [done|by apply revoke_here_elements
                |by apply (revoke_here_registry _ _ A)| | | | |].
    + intros Hin. by apply (Hgone A).
    + intros (m & Hm & Hid)%elem_of_get_all_match_ids. by apply (Hgone m).
    + intros k e Hk Hm. by eapply Hkeep.
    + rewrite (revoke_here_registry _ _ A) by done. by apply lookup_delete_ne.
    + intros Huniq k e m Hk Hm HmA. eapply Hkeep; [done..|].
      intros Hid. apply HmA, Huniq; [|done]. apply elem_of_all_matches.
      exists e. split; [|done]. by eapply list_elem_of_lookup_2.
Qed.

(** ** Registry and positions *)

Lemma post_init_loop (es : list DataElement) (s : DataSequence) :
  let s' := foldl (λ s e, foldl (λ s m, set_match_by_id <[id m := m]> s) s (matches e))
                  s es in
  elements s' = elements s
  ∧ ∀ x, x ∈ dom (match_by_id s')
         ↔ x ∈ dom (match_by_id s) ∨ ∃ m, m ∈ concat (matches <$> es) ∧ id m = x.
Proof.
  revert s. induction es as [|e es IH]; intros s; simpl.
  { split; [done|]. intros x. split; [auto|]. intros [?|(m & Hm & _)]; [done|].
    by apply elem_of_nil in Hm. }
  assert (∀ ms s0,
            let s1 := foldl (λ s m, set_match_by_id <[id m := m]> s) s0 ms in
            elements s1 = elements s0
            ∧ ∀ x, x ∈ dom (match_by_id s1)
                   ↔ x ∈ dom (match_by_id s0) ∨ ∃ m, m ∈ ms ∧ id m = x) as Hinner.
  { intros ms. induction ms as [|m ms IHms]; intros s0; simpl.
    { split; [done|]. intros x. split; [auto|]. intros [?|(m & Hm & _)]; [done|].
      by apply elem_of_nil in Hm. }
    destruct (IHms (set_match_by_id <[id m := m]> s0)) as [He Hd]. split; [done|].
    intros x. rewrite Hd. simpl. rewrite dom_insert_L, elem_of_union, elem_of_singleton.
    split.
    - intros [[-> |?]|(m' & ? & ?)]; [right; exists m; split; [left|done]|by left|].
      right. exists m'. split; [by right|done].
    - intros [?|(m' & [-> |?]%elem_of_cons & ?)]; [by left; right|by left; left|].
      right. by exists m'. }
  destruct (Hinner (matches e) s) as [He1 Hd1].
  destruct (IH (foldl (λ s m, set_match_by_id <[id m := m]> s) s (matches e)))
    as [He2 Hd2].
  split; [congruence|]. intros x. rewrite Hd2, Hd1. setoid_rewrite elem_of_app. split.
  - intros [[?|(m & ? & ?)]|(m & ? & ?)]; [by left|right; exists m; auto..].
  - intros [?|(m & [?|?] & ?)]; [by left; left|left; right; by exists m|].
    right. by exists m.
Qed.

Lemma from_string_consistent (text : string) (ids : nat → string) :
  consistent (from_string text ids) ∧ no_self_dependency (from_string text ids).
Proof.
  unfold from_string, post_init.
  match goal with |- context [foldl _ ?s0 (elements ?s0)] =>
    destruct (post_init_loop (elements s0) s0) as [He Hd]; revert He Hd;
    generalize (foldl (λ s e, foldl (λ s m, set_match_by_id <[id m := m]> s) s (matches e))
                      s0 (elements s0)) end.
  simpl. intros s He Hd. split.
  - unfold consistent. apply set_eq. intros x.
    rewrite Hd, elem_of_get_all_match_ids. unfold all_matches. rewrite He.
    rewrite dom_empty_L. split; [|auto].
    intros [H|?]; [by apply not_elem_of_empty in H|done].
  - intros m (e & Hin & Hm)%elem_of_all_matches. rewrite He in Hin.
    apply elem_of_lookup_imap_1 in Hin as (i & ch & -> & _). simpl in Hm.
    apply list_elem_of_singleton in Hm as ->. simpl. apply not_elem_of_nil.
Qed.

Lemma all_matches_add_here (m : Match) (k : nat) (e : DataElement) (s : DataSequence)
    (m' : Match) :
  elements s !! k = Some e →
  m' ∈ all_matches (add_here m k e s) ↔ m' ∈ all_matches s ∨ m' = m.
Proof.
  intros Hk. rewrite !elem_of_all_matches. unfold add_here. simpl. split.
  - intros (e' & [j Hj]%list_elem_of_lookup & Hm').
    apply list_lookup_insert_Some in Hj as [(-> & <- & _)|[_ Hj]].
    + simpl in Hm'. apply elem_of_app in Hm' as [?|Hm'].
      * left. exists e. split; [by eapply list_elem_of_lookup_2|done].
      * right. by apply list_elem_of_singleton in Hm'.
    + left. exists e'. split; [by eapply list_elem_of_lookup_2|done].
  - intros [(e' & [j Hj]%list_elem_of_lookup & Hm')| ->].
    + destruct (decide (k = j)) as [-> |Hne].
      * rewrite Hk in Hj. injection Hj as <-.
        exists (set_matches (λ l, l ++ [m]) e). split.
        -- apply list_elem_of_insert. by eapply lookup_lt_Some.
        -- simpl. apply elem_of_app. by left.
      * exists e'. split; [|done]. apply list_elem_of_lookup. exists j.
        by rewrite list_lookup_insert_ne.
    + exists (set_matches (λ l, l ++ [m]) e). split.
      * apply list_elem_of_insert. by eapply lookup_lt_Some.
      * simpl. apply elem_of_app. right. left.
Qed.

Lemma add_here_consistent (m : Match) (k : nat) (e : DataElement) (s : DataSequence) :
  elements s !! k = Some e → not_self_dependent m →
  consistent s ∧ no_self_dependency s →
  consistent (add_here m k e s) ∧ no_self_dependency (add_here m k e s).
Proof.
  intros Hk Hm [Hc Hnsd]. split.
  - unfold consistent in *. apply set_eq. intros x.
    rewrite elem_of_get_all_match_ids. unfold add_here at 1. simpl.
    rewrite dom_insert_L, elem_of_union, elem_of_singleton, Hc,
      elem_of_get_all_match_ids.
    split.
    + intros [-> |(m' & Hm' & <-)].
      * exists m. split; [|done]. apply all_matches_add_here; auto.
      * exists m'. split; [|done]. apply all_matches_add_here; auto.
    + intros (m' & [Hm'| ->]%all_matches_add_here & <-); [|auto|done].
      right. by exists m'.
  - intros m' [Hm'| ->]%all_matches_add_here; [by apply Hnsd|done|done].
Qed.

Lemma add_match_consistent (m : Match) (s : DataSequence) :
  not_self_dependent m →
  consistent s ∧ no_self_dependency s →
  consistent (add_match m s).1 ∧ no_self_dependency (add_match m s).1.
Proof.
  intros Hm Hs. unfold add_match. destruct (dependencies_present m s); simpl; [|done].
  apply (add_match_loop_inv m (λ s, consistent s ∧ no_self_dependency s)); [|done].
  intros s' k e Hs' Hk _. by apply add_here_consistent.
Qed.

Lemma revoke_here_consistent (x : string) (s : DataSequence) :
  consistent s ∧ no_self_dependency s →
  consistent (revoke_here x s) ∧ no_self_dependency (revoke_here x s).
Proof.
  intros [Hc Hnsd]. split.
  2: { eapply no_self_dependency_sublist; [apply revoke_here_sublist|done]. }
  unfold consistent in *. apply set_eq. intros y.
  rewrite elem_of_get_all_match_ids, all_matches_revoke_here.
  assert (y ∈ dom (match_by_id s) ↔ ∃ m, m ∈ all_matches s ∧ id m = y) as Hy.
  { by rewrite Hc, elem_of_get_all_match_ids. }
  assert (∀ m, m ∈ all_matches s → survives x m ↔ id m ≠ x) as Hsurv.
  { intros m Hm. unfold survives. split; [|tauto]. intros [Hdep|?]; [|done].
    intros <-. by apply (Hnsd m). }
  unfold revoke_here. simpl. case_decide as Hall.
  - rewrite Hy. rewrite list.Forall_forall in Hall. split.
    + intros (m & Hm & <-). exists m. split; [|done]. apply list_elem_of_filter. auto.
    + intros (m & [_ Hm]%list_elem_of_filter & <-). by exists m.
  - rewrite dom_delete_L, elem_of_difference, elem_of_singleton, Hy. split.
    + intros [(m & Hm & <-) Hne]. exists m. split; [|done].
      apply list_elem_of_filter. split; [|done]. by apply Hsurv.
    + intros (m & [Hs Hm]%list_elem_of_filter & <-). split; [by exists m|].
      by apply Hsurv.
Qed.

Lemma for_each_inv {S A} (P : S → Prop) (body : A → M S unit) (l : list A) (s : S) :
  (∀ x s, P s → P (body x s).1) → P s → P (for_each body l s).1.
Proof.
  intros Hbody. revert s. induction l as [|x l IH]; intros s Hs; [done|].
  rewrite for_each_cons. specialize (Hbody x s Hs).
  destruct (body x s) as [s1 [[]|err]]; [by apply IH|done].
Qed.

Lemma revoke_match_consistent (fuel : nat) (x : string) (cascade : bool)
    (s : DataSequence) :
  consistent s ∧ no_self_dependency s →
  consistent (revoke_match fuel x cascade s).1
  ∧ no_self_dependency (revoke_match fuel x cascade s).1.
Proof.
  revert x cascade s. induction fuel as [|fuel IH]; intros x cascade s Hs; [done|].
  rewrite revoke_match_unfold. apply (revoke_here_consistent x) in Hs.
  destruct cascade; [|done].
  apply (for_each_inv (λ s, consistent s ∧ no_self_dependency s)); [|done].
  intros y s' Hs'. by apply IH.
Qed.

(** C10, for calls of [add_match] with matches that do not name their own
    id among their dependencies and calls of [revoke_match] that return.
    On every sequence built by [from_string] and changed by such calls
    in any order, the keys of the registry are exactly the ids of the
    matches stored at the positions; no stored match names its own id, and
    so [revoke_match] returns on it, with or without cascade, once the
    recursion depth allowed exceeds twice the number of stored matches. *)
Theorem registry_matches_positions (s : DataSequence) :
  reachable not_self_dependent s →
  dom (match_by_id s) = get_all_match_ids s
  ∧ no_self_dependency s
  ∧ ∀ x cascade fuel, (2 * count s < fuel)%nat →
      ∃ s', revoke_match fuel x cascade s = (s', Ok tt).
Proof.
  intros Hr.
  assert (consistent s ∧ no_self_dependency s) as [Hc Hnsd].
  { induction Hr as [text ids|s m Hr IH Hm|s fuel x cascade s' Hr IH Hrun].
    - apply from_string_consistent.
    - by apply add_match_consistent.
    - pose proof (revoke_match_consistent fuel x cascade s IH) as H.
      by rewrite Hrun in H. }
  split_and!; [done|done|]. intros x cascade fuel Hf.
  by apply revoke_match_terminates.
Qed.

(** ** Looking up dependants *)

Lemma find_dependant_loop (x : string) (es : list DataElement) (acc : list string) :
  foldl (λ result element,
           foldl (λ result m,
                    if bool_decide (x ∈ depends_on_matches m)
                    then result ++ [id m] else result)
                 result (matches element))
        acc es
  = acc ++ (id <$> filter (λ m, x ∈ depends_on_matches m) (concat (matches <$> es))).
Proof.
  revert acc. induction es as [|e es IH]; intros acc; simpl.
  { by rewrite app_nil_r. }
  rewrite IH, list.filter_app, fmap_app, app_assoc. f_equal.
  generalize (matches e). clear. intros ms. revert acc.
  induction ms as [|m ms IH]; intros acc; simpl; [by rewrite app_nil_r|].
  rewrite filter_cons. case_bool_decide.
  - rewrite IH, decide_True by done. by rewrite <- app_assoc.
  - rewrite IH, decide_False by done. done.
Qed.

(** [find_dependant_matches] returns, sorted and without repetition, the
    ids of the stored matches whose dependency list contains the id. *)
Lemma find_dependant_matches_spec (x : string) (s : DataSequence) :
  Sorted (λ a b, String.leb a b = true) (find_dependant_matches x s)
  ∧ NoDup (find_dependant_matches x s)
  ∧ ∀ y, y ∈ find_dependant_matches x s
         ↔ ∃ m, m ∈ all_matches s ∧ id m = y ∧ x ∈ depends_on_matches m.
Proof.
  unfold find_dependant_matches, py_sorted. rewrite find_dependant_loop. simpl.
  fold (all_matches s). fold (dependants x s).
  set (l := base.elements (list_to_set (dependants x s) : gset string)).
  pose proof (StringSort.Permuted_sort l) as Hperm.
  split_and!.
  - apply StringSort.Sorted_sort.
  - rewrite <- Hperm. apply NoDup_elements.
  - intros y. rewrite <- Hperm. unfold l.
    by rewrite elem_of_elements, elem_of_list_to_set, elem_of_dependants.
Qed.

(** [get_dependant_matches] returns (the empty set) only when no stored
    match depends on the id; otherwise it raises [AttributeError]. *)
Lemma get_dependant_matches_spec (x : string) (s : DataSequence) :
  (dependants x s = [] → get_dependant_matches x s = Ok ∅)
  ∧ (dependants x s ≠ [] → get_dependant_matches x s = Raise AttributeError).
Proof.
  unfold get_dependant_matches, dependants, all_matches. generalize (∅ : gset string).
  induction (elements s) as [|e es IH]; intros deps; simpl; [done|].
  rewrite list.filter_app, fmap_app.
  assert (∀ ms deps,
    (filter (λ m, x ∈ depends_on_matches m) ms = [] →
       get_dependant_loop x ms deps = Ok deps)
    ∧ (filter (λ m, x ∈ depends_on_matches m) ms ≠ [] →
       get_dependant_loop x ms deps = Raise AttributeError)) as Hloop.
  { clear. intros ms deps. induction ms as [|m ms IH]; simpl; [done|].
    rewrite filter_cons. case_bool_decide.
    - rewrite decide_True by done. done.
    - rewrite decide_False by done. done. }
  destruct (Hloop (matches e) deps) as [H1 H2].
  destruct (filter (λ m, x ∈ depends_on_matches m) (matches e)) as [|m l] eqn:E.
  - rewrite H1 by done. apply IH.
  - rewrite H2 by done. done.
Qed.

(** C9, at a sequence where a match depends on another.  In [seq_ab] with
    the pair (which depends on the first character) and the word added,
    [find_dependant_matches("c0")] returns the id of the pair, and
    [get_dependant_matches("c0")] raises [AttributeError] instead of
    returning that set; for an id on which nothing depends it returns the
    empty set. *)
Theorem get_dependant_matches_raises :
  find_dependant_matches "c0" seq_pair_word = ["p"]
  ∧ get_dependant_matches "c0" seq_pair_word = Raise AttributeError
  ∧ get_dependant_matches "w" seq_pair_word = Ok ∅.
Proof. split_and!; by vm_compute. Qed.

(** ** Dropping matches by concept *)

Lemma shares_parent_spec (h : HierarchyProvider) (c : string) (concepts : list string) :
  shares_parent h c concepts = true ↔ ∃ p, p ∈ get_parents h c ∧ p ∈ concepts.
Proof.
  unfold shares_parent, py_bool. rewrite negb_true_iff, bool_decide_eq_false. split.
  - intros Hne.
    destruct (decide (Exists (λ p, p ∈ concepts) (get_parents h c))) as [Hex|Hno].
    + apply list.Exists_exists in Hex as (p & ? & ?). by exists p.
    + destruct Hne. apply set_eq. intros p.
      rewrite elem_of_intersection, !elem_of_list_to_set. split.
      * intros [? ?]. destruct Hno. apply list.Exists_exists. by exists p.
      * intros Hp. by apply not_elem_of_empty in Hp.
  - intros (p & H1 & H2) Heq.
    assert (p ∈ (∅ : gset string)) as Hp; [|by apply not_elem_of_empty in Hp].
    rewrite <- Heq. by rewrite elem_of_intersection, !elem_of_list_to_set.
Qed.

Lemma drop_select_spec (concepts : list string) (hierarchy : option HierarchyProvider)
    (idx : nat) (acc : gset string) (m : Match) :
  drop_select concepts hierarchy idx acc m
  = if decide (dropped concepts hierarchy idx m) then acc ∪ {[ id m ]} else acc.
Proof.
  unfold drop_select, dropped. case_bool_decide as Hs; simpl.
  2: { rewrite decide_False; [done|]. by intros [? _]. }
  case_bool_decide as Hc.
  { rewrite decide_True; [done|]. auto. }
  destruct hierarchy as [h|].
  - destruct (shares_parent h (concept m) concepts) eqn:E.
    + apply shares_parent_spec in E as (p & ? & ?). rewrite decide_True; [done|].
      split; [done|]. right. by exists h, p.
    + rewrite decide_False; [done|]. intros [_ [?|(h' & p & [= <-] & ? & ?)]]; [done|].
      assert (shares_parent h (concept m) concepts = true) as E'.
      { apply shares_parent_spec. by exists p. }
      congruence.
  - rewrite decide_False; [done|]. intros [_ [?|(h' & p & ? & _)]]; done.
Qed.

(** The ids [drop_matches] revokes are the ids of the matches stored at
    the position where they start whose concept is listed or has a listed
    ancestor. *)
Lemma drop_matches_selection (concepts : list string)
    (hierarchy : option HierarchyProvider) (s : DataSequence) (x : string) :
  x ∈ select_matches (drop_select concepts hierarchy) s
  ↔ ∃ k e m, elements s !! k = Some e ∧ m ∈ matches e ∧ id m = x
             ∧ dropped concepts hierarchy k m.
Proof.
  unfold select_matches.
  assert (∀ (l : list (nat * DataElement)) (acc : gset string),
    x ∈ foldl (λ acc ie, foldl (drop_select concepts hierarchy ie.1) acc (matches ie.2))
              acc l
    ↔ x ∈ acc ∨ ∃ k e m, (k, e) ∈ l ∧ m ∈ matches e ∧ id m = x
                          ∧ dropped concepts hierarchy k m) as Hfold.
  { intros l. induction l as [|[k e] l IH]; intros acc; simpl.
    { split; [auto|]. intros [?|(k & e & m & H & _)]; [done|].
      by apply elem_of_nil in H. }
    assert (∀ ms acc,
      x ∈ foldl (drop_select concepts hierarchy k) acc ms
      ↔ x ∈ acc ∨ ∃ m, m ∈ ms ∧ id m = x ∧ dropped concepts hierarchy k m) as Hin.
    { clear. intros ms. induction ms as [|m ms IH]; intros acc; simpl.
      { split; [auto|]. intros [?|(m & H & _)]; [done|]. by apply elem_of_nil in H. }
      rewrite IH, drop_select_spec. case_decide as Hd.
      - rewrite elem_of_union, elem_of_singleton. split.
        + intros [[?| ->]|(m' & ? & ? & ?)]; [by left|right; exists m|right; exists m'];
            (split; [|done]); [left|by right].
        + intros [?|(m' & [-> |?]%elem_of_cons & ? & ?)]; [by left; left|by left; right|].
          right. by exists m'.
      - split.
        + intros [?|(m' & ? & ? & ?)]; [by left|]. right. exists m'. split; [by right|done].
        + intros [?|(m' & [-> |?]%elem_of_cons & ? & ?)]; [by left|done|].
          right. by exists m'. }
    rewrite IH, Hin. split.
    - intros [[?|(m & ? & ? & ?)]|(k' & e' & m & ? & ?)]; [by left|right..].
      + exists k, e, m. split; [left|done].
      + exists k', e', m. split; [by right|done].
    - intros [?|(k' & e' & m & [[= -> ->]|?]%elem_of_cons & ?)]; [by left; left| |].
      + left. right. by exists m.
      + right. by exists k', e', m. }
  rewrite Hfold. split.
  - intros [H|(k & e & m & Hin & ?)]; [by apply not_elem_of_empty in H|].
    apply elem_of_lookup_imap_1 in Hin as (i & e' & [= -> ->] & ?). by exists i, e', m.
  - intros (k & e & m & Hk & ?). right. exists k, e, m. split; [|done].
    by apply (elem_of_lookup_imap_2 pair).
Qed.

Lemma drop_matches_cascade_unused (fuel : nat) (concepts : list string)
    (hierarchy : option HierarchyProvider) (s : DataSequence) :
  drop_matches fuel concepts hierarchy true s
  = drop_matches fuel concepts hierarchy false s.
Proof. done. Qed.

(** C8, at a sequence where a match depends on a dropped one.  In
    [seq_ab] with the pair and the word (which depends on the pair) added,
    [drop_matches(['Pair'], cascade=True)] removes the pair and leaves the
    word at both positions and in the registry, with its dependency on the
    id of the pair: the result is the one of [cascade=False]. *)
Theorem drop_matches_ignores_cascade :
  pair_ab ∈ all_matches seq_pair_word
  ∧ id pair_ab ∈ depends_on_matches word_ab
  ∧ drop_matches 5 ["Pair"] None true seq_pair_word
    = drop_matches 5 ["Pair"] None false seq_pair_word
  ∧ (drop_matches 5 ["Pair"] None true seq_pair_word).2 = Ok tt
  ∧ matches <$> elements (drop_matches 5 ["Pair"] None true seq_pair_word).1
    = [ [new_match "Character" "a" 1 0 "c0" []; word_ab];
        [new_match "Character" "b" 1 1 "c1" []; word_ab] ]
  ∧ match_by_id (drop_matches 5 ["Pair"] None true seq_pair_word).1 !! "w"
    = Some word_ab
  ∧ match_by_id (drop_matches 5 ["Pair"] None true seq_pair_word).1 !! "p" = None.
Proof.
  split_and!.
  - apply (bool_decide_unpack _). by vm_compute.
  - apply (bool_decide_unpack _). by vm_compute.
  - done.
  - by vm_compute.
  - by vm_compute.
  - by vm_compute.
  - by vm_compute.
Qed.

(** * Instances *)

Lemma no_self_dependency_Forall (s : DataSequence) :
  Forall not_self_dependent (all_matches s) → no_self_dependency s.
Proof. intros H m Hm. by apply (proj1 (list.Forall_forall _ _) H). Defined.

(** C1 at [seq_ab]: a pair depending on an id that no match has. *)
Lemma add_match_missing_dependency_witness :
  add_match (new_match "Pair" "ab" 2 0 "p" ["c0"; "zz"]) seq_ab = (seq_ab, Ok false).
Proof.
  refine (proj1 (add_match_missing_dependency seq_ab
                   (new_match "Pair" "ab" 2 0 "p" ["c0"; "zz"]) "zz" _) _).
  - apply (bool_decide_unpack _). vm_compute. exact I.
  - apply (bool_decide_unpack _). vm_compute. exact I.
Defined.

(** C2 at [seq_pair_word]: revoking the pair, on which the word depends. *)
Lemma revoke_match_spec_witness :
  (∃ s', revoke_match 13 "p" true seq_pair_word = (s', Ok tt)
         ∧ (∀ m, reaches seq_pair_word "p" m →
                 (m ∉ all_matches s') ∧ match_by_id s' !! id m = None)
         ∧ (pair_ab ∉ all_matches s') ∧ match_by_id s' !! "p" = None
         ∧ (word_ab ∉ all_matches s') ∧ match_by_id s' !! "w" = None)
  ∧ (∃ s'', revoke_match 13 "p" false seq_pair_word = (s'', Ok tt)
            ∧ elements s''
              = set_matches (filter (λ m, id m ≠ "p")) <$> elements seq_pair_word
            ∧ match_by_id s'' = delete "p" (match_by_id seq_pair_word)
            ∧ (pair_ab ∉ all_matches s'')
            ∧ ("p" ∉ get_all_match_ids s'')
            ∧ (∀ k e, elements seq_pair_word !! k = Some e → word_ab ∈ matches e →
                      ∃ e', elements s'' !! k = Some e' ∧ word_ab ∈ matches e')
            ∧ match_by_id s'' !! "w" = match_by_id seq_pair_word !! "w"
            ∧ ((∀ m, m ∈ all_matches seq_pair_word → id m = "p" → m = pair_ab) →
               ∀ k e m, elements seq_pair_word !! k = Some e → m ∈ matches e →
                        m ≠ pair_ab →
                        ∃ e', elements s'' !! k = Some e' ∧ m ∈ matches e')).
Proof.
  apply (revoke_match_spec seq_pair_word pair_ab word_ab 13).
  - apply no_self_dependency_Forall. apply (bool_decide_unpack _). vm_compute. exact I.
  - apply (bool_decide_unpack _). vm_compute. exact I.
  - apply (bool_decide_unpack _). vm_compute. exact I.
  - apply (bool_decide_unpack _). vm_compute. exact I.
  - vm_compute. lia.
Defined.

(** The claim C2 fails at [seq_self], where the match to revoke names its
    own id: with the cascade the recursion never ends (whatever depth is
    allowed, [RecursionError] is raised), and without it the match stays. *)
Lemma revoke_match_self_dependent :
  self_a ∈ all_matches seq_self ∧ on_a ∈ all_matches seq_self
  ∧ id self_a ∈ depends_on_matches on_a
  ∧ (∀ fuel, revoke_match fuel (id self_a) true seq_self
             = (seq_self, Raise RecursionError))
  ∧ (∀ fuel s'', revoke_match fuel (id self_a) false seq_self = (s'', Ok tt) →
                 self_a ∈ all_matches s'').
Proof.
  assert (revoke_here "a" seq_self = seq_self) as Hfix by by vm_compute.
  assert (dependants "a" seq_self = ["a"; "b"]) as Hdeps by by vm_compute.
  split_and!.
  - apply (bool_decide_unpack _). by vm_compute.
  - apply (bool_decide_unpack _). by vm_compute.
  - apply (bool_decide_unpack _). by vm_compute.
  - intros fuel. induction fuel as [|fuel IH]; [done|].
    rewrite revoke_match_unfold. change (id self_a) with "a" in *.
    by rewrite Hfix, Hdeps, for_each_cons, IH.
  - intros [|fuel] s''; [done|]. rewrite revoke_match_unfold.
    change (id self_a) with "a". rewrite Hfix. intros [= <-].
    apply (bool_decide_unpack _). by vm_compute.
Qed.

(** C3 at [seq_ab]: two sentences over one span with different
    dependency lists, all present. *)
Lemma add_match_same_span_witness :
  ∃ s2, add_match sentence_3 (add_match sentence_1 seq_ab).1 = (s2, Ok true)
        ∧ (∀ idx, 0 ≤ idx < 1 →
             ∃ k e, element_at s2 (0 + idx) = Some (k, e) ∧ sentence_3 ∈ matches e)
        ∧ match_by_id s2 !! "s3" = Some sentence_3.
Proof.
  apply (add_match_same_span seq_ab (add_match sentence_1 seq_ab).1
           sentence_1 sentence_3).
  - reflexivity.
  - reflexivity.
  - reflexivity.
  - vm_compute. reflexivity.
  - reflexivity.
  - discriminate.
  - vm_compute. reflexivity.
  - intros idx k e saved Hidx. assert (idx = 0) as -> by (simpl in Hidx; lia).
    intros [= <- <-]. simpl. intros Hin.
    apply list_elem_of_singleton in Hin. subst saved.
    intros (Hc & _). discriminate Hc.
Defined.

(** The second half of the claim C3 fails at [seq_ab]: the second
    sentence has another dependency list than the first, and it is not
    inserted, because an id it depends on is not stored. *)
Lemma add_match_duplicable_rejected :
  duplicable (concept sentence_1) = true
  ∧ concept sentence_2 = concept sentence_1
  ∧ start_idx sentence_2 = start_idx sentence_1
  ∧ size sentence_2 = size sentence_1
  ∧ (add_match sentence_1 seq_ab).2 = Ok true
  ∧ depends_on_matches sentence_2 ≠ depends_on_matches sentence_1
  ∧ add_match sentence_2 (add_match sentence_1 seq_ab).1
    = ((add_match sentence_1 seq_ab).1, Ok false).
Proof. split_and!; by vm_compute. Qed.

(** C4 at a state depending on a match of weight one half, finalized with
    the requested weight one. *)
Lemma get_matches_weight_witness :
  ∃ main others,
    get_matches state_on_half (add_match half_a seq_ab).1 "X" 1%Qc sample_new_ids
    = Ok (main :: others)
    ∧ depends_on_matches main = ["h"]
    ∧ (weight main = 1%Qc
       ∨ ∃ d m, d ∈ depends_on_matches main
                ∧ match_by_id (add_match half_a seq_ab).1 !! d = Some m
                ∧ weight main = weight m)
    ∧ (weight main ≤ 1)%Qc
    ∧ (∀ d m, d ∈ depends_on_matches main →
              match_by_id (add_match half_a seq_ab).1 !! d = Some m →
              (weight main ≤ weight m)%Qc).
Proof.
  apply (get_matches_weight state_on_half (add_match half_a seq_ab).1 "X" 1%Qc
           sample_new_ids 0 1).
  - reflexivity.
  - reflexivity.
  - intros d Hd. apply list_elem_of_singleton in Hd. subst d.
    apply (bool_decide_unpack _). vm_compute. exact I.
Defined.

(** C10 at [seq_pair_word] after the cascading revocation of the pair. *)
Lemma registry_matches_positions_witness :
  dom (match_by_id (revoke_match 9 "p" true seq_pair_word).1)
  = get_all_match_ids (revoke_match 9 "p" true seq_pair_word).1
  ∧ no_self_dependency (revoke_match 9 "p" true seq_pair_word).1
  ∧ ∀ x cascade fuel,
      (2 * count (revoke_match 9 "p" true seq_pair_word).1 < fuel)%nat →
      ∃ s', revoke_match fuel x cascade (revoke_match 9 "p" true seq_pair_word).1
            = (s', Ok tt).
Proof.
  apply (registry_matches_positions (revoke_match 9 "p" true seq_pair_word).1).
  apply (reachable_revoke_match _ seq_pair_word 9 "p" true).
  - unfold seq_pair_word. apply reachable_add_match.
    + apply reachable_add_match.
      * apply reachable_from_string.
      * apply (bool_decide_unpack _). vm_compute. exact I.
    + apply (bool_decide_unpack _). vm_compute. exact I.
  - vm_compute. reflexivity.
Defined.

(** The claim C1 fails at [seq_orphan], where a match with id ["a"] is
    stored at the second position and the registry has no key ["a"]: a
    match depending on ["a"] is accepted, stored and registered. *)
Lemma add_match_unregistered_dependency :
  "a" ∈ depends_on_matches third_b
  ∧ ("a" ∉ dom (match_by_id seq_orphan))
  ∧ (add_match third_b seq_orphan).2 = Ok true
  ∧ third_b ∈ all_matches (add_match third_b seq_orphan).1
  ∧ match_by_id (add_match third_b seq_orphan).1 !! "t" = Some third_b.
Proof.
  split_and!.
  - apply (bool_decide_unpack _). by vm_compute.
  - apply (bool_decide_unpack _). by vm_compute.
  - by vm_compute.
  - apply (bool_decide_unpack _). by vm_compute.
  - by vm_compute.
Qed.

(** The claim C10 fails at [seq_orphan]: after the two additions and the
    revocation, a match with id ["a"] is stored at the second position and
    the registry has no key ["a"]. *)
Lemma registry_diverges :
  reachable any_match seq_orphan
  ∧ "a" ∈ get_all_match_ids seq_orphan
  ∧ "a" ∉ dom (match_by_id seq_orphan).
Proof.
  split_and!.
  - apply (reachable_revoke_match _ (add_match second_a (add_match first_a seq_ab).1).1
             5 "a" false).
    + apply reachable_add_match; [|done].
      apply reachable_add_match; [|done].
      apply reachable_from_string.
    + vm_compute. reflexivity.
  - apply (bool_decide_unpack _). by vm_compute.
  - apply (bool_decide_unpack _). by vm_compute.
Qed.

(** ** A pass over ["ab"] *)

(** The pair rule is called at both positions and its match is added from
    the first; the word rule, which declares the inside concept ['Pair'],
    is called at both positions (the pair covers them) and only the word
    with the span of the pair is handed to [add_match]. *)
Example apply_once_sample :
  let r := apply_once sample_extractor {| run_seq := seq_ab; run_log := [] |} in
  r.2 = Ok true
  ∧ event_tag <$> run_log r.1
    = [("match", "0"); ("add_match", "p"); ("match", "0"); ("add_match", "w");
       ("match", "1"); ("match", "1")]
  ∧ (concept <$> all_matches (run_seq r.1))
    = ["Character"; "Pair"; "Word"; "Character"; "Pair"; "Word"].
Proof. by vm_compute. Qed.

(** Characters are counted as Python counts them: a character outside
    ASCII is one character, one position of [from_string] and one unit of
    a slice. *)
Example py_chars_sample :
  py_chars "aé€z" = ["a"; "é"; "€"; "z"]
  ∧ py_len "Née" = 3%nat
  ∧ py_slice "éa" (Some 0) (Some 1) = "é"
  ∧ py_slice "aé€z" (Some 1) (Some (-1)) = "é€"
  ∧ seq_size (from_string "é" sample_ids) = 1%nat.
Proof. by vm_compute. Qed.

(** After consolidation [extract] answers, before it raises. *)
Example extract_sample :
  (extract "k" seq_ab).2 = Raise (Exception "Must consolidate first")
  ∧ (extract "k" (consolidate seq_ab).1).2 = Ok [].
Proof. by vm_compute. Qed.

(** * Further properties *)

(** ** Construction *)

Lemma post_init_fold (es : list DataElement) (s : DataSequence) :
  foldl (λ s e, foldl (λ s m, set_match_by_id <[id m := m]> s) s (matches e)) s es
  = set_match_by_id
      (λ reg, foldl (λ reg m, <[id m := m]> reg) reg (concat (matches <$> es))) s.
Proof.
  assert (∀ ms s0,
            foldl (λ s m, set_match_by_id <[id m := m]> s) s0 ms
            = set_match_by_id (λ reg, foldl (λ reg m, <[id m := m]> reg) reg ms) s0)
    as Hinner.
  { intros ms. induction ms as [|m ms IH]; intros s0; simpl; [by destruct s0|].
    by rewrite IH. }
  revert s. induction es as [|e es IH]; intros s; simpl; [by destruct s|].
  rewrite Hinner, IH. unfold set_match_by_id. simpl. f_equal.
  symmetry. apply foldl_app.
Qed.

Lemma post_init_registry (s : DataSequence) :
  post_init s
  = set_match_by_id (λ reg, foldl (λ reg m, <[id m := m]> reg) reg (all_matches s)) s.
Proof. apply post_init_fold. Qed.

Lemma foldl_insert_lookup (l : list Match) (reg : gmap string Match) (m : Match) :
  (∀ m', m' ∈ l → id m' = id m → m' = m) →
  m ∈ l ∨ reg !! id m = Some m →
  foldl (λ reg m, <[id m := m]> reg) reg l !! id m = Some m.
Proof.
  revert reg. induction l as [|a l IH]; intros reg Huniq Hcase; simpl.
  { destruct Hcase as [H|H]; [by apply elem_of_nil in H|done]. }
  apply IH; [intros m' Hm'; apply Huniq; by right|].
  destruct (decide (id a = id m)) as [Heq|Hne].
  - right. rewrite (Huniq a) by (done || left). apply lookup_insert_eq.
  - destruct Hcase as [[-> |?]%elem_of_cons|?]; [done|by left|].
    right. by rewrite lookup_insert_ne.
Qed.

(** The constructor registers what it is given: after [__post_init__]
    every id stored at a position is a key of the registry, and a stored
    match that is the only one with its id is the value of its key. *)
Theorem post_init_registers (s : DataSequence) (m : Match) :
  m ∈ all_matches s →
  elements (post_init s) = elements s
  ∧ id m ∈ dom (match_by_id (post_init s))
  ∧ ((∀ m', m' ∈ all_matches s → id m' = id m → m' = m) →
     match_by_id (post_init s) !! id m = Some m).
Proof.
  intros Hm. rewrite post_init_registry. simpl. split_and!; [done| |].
  - destruct (post_init_loop (elements s) s) as [_ Hd].
    fold (post_init s) in Hd. rewrite post_init_registry in Hd. simpl in Hd.
    apply Hd. right. by exists m.
  - intros Huniq. apply foldl_insert_lookup; auto.
Qed.


(** ** Outcomes of [add_match] *)

Lemma element_at_None (s : DataSequence) (i : Z) :
  element_at s i = None ↔ py_norm_index (length (elements s)) i = None.
Proof.
  unfold element_at. destruct (py_norm_index _ i) as [k|] eqn:E; simpl; [|done].
  split; [|done]. destruct (elements s !! k) eqn:Hk; [done|].
  apply lookup_ge_None in Hk. unfold py_norm_index in E.
  repeat case_bool_decide; simplify_eq; lia.
Qed.

Lemma add_match_loop_raise (m : Match) (idxs : list Z) (b : bool) (s s' : DataSequence)
    (err : PyErr) :
  add_match_loop m idxs b s = (s', Raise err) →
  err = IndexError
  ∧ ∃ idx, idx ∈ idxs ∧ py_norm_index (length (elements s)) (start_idx m + idx) = None.
Proof.
  revert b s. induction idxs as [|i rest IH]; intros b s Hrun; [done|].
  destruct (element_at s (start_idx m + i)) as [[k e]|] eqn:Hat.
  - assert (∀ b0 s0, length (elements s0) = length (elements s) →
              add_match_loop m rest b0 s0 = (s', Raise err) →
              err = IndexError
              ∧ ∃ idx, idx ∈ i :: rest
                       ∧ py_norm_index (length (elements s)) (start_idx m + idx) = None)
      as Hrest.
    { intros b0 s0 Hlen Hrun0. destruct (IH _ _ Hrun0) as (-> & idx & Hidx & Hout).
      split; [done|]. exists idx. split; [by right|]. by rewrite <- Hlen. }
    destruct (contains_match e m) eqn:Hc.
    + rewrite (add_match_loop_old _ _ _ _ _ _ _ Hat Hc) in Hrun. by eapply Hrest.
    + rewrite (add_match_loop_new _ _ _ _ _ _ _ Hat Hc) in Hrun.
      eapply Hrest; [|done]. unfold add_here. simpl. by rewrite length_insert.
  - rewrite add_match_loop_out in Hrun by done. injection Hrun as <- <-.
    split; [done|]. exists i. split; [left|]. by apply element_at_None.
Qed.

Lemma add_match_loop_out_of_range (m : Match) (idxs : list Z) (b : bool)
    (s : DataSequence) (idx : Z) :
  idx ∈ idxs → py_norm_index (length (elements s)) (start_idx m + idx) = None →
  ∃ s', add_match_loop m idxs b s = (s', Raise IndexError).
Proof.
  revert b s. induction idxs as [|i rest IH]; intros b s Hidx Hout.
  { by apply elem_of_nil in Hidx. }
  destruct (element_at s (start_idx m + i)) as [[k e]|] eqn:Hat.
  - assert (idx ∈ rest) as Hin.
    { apply elem_of_cons in Hidx as [-> |?]; [|done].
      apply element_at_None in Hout. congruence. }
    destruct (contains_match e m) eqn:Hc.
    + rewrite (add_match_loop_old _ _ _ _ _ _ _ Hat Hc). by apply IH.
    + rewrite (add_match_loop_new _ _ _ _ _ _ _ Hat Hc). apply IH; [done|].
      unfold add_here. simpl. by rewrite length_insert.
  - rewrite add_match_loop_out by done. by eexists.
Qed.

(** The only exception of [add_match] is [IndexError], and it is raised
    exactly when all dependencies are stored and some position of the span
    is out of range (after the wrap-around of negative subscripts).  The
    sequence is then left stale, with the match appended at positions of
    the span visited before and nothing else changed. *)
Theorem add_match_raises (m : Match) (s : DataSequence) :
  (∀ s' err, add_match m s = (s', Raise err) →
     err = IndexError ∧ grown m (set_consolidated false s) s')
  ∧ ((∃ s' err, add_match m s = (s', Raise err))
     ↔ dependencies_present m s = true
       ∧ ∃ idx, 0 ≤ idx < size m
                ∧ py_norm_index (seq_size s) (start_idx m + idx) = None).
Proof.
  unfold add_match, seq_size. destruct (dependencies_present m s); simpl.
  - split.
    + intros s' err Hrun. split; [by destruct (add_match_loop_raise _ _ _ _ _ _ Hrun)|].
      pose proof (add_match_loop_grown m (seqZ 0 (size m)) false (set_consolidated false s))
        as Hg. by rewrite Hrun in Hg.
    + split.
      * intros (s' & err & Hrun). split; [done|].
        destruct (add_match_loop_raise _ _ _ _ _ _ Hrun) as (_ & idx & Hidx & Hout).
        exists idx. apply elem_of_seqZ in Hidx. split; [lia|done].
      * intros (_ & idx & Hidx & Hout).
        destruct (add_match_loop_out_of_range m (seqZ 0 (size m)) false
                    (set_consolidated false s) idx) as [s' Hrun]; [|done|by exists s', IndexError].
        apply elem_of_seqZ. lia.
  - split; [done|]. split; [by intros (? & ? & ?)|by intros [? _]].
Qed.

Lemma count_add_here (m : Match) (k : nat) (e : DataElement) (s : DataSequence) :
  elements s !! k = Some e → count (add_here m k e s) = S (count s).
Proof.
  unfold count, all_matches, add_here. simpl. generalize (elements s). intros l.
  revert k. induction l as [|a l IH]; intros k Hk; [done|].
  destruct k as [|k]; simpl in *.
  - injection Hk as ->. rewrite !List.length_app. simpl. lia.
  - rewrite !List.length_app. specialize (IH k Hk). simpl in IH.
    unfold fmap in *. lia.
Qed.

Lemma add_match_loop_outcome (m : Match) (idxs : list Z) (b : bool) (s s' : DataSequence)
    (r : result bool) :
  add_match_loop m idxs b s = (s', r) →
  (s' = s ∧ ∀ b', r = Ok b' → b' = b)
  ∨ (match_by_id s' !! id m = Some m ∧ m ∈ all_matches s'
     ∧ (count s < count s')%nat ∧ ∀ b', r = Ok b' → b' = true).
Proof.
  revert b s. induction idxs as [|i rest IH]; intros b s Hrun.
  { injection Hrun as <- <-. left. split; [done|]. by intros b' [= <-]. }
  destruct (element_at s (start_idx m + i)) as [[k e]|] eqn:Hat.
  2: { rewrite add_match_loop_out in Hrun by done. injection Hrun as <- <-. by left. }
  destruct (contains_match e m) eqn:Hc.
  - rewrite (add_match_loop_old _ _ _ _ _ _ _ Hat Hc) in Hrun. by apply IH.
  - rewrite (add_match_loop_new _ _ _ _ _ _ _ Hat Hc) in Hrun.
    apply element_at_Some in Hat as [_ Hk].
    pose proof (count_add_here m k e s Hk) as Hcount.
    right. destruct (IH _ _ Hrun) as [[-> Hb]|(Hreg & Hin & Hlt & Hb)].
    + split_and!; [apply lookup_insert_eq| |lia|done].
      apply all_matches_add_here; auto.
    + split_and!; [done|done|lia|done].
Qed.

(** The answer of [add_match] tells whether the match was stored: with
    [False] the positions and the registry are as before; with [True] the
    match is at some position, the registry maps its id to it and one more
    copy at least is stored. *)
Theorem add_match_outcome (m : Match) (s s' : DataSequence) (b : bool) :
  add_match m s = (s', Ok b) →
  if b
  then match_by_id s' !! id m = Some m ∧ m ∈ all_matches s'
       ∧ (count s < count s')%nat
  else elements s' = elements s ∧ match_by_id s' = match_by_id s.
Proof.
  unfold add_match. destruct (dependencies_present m s); simpl.
  - intros Hrun. destruct (add_match_loop_outcome _ _ _ _ _ _ Hrun)
      as [[-> Hb]|(Hreg & Hin & Hlt & Hb)].
    + by rewrite (Hb b eq_refl).
    + by rewrite (Hb b eq_refl).
  - by intros [= <- <-].
Qed.

(** ** Staleness *)

Lemma revoke_match_stale (fuel : nat) (x : string) (cascade : bool) (s : DataSequence) :
  consolidated s = false → consolidated (revoke_match fuel x cascade s).1 = false.
Proof.
  revert x cascade s. induction fuel as [|fuel IH]; intros x cascade s Hs; [done|].
  rewrite revoke_match_unfold. destruct cascade; [|done].
  apply (for_each_inv (λ s, consolidated s = false)); [|done].
  intros y s' Hs'. by apply IH.
Qed.

(** Every mutation leaves the sequence stale: [add_match] as soon as the
    dependencies are stored (even when it inserts nothing), [revoke_match]
    always.  On a stale sequence [extract] raises, and after [consolidate]
    it answers with the captures of the matches stored then. *)
Theorem stale_after_mutation (s : DataSequence) :
  (∀ m, dependencies_present m s = true → consolidated (add_match m s).1 = false)
  ∧ (∀ fuel x cascade, consolidated (revoke_match (S fuel) x cascade s).1 = false)
  ∧ (consolidated s = false →
     ∀ key, extract key s = (s, Raise (Exception "Must consolidate first"))
            ∧ (extract key (consolidate s).1).2
              = Ok (captured key (first_by_id (all_matches s)))).
Proof.
  split_and!.
  - intros m Hm. unfold add_match. rewrite Hm. simpl.
    pose proof (add_match_loop_grown m (seqZ 0 (size m)) false (set_consolidated false s))
      as (_ & Hc & _). by rewrite Hc.
  - intros fuel x cascade. rewrite revoke_match_unfold. destruct cascade; [|done].
    apply (for_each_inv (λ s, consolidated s = false)); [|done].
    intros y s' Hs'. by apply revoke_match_stale.
  - intros Hs key. split; [unfold extract; by rewrite Hs|].
    rewrite consolidate_stale by done. unfold extract. simpl.
    by rewrite foldl_merge_extractions, lookup_empty.
Qed.

(** ** Positions are never created, destroyed or altered *)

Lemma positions_add_match (m : Match) (s : DataSequence) :
  positions (add_match m s).1 = positions s ∧ seq_value (add_match m s).1 = seq_value s.
Proof.
  unfold add_match. destruct (dependencies_present m s); simpl; [|done].
  apply (add_match_loop_inv m (λ s', positions s' = positions s
                                     ∧ seq_value s' = seq_value s)); [|done].
  intros s' k e [Hp Hv] Hk _. split; [|done]. rewrite <- Hp.
  unfold positions, add_here. simpl. rewrite list_fmap_insert. simpl.
  apply list_insert_id. by rewrite list_lookup_fmap, Hk.
Qed.

Lemma positions_revoke_here (x : string) (s : DataSequence) :
  positions (revoke_here x s) = positions s.
Proof.
  unfold positions, revoke_here. simpl. rewrite <- list_fmap_compose.
  by apply list_fmap_ext.
Qed.

Lemma positions_revoke_match (fuel : nat) (x : string) (cascade : bool)
    (s : DataSequence) :
  positions (revoke_match fuel x cascade s).1 = positions s
  ∧ seq_value (revoke_match fuel x cascade s).1 = seq_value s.
Proof.
  revert x cascade s. induction fuel as [|fuel IH]; intros x cascade s; [done|].
  rewrite revoke_match_unfold. destruct cascade.
  - apply (for_each_inv (λ s', positions s' = positions s ∧ seq_value s' = seq_value s)).
    + intros y s' [Hp Hv]. destruct (IH y true s') as [Hp' Hv']. split; congruence.
    + split; [apply positions_revoke_here|done].
  - split; [apply positions_revoke_here|done].
Qed.

(** No operation of the store creates or destroys a position or changes
    the payload or the disabled flag of one: [add_match], [revoke_match],
    [consolidate], [keep_only] and [drop_matches] leave the text and the
    list of (payload, disabled) pairs as they are, whatever their
    outcome. *)
Theorem positions_preserved (s : DataSequence) :
  (∀ m, positions (add_match m s).1 = positions s
        ∧ seq_value (add_match m s).1 = seq_value s)
  ∧ (∀ fuel x cascade,
       positions (revoke_match fuel x cascade s).1 = positions s
       ∧ seq_value (revoke_match fuel x cascade s).1 = seq_value s)
  ∧ (positions (consolidate s).1 = positions s
     ∧ seq_value (consolidate s).1 = seq_value s)
  ∧ (∀ fuel concepts hierarchy,
       positions (keep_only fuel concepts hierarchy s).1 = positions s
       ∧ seq_value (keep_only fuel concepts hierarchy s).1 = seq_value s)
  ∧ (∀ fuel concepts hierarchy cascade,
       positions (drop_matches fuel concepts hierarchy cascade s).1 = positions s
       ∧ seq_value (drop_matches fuel concepts hierarchy cascade s).1 = seq_value s).
Proof.
  assert (∀ fuel l,
    positions (for_each (λ y, revoke_match fuel y false) l s).1 = positions s
    ∧ seq_value (for_each (λ y, revoke_match fuel y false) l s).1 = seq_value s) as Hall.
  { intros fuel l.
    apply (for_each_inv (λ s', positions s' = positions s ∧ seq_value s' = seq_value s));
      [|done].
    intros y s' [Hp Hv]. destruct (positions_revoke_match fuel y false s') as [Hp' Hv'].
    split; congruence. }
  split_and!.
  - intros m. apply positions_add_match.
  - intros fuel x cascade. apply positions_revoke_match.
  - unfold consolidate. by destruct (consolidated s).
  - unfold consolidate. by destruct (consolidated s).
  - intros. apply Hall.
  - intros. apply Hall.
Qed.

(** ** Revoking a collection of ids without the cascade *)

Lemma DataSequence_eq (s1 s2 : DataSequence) :
  seq_value s1 = seq_value s2 → elements s1 = elements s2 →
  seq_extractions s1 = seq_extractions s2 → consolidated s1 = consolidated s2 →
  match_by_id s1 = match_by_id s2 → s1 = s2.
Proof. destruct s1, s2. simpl. by intros -> -> -> -> ->. Qed.

Lemma filter_all {A} (P : A → Prop) `{∀ x, Decision (P x)} (l : list A) :
  (∀ x, x ∈ l → P x) → filter P l = l.
Proof.
  induction l as [|x l IH]; intros Hl; [done|].
  rewrite filter_cons_True by (apply Hl; left). f_equal. apply IH.
  intros y Hy. apply Hl. by right.
Qed.

Lemma removable_revoke_here (x y : string) (s : DataSequence) :
  removable (revoke_here x s) y ↔ removable s y ∧ y ≠ x.
Proof.
  unfold removable. rewrite all_matches_revoke_here, !list.Exists_exists. split.
  - intros (m & [Hs Hm]%list_elem_of_filter & <- & Hself). split.
    + exists m. done.
    + intros <-. by destruct Hs.
  - intros [(m & Hm & <- & Hself) Hne]. exists m. split; [|done].
    apply list_elem_of_filter. split; [|done]. by right.
Qed.

Lemma revoke_here_lookup (x y : string) (s : DataSequence) :
  match_by_id (revoke_here x s) !! y
  = if decide (y = x ∧ removable s y) then None else match_by_id s !! y.
Proof.
  unfold revoke_here, removable. simpl. case_decide as Hall.
  - rewrite decide_False; [done|]. intros [-> Hex].
    apply list.Exists_exists in Hex as (m & Hm & Hid & Hself).
    rewrite list.Forall_forall in Hall. destruct (Hall m Hm); done.
  - apply not_Forall_Exists in Hall; [|apply _].
    destruct (decide (y = x)) as [->|Hne].
    + rewrite lookup_delete_eq, decide_True; [done|]. split; [done|].
      eapply list.Exists_impl; [exact Hall|]. intros m Hm.
      apply not_survives in Hm. by destruct Hm as [? ->].
    + rewrite lookup_delete_ne by done. rewrite decide_False; [done|]. by intros [? _].
Qed.

(** The loop [for match_id in matches_to_remove: self.revoke_match(match_id,
    cascade=False)] in closed form. *)
Lemma revoke_all_spec (fuel : nat) (l : list string) (s : DataSequence) :
  ∃ s', for_each (λ y, revoke_match (S fuel) y false) l s = (s', Ok tt)
        ∧ seq_value s' = seq_value s
        ∧ seq_extractions s' = seq_extractions s
        ∧ consolidated s' = (if l is [] then consolidated s else false)
        ∧ elements s'
          = set_matches (filter (λ m, id m ∉ l ∨ id m ∈ depends_on_matches m))
            <$> elements s
        ∧ ∀ y, match_by_id s' !! y
               = if decide (y ∈ l ∧ removable s y) then None else match_by_id s !! y.
Proof.
  revert s. induction l as [|x l IH]; intros s.
  { exists s. split_and!; try done.
    - symmetry. etrans; [|apply list_fmap_id]. apply list_fmap_ext. intros k [v ms d] _.
      unfold set_matches. simpl. f_equal. apply filter_all.
      intros m _. left. apply not_elem_of_nil. }
  destruct (IH (revoke_here x s)) as (s' & Hrun & Hv & Hx & Hc & He & Hr).
  exists s'. rewrite for_each_cons, revoke_match_unfold. split_and!; try done.
  - by destruct l.
  - rewrite He. unfold revoke_here. simpl. rewrite <- list_fmap_compose.
    apply list_fmap_ext. intros k [v ms d] _. unfold set_matches. simpl. f_equal.
    rewrite list_filter_filter. apply filter_ext_elem_of. intros m _.
    unfold survives. rewrite not_elem_of_cons. split.
    + intros [[Hl|Hself] [Hdep|Hne]].
      * destruct (decide (id m = x)) as [Heq|?]; [right; by rewrite Heq|by left].
      * by left.
      * by right.
      * by right.
    + intros [[Hne Hl]|Hself].
      * split; [by left|by right].
      * split; [by right|].
        destruct (decide (id m = x)) as [Heq|?]; [left; by rewrite <- Heq|by right].
  - intros y. rewrite Hr, revoke_here_lookup.
    destruct (decide (y ∈ x :: l ∧ removable s y)) as [[Hy Hrem]|Hn].
    + destruct (decide (y ∈ l ∧ removable (revoke_here x s) y)) as [?|Hn1]; [done|].
      rewrite decide_True; [done|]. split; [|done].
      destruct (decide (y = x)) as [|Hne]; [done|]. exfalso. apply Hn1. split.
      * apply elem_of_cons in Hy as [?|?]; done.
      * by apply removable_revoke_here.
    + rewrite decide_False.
      2: { intros [Hy [Hrem _]%removable_revoke_here]. apply Hn. split; [by right|done]. }
      rewrite decide_False; [done|]. intros [-> Hrem]. apply Hn. split; [left|done].
Qed.

(** The result of revoking a collection of ids one after the other without
    the cascade depends on the set of its members only, not on their order
    or multiplicity: [keep_only] and [drop_matches], which iterate over a
    Python set of ids, have one result whatever the iteration order. *)
Theorem revoke_all_order_irrelevant (fuel : nat) (l l' : list string) (s : DataSequence) :
  (∀ y, y ∈ l ↔ y ∈ l') →
  for_each (λ y, revoke_match (S fuel) y false) l s
  = for_each (λ y, revoke_match (S fuel) y false) l' s.
Proof.
  intros Hll.
  destruct (revoke_all_spec fuel l s) as (s1 & -> & Hv1 & Hx1 & Hc1 & He1 & Hr1).
  destruct (revoke_all_spec fuel l' s) as (s2 & -> & Hv2 & Hx2 & Hc2 & He2 & Hr2).
  f_equal. apply DataSequence_eq.
  - congruence.
  - rewrite He1, He2. apply list_fmap_ext. intros k e _. unfold set_matches. f_equal.
    apply filter_ext_elem_of. intros m _. by rewrite Hll.
  - congruence.
  - rewrite Hc1, Hc2. destruct l as [|x l], l' as [|x' l']; try done.
    + exfalso. eapply elem_of_nil, Hll. left.
    + exfalso. eapply elem_of_nil, Hll. left.
  - apply map_eq. intros y. rewrite Hr1, Hr2.
    destruct (decide (y ∈ l ∧ removable s y)) as [[Hy Hrem]|Hn].
    + rewrite decide_True; [done|]. split; [by apply Hll|done].
    + rewrite decide_False; [done|]. intros [Hy Hrem]. apply Hn. split; [by apply Hll|done].
Qed.

(** ** [drop_matches] and [keep_only] *)

Lemma select_matches_spec (select : nat → gset string → Match → gset string)
    (P : nat → Match → Prop) `{∀ k m, Decision (P k m)} :
  (∀ k acc m, select k acc m = if decide (P k m) then acc ∪ {[ id m ]} else acc) →
  ∀ s x, x ∈ select_matches select s
         ↔ ∃ k e m, elements s !! k = Some e ∧ m ∈ matches e ∧ id m = x ∧ P k m.
Proof.
  intros Hsel s x. unfold select_matches.
  assert (∀ (l : list (nat * DataElement)) (acc : gset string),
    x ∈ foldl (λ acc ie, foldl (select ie.1) acc (matches ie.2)) acc l
    ↔ x ∈ acc ∨ ∃ k e m, (k, e) ∈ l ∧ m ∈ matches e ∧ id m = x ∧ P k m) as Hfold.
  { intros l. induction l as [|[k e] l IH]; intros acc; simpl.
    { split; [auto|]. intros [?|(k & e & m & Hin & _)]; [done|].
      by apply elem_of_nil in Hin. }
    assert (∀ ms acc,
      x ∈ foldl (select k) acc ms
      ↔ x ∈ acc ∨ ∃ m, m ∈ ms ∧ id m = x ∧ P k m) as Hin.
    { clear IH. intros ms. induction ms as [|m ms IH]; intros acc'; simpl.
      { split; [auto|]. intros [?|(m & Hm & _)]; [done|]. by apply elem_of_nil in Hm. }
      rewrite IH, Hsel. case_decide as Hd.
      - rewrite elem_of_union, elem_of_singleton. split.
        + intros [[?| ->]|(m' & ? & ? & ?)]; [by left|right; exists m|right; exists m'];
            (split; [|done]); [left|by right].
        + intros [?|(m' & [-> |?]%elem_of_cons & ? & ?)]; [by left; left|by left; right|].
          right. by exists m'.
      - split.
        + intros [?|(m' & ? & ? & ?)]; [by left|]. right. exists m'. split; [by right|done].
        + intros [?|(m' & [-> |?]%elem_of_cons & ? & ?)]; [by left|done|].
          right. by exists m'. }
    rewrite IH, Hin. split.
    - intros [[?|(m & ? & ? & ?)]|(k' & e' & m & ? & ?)]; [by left|right..].
      + exists k, e, m. split; [left|done].
      + exists k', e', m. split; [by right|done].
    - intros [?|(k' & e' & m & [[= -> ->]|?]%elem_of_cons & ?)]; [by left; left| |].
      + left. right. by exists m.
      + right. by exists k', e', m. }
  rewrite Hfold. split.
  - intros [Hin|(k & e & m & Hin & ?)]; [by apply not_elem_of_empty in Hin|].
    apply elem_of_lookup_imap_1 in Hin as (i & e' & [= -> ->] & ?). by exists i, e', m.
  - intros (k & e & m & Hk & ?). right. exists k, e, m. split; [|done].
    by apply (elem_of_lookup_imap_2 pair).
Qed.

Lemma keep_only_select_spec (concepts : list string) (hierarchy : option HierarchyProvider)
    (idx : nat) (acc : gset string) (m : Match) :
  keep_only_select concepts hierarchy idx acc m
  = if decide (unwanted concepts hierarchy idx m) then acc ∪ {[ id m ]} else acc.
Proof.
  unfold keep_only_select, unwanted. case_bool_decide as Hs; simpl.
  2: { rewrite decide_False; [done|]. by intros [? _]. }
  case_bool_decide as Hc.
  { rewrite decide_False; [done|]. by intros (_ & ? & _). }
  destruct hierarchy as [h|].
  - destruct (shares_parent h (concept m) concepts) eqn:E.
    + apply shares_parent_spec in E as (p & ? & ?). rewrite decide_False; [done|].
      intros (_ & _ & Hno). apply (Hno h eq_refl). by exists p.
    + rewrite decide_True; [done|]. split_and!; [done..|].
      intros h' [= <-] (p & ? & ?).
      assert (shares_parent h (concept m) concepts = true) as E'.
      { apply shares_parent_spec. by exists p. }
      congruence.
  - rewrite decide_True; [done|]. split_and!; done.
Qed.

(** [drop_matches] returns normally whenever it may make one call, and
    its result is given by the set of the ids of the matches stored at
    the position where they start whose concept is listed or has a listed
    parent: at every position exactly the matches with such an id are
    removed, unless they name their own id as a dependency; the registry
    loses exactly the selected ids carried by a removed match; a match
    whose id is not selected stays, also when it depends on a removed
    one, whatever [cascade] is. *)
Theorem drop_matches_spec (fuel : nat) (concepts : list string)
    (hierarchy : option HierarchyProvider) (cascade : bool) (s : DataSequence) :
  ∃ (s' : DataSequence) (sel : gset string),
    drop_matches (S fuel) concepts hierarchy cascade s = (s', Ok tt)
    ∧ (∀ x, x ∈ sel ↔ ∃ k e m, elements s !! k = Some e ∧ m ∈ matches e ∧ id m = x
                                ∧ dropped concepts hierarchy k m)
    ∧ elements s'
      = set_matches (filter (λ m, id m ∉ sel ∨ id m ∈ depends_on_matches m))
        <$> elements s
    ∧ (∀ y, match_by_id s' !! y
            = if decide (y ∈ sel ∧ removable s y) then None else match_by_id s !! y)
    ∧ (∀ m, m ∈ all_matches s → id m ∉ sel → m ∈ all_matches s').
Proof.
  pose (sel := select_matches (drop_select concepts hierarchy) s).
  destruct (revoke_all_spec fuel (base.elements sel) s)
    as (s' & Hrun & Hv & Hx & Hc & He & Hr).
  exists s', sel. split_and!.
  - exact Hrun.
  - intros x. apply drop_matches_selection.
  - rewrite He. apply list_fmap_ext. intros k e _. unfold set_matches. f_equal.
    apply filter_ext_elem_of. intros m _. by rewrite elem_of_elements.
  - intros y. rewrite Hr. apply decide_ext. by rewrite elem_of_elements.
  - intros m' Hm' Hsel. apply elem_of_all_matches in Hm' as (e & He' & Hm').
    apply elem_of_all_matches. exists (set_matches
      (filter (λ m, id m ∉ base.elements sel ∨ id m ∈ depends_on_matches m)) e).
    split.
    + rewrite He. apply list_elem_of_fmap. by exists e.
    + simpl. apply list_elem_of_filter. split; [|done]. left.
      by rewrite elem_of_elements.
Qed.

(** [keep_only] returns normally whenever it may make one call, and its
    result is given by the set of the ids of the matches stored at the
    position where they start whose concept is not listed and, with a
    hierarchy, has no listed parent: at every position exactly the
    matches with such an id are removed, unless they name their own id
    as a dependency, and the registry loses exactly the selected ids
    carried by a removed match.  A match whose concept is listed stays
    only if no selected match shares its id. *)
Theorem keep_only_spec (fuel : nat) (concepts : list string)
    (hierarchy : option HierarchyProvider) (s : DataSequence) :
  ∃ (s' : DataSequence) (sel : gset string),
    keep_only (S fuel) concepts hierarchy s = (s', Ok tt)
    ∧ (∀ x, x ∈ sel ↔ ∃ k e m, elements s !! k = Some e ∧ m ∈ matches e ∧ id m = x
                                ∧ unwanted concepts hierarchy k m)
    ∧ elements s'
      = set_matches (filter (λ m, id m ∉ sel ∨ id m ∈ depends_on_matches m))
        <$> elements s
    ∧ (∀ y, match_by_id s' !! y
            = if decide (y ∈ sel ∧ removable s y) then None else match_by_id s !! y).
Proof.
  pose (sel := select_matches (keep_only_select concepts hierarchy) s).
  destruct (revoke_all_spec fuel (base.elements sel) s)
    as (s' & Hrun & Hv & Hx & Hc & He & Hr).
  exists s', sel. split_and!.
  - exact Hrun.
  - intros x. apply (select_matches_spec _ (unwanted concepts hierarchy)).
    intros k acc m. apply keep_only_select_spec.
  - rewrite He. apply list_fmap_ext. intros k e _. unfold set_matches. f_equal.
    apply filter_ext_elem_of. intros m _. by rewrite elem_of_elements.
  - intros y. rewrite Hr. apply decide_ext. by rewrite elem_of_elements.
Qed.

(** ** The cascade, exactly *)

Lemma without_nil (s : DataSequence) : without [] s s.
Proof.
  split_and!; try done.
  - symmetry. etrans; [|apply list_fmap_id]. apply list_fmap_ext. intros k [v ms d] _.
    unfold set_matches. simpl. f_equal. apply filter_all.
    intros m _. left. apply not_elem_of_nil.
Qed.

Lemma without_all_matches (L : list string) (s s' : DataSequence) (m : Match) :
  without L s s' →
  m ∈ all_matches s'
  ↔ m ∈ all_matches s ∧ (id m ∉ L ∨ id m ∈ depends_on_matches m).
Proof.
  intros (_ & _ & He & _). rewrite !elem_of_all_matches, He. split.
  - intros (e' & (e & -> & Hin)%list_elem_of_fmap & Hm). simpl in Hm.
    apply list_elem_of_filter in Hm as [Hk Hm]. split; [by exists e|done].
  - intros [(e & Hin & Hm) Hk]. eexists. split.
    + apply list_elem_of_fmap. by exists e.
    + simpl. by apply list_elem_of_filter.
Qed.

Lemma without_removable (L : list string) (s s' : DataSequence) (y : string) :
  without L s s' → removable s' y ↔ removable s y ∧ y ∉ L.
Proof.
  intros Hw. unfold removable. rewrite !list.Exists_exists. split.
  - intros (m & Hm & <- & Hself). apply (without_all_matches L s s' m Hw) in Hm
      as [Hm [?|?]]; [|done]. split; [|done]. by exists m.
  - intros [(m & Hm & <- & Hself) Hout]. exists m. split; [|done].
    apply (without_all_matches L s s' m Hw). split; [done|by left].
Qed.

Lemma without_app (La Lb : list string) (s sa s' : DataSequence) :
  without La s sa → without Lb sa s' → without (La ++ Lb) s s'.
Proof.
  intros Ha Hb. pose proof Ha as (Hv1 & Hx1 & He1 & Hr1).
  pose proof Hb as (Hv2 & Hx2 & He2 & Hr2).
  split_and!; [congruence..| |].
  - rewrite He2, He1, <- list_fmap_compose.
    apply list_fmap_ext. intros k [v ms d] _. unfold set_matches. simpl. f_equal.
    rewrite list_filter_filter. apply filter_ext_elem_of. intros m _.
    rewrite not_elem_of_app. tauto.
  - intros y. rewrite Hr2, Hr1.
    destruct (decide (y ∈ La ++ Lb ∧ removable s y)) as [[Hy Hrem]|Hn].
    + destruct (decide (y ∈ Lb ∧ removable sa y)) as [?|Hn1]; [done|].
      rewrite decide_True; [done|]. split; [|done].
      destruct (decide (y ∈ La)) as [|Hout]; [done|]. exfalso. apply Hn1.
      apply elem_of_app in Hy as [?|?]; [done|]. split; [done|].
      by apply (without_removable La s sa y Ha).
    + rewrite decide_False.
      2: { intros [Hy [Hrem _]%(without_removable La s sa y Ha)]. apply Hn.
           split; [|done]. apply elem_of_app. by right. }
      rewrite decide_False; [done|]. intros [Hy Hrem]. apply Hn.
      split; [|done]. apply elem_of_app. by left.
Qed.

Lemma without_revoke_here (x : string) (s : DataSequence) :
  without [x] s (revoke_here x s).
Proof.
  split_and!; try done.
  - unfold revoke_here. simpl. apply list_fmap_ext. intros k e _.
    unfold set_matches. f_equal. apply filter_ext_elem_of. intros m _.
    unfold survives. rewrite list_elem_of_singleton.
    destruct (decide (id m = x)) as [Heq|?]; [|tauto]. rewrite Heq. tauto.
  - intros y. rewrite revoke_here_lookup. apply decide_ext.
    by rewrite list_elem_of_singleton.
Qed.

Lemma revoked_id_mono (s1 s : DataSequence) (x y : string) :
  (∀ m, m ∈ all_matches s1 → m ∈ all_matches s) →
  revoked_id s1 x y → revoked_id s x y.
Proof.
  intros Hsub Hr. induction Hr as [|m d Hm Hd _ IH]; [constructor|].
  eapply revoked_step; [by apply Hsub|done..].
Qed.

Lemma revoked_id_trans (s : DataSequence) (x y z : string) :
  revoked_id s x y → revoked_id s y z → revoked_id s x z.
Proof.
  intros Hxy Hyz. induction Hyz as [|m d Hm Hd _ IH]; [done|].
  by eapply revoked_step.
Qed.

Lemma revoke_match_raise_kind (fuel : nat) (x : string) (cascade : bool)
    (s s' : DataSequence) (err : PyErr) :
  revoke_match fuel x cascade s = (s', Raise err) → err = RecursionError.
Proof.
  revert x cascade s s'. induction fuel as [|fuel IH]; intros x cascade s s'.
  { by intros [= _ <-]. }
  rewrite revoke_match_unfold. destruct cascade; [|done].
  generalize (revoke_here x s). induction (dependants x s) as [|y l IHl]; intros s1;
    [done|].
  rewrite for_each_cons. destruct (revoke_match fuel y true s1) as [s2 [[]|e]] eqn:E.
  - apply IHl.
  - intros [= _ <-]. by eapply IH.
Qed.

(** A match naming its own id as a dependency is never removed. *)
Lemma self_dependent_stays (fuel : nat) (x : string) (cascade : bool)
    (s : DataSequence) (m : Match) :
  id m ∈ depends_on_matches m → m ∈ all_matches s →
  m ∈ all_matches (revoke_match fuel x cascade s).1.
Proof.
  intros Hself. revert x cascade s. induction fuel as [|fuel IH]; intros x cascade s Hm;
    [done|].
  assert (m ∈ all_matches (revoke_here x s)) as Hm1.
  { rewrite all_matches_revoke_here. apply list_elem_of_filter. split; [|done].
    unfold survives. destruct (decide (id m = x)) as [<-|?]; [by left|by right]. }
  rewrite revoke_match_unfold. destruct cascade; [|done].
  apply (for_each_inv (λ s, m ∈ all_matches s)); [|done].
  intros y s1 Hs1. by apply IH.
Qed.

Lemma revoke_match_self_raises (fuel : nat) (s : DataSequence) (m : Match) :
  m ∈ all_matches s → id m ∈ depends_on_matches m →
  ∃ s', revoke_match fuel (id m) true s = (s', Raise RecursionError).
Proof.
  intros Hm Hself. revert s Hm. induction fuel as [|fuel IH]; intros s Hm.
  { by exists s. }
  rewrite revoke_match_unfold.
  assert (id m ∈ dependants (id m) s) as Hin.
  { apply elem_of_dependants. by exists m. }
  assert (m ∈ all_matches (revoke_here (id m) s)) as Hm1.
  { rewrite all_matches_revoke_here. apply list_elem_of_filter. split; [by left|done]. }
  revert Hin Hm1. generalize (revoke_here (id m) s).
  induction (dependants (id m) s) as [|y l IHl]; intros s1 Hin Hm1.
  { by apply elem_of_nil in Hin. }
  rewrite for_each_cons. destruct (decide (y = id m)) as [->|Hne].
  - destruct (IH s1 Hm1) as [s2 ->]. by exists s2.
  - destruct (revoke_match fuel y true s1) as [s2 [[]|e]] eqn:E.
    + apply IHl.
      * apply elem_of_cons in Hin as [?|?]; done.
      * pose proof (self_dependent_stays fuel y true s1 m Hself Hm1) as Hs.
        by rewrite E in Hs.
    + exists s2. by rewrite (revoke_match_raise_kind _ _ _ _ _ _ E).
Qed.

Lemma revoke_cascade_trace (fuel : nat) (x : string) (s s' : DataSequence) :
  revoke_match fuel x true s = (s', Ok tt) →
  ∃ L, without L s s'
       ∧ consolidated s' = false
       ∧ x ∈ L
       ∧ (∀ y, y ∈ L → revoked_id s x y)
       ∧ (∀ m d, m ∈ all_matches s → d ∈ depends_on_matches m → d ∈ L → id m ∈ L)
       ∧ (∀ m, m ∈ all_matches s → id m ∈ L → id m ∉ depends_on_matches m).
Proof.
  revert x s s'. induction fuel as [|fuel IH]; intros x s s' Hrun; [done|].
  assert (∀ l s s',
    for_each (λ y, revoke_match fuel y true) l s = (s', Ok tt) →
    ∃ L, without L s s'
         ∧ (consolidated s = false → consolidated s' = false)
         ∧ (∀ y, y ∈ l → y ∈ L)
         ∧ (∀ y, y ∈ L → ∃ y0, y0 ∈ l ∧ revoked_id s y0 y)
         ∧ (∀ m d, m ∈ all_matches s → d ∈ depends_on_matches m → d ∈ L → id m ∈ L)
         ∧ (∀ m, m ∈ all_matches s → id m ∈ L → id m ∉ depends_on_matches m)) as FE.
  { clear x s s' Hrun. intros l. induction l as [|y l IHl]; intros s s' Hrun.
    - injection Hrun as <-. exists []. split_and!; [apply without_nil|done|done| | |].
      + intros y Hy. by apply elem_of_nil in Hy.
      + intros m d _ _ Hd. by apply elem_of_nil in Hd.
      + intros m _ Hd. by apply elem_of_nil in Hd.
    - apply for_each_cons_Ok in Hrun as (sa & Hrun1 & Hrun2).
      destruct (IH y s sa Hrun1) as (La & Hwa & Hca & Hya & Hsa & Hcla & Hnsa).
      destruct (IHl sa s' Hrun2) as (Lb & Hwb & Hcb & Hlb & Hsb & Hclb & Hnsb).
      pose proof (without_all_matches La s sa) as Hall.
      exists (La ++ Lb). split_and!.
      + by eapply without_app.
      + auto.
      + intros y' [-> |Hy']%elem_of_cons; apply elem_of_app; [by left|right; auto].
      + intros y' [Hy'|Hy']%elem_of_app.
        * exists y. split; [left|auto].
        * destruct (Hsb y' Hy') as (y0 & Hy0 & Hr). exists y0. split; [by right|].
          eapply revoked_id_mono; [|done]. intros m Hm. by apply (Hall m Hwa) in Hm as [? _].
      + intros m d Hm Hd [HLa|HLb]%elem_of_app; apply elem_of_app.
        { left. by eapply Hcla. }
        destruct (decide (id m ∈ La)) as [?|Hout]; [by left|]. right.
        eapply Hclb; [|done..]. apply (Hall m Hwa). split; [done|by left].
      + intros m Hm [HLa|HLb]%elem_of_app; [by apply Hnsa|].
        destruct (decide (id m ∈ depends_on_matches m)) as [Hself|?]; [|done].
        apply Hnsb; [|done]. apply (Hall m Hwa). split; [done|by right]. }
  rewrite revoke_match_unfold in Hrun.
  destruct (FE _ _ _ Hrun) as (L1 & Hw1 & Hc1 & Hl1 & Hs1 & Hcl1 & Hns1).
  pose proof (without_all_matches [x] s (revoke_here x s)) as Hall.
  pose proof (without_revoke_here x s) as Hw0.
  exists ([x] ++ L1). split_and!.
  - by eapply without_app.
  - by apply Hc1.
  - apply elem_of_app. left. apply list_elem_of_singleton. done.
  - intros y [->%list_elem_of_singleton|Hy]%elem_of_app; [constructor|].
    destruct (Hs1 y Hy) as (y0 & Hy0 & Hr).
    apply elem_of_dependants in Hy0 as (m0 & Hm0 & <- & Hdep).
    eapply revoked_id_trans.
    + eapply revoked_step; [exact Hm0|exact Hdep|constructor].
    + eapply revoked_id_mono; [|done]. intros m Hm. by apply (Hall m Hw0) in Hm as [? _].
  - intros m d Hm Hd [->%list_elem_of_singleton|HL1]%elem_of_app; apply elem_of_app.
    { right. apply Hl1, elem_of_dependants. by exists m. }
    destruct (decide (id m = x)) as [Heq|Hne].
    { left. by apply list_elem_of_singleton. }
    right. eapply Hcl1; [|done..]. apply (Hall m Hw0). split; [done|]. left.
    by rewrite list_elem_of_singleton.
  - intros m Hm [Hx%list_elem_of_singleton|HL1]%elem_of_app.
    + intros Hself. destruct (revoke_match_self_raises (S fuel) s m Hm Hself) as [s2 Hraise].
      rewrite Hx, revoke_match_unfold in Hraise. congruence.
    + destruct (decide (id m ∈ depends_on_matches m)) as [Hself|?]; [|done].
      apply Hns1; [|done]. apply (Hall m Hw0). split; [done|by right].
Qed.

(** When [revoke_match(x)] with the cascade returns, it has removed the
    matches whose id is revoked by the cascade from [x], and nothing
    else: every position keeps, in order, exactly its matches with
    another id; the registry loses exactly the revoked ids that a stored
    match carried; the text and the captures are untouched and the
    sequence is stale.  None of the removed matches named its own id as a
    dependency. *)
Theorem revoke_match_cascade_exact (fuel : nat) (x : string) (s s' : DataSequence) :
  revoke_match fuel x true s = (s', Ok tt) →
  ∃ L : list string,
    (∀ y, y ∈ L ↔ revoked_id s x y)
    ∧ (∀ m, m ∈ all_matches s → id m ∈ L → id m ∉ depends_on_matches m)
    ∧ seq_value s' = seq_value s
    ∧ seq_extractions s' = seq_extractions s
    ∧ consolidated s' = false
    ∧ elements s' = set_matches (filter (λ m, id m ∉ L)) <$> elements s
    ∧ (∀ y, match_by_id s' !! y
            = if decide (y ∈ L ∧ Exists (λ m, id m = y) (all_matches s))
              then None else match_by_id s !! y).
Proof.
  intros Hrun.
  destruct (revoke_cascade_trace fuel x s s' Hrun)
    as (L & (Hv & Hx & He & Hr) & Hc & HxL & Hsound & Hclos & Hns).
  exists L. split_and!; try done.
  - intros y. split; [by apply Hsound|].
    intros Hrev. induction Hrev as [|m d Hm Hd _ IH]; [done|]. by eapply Hclos.
  - rewrite He. apply list_fmap_ext. intros k e Hk. unfold set_matches. f_equal.
    apply filter_ext_elem_of. intros m Hm. split; [|by left].
    intros [?|Hself]; [done|]. intros HL. apply (Hns m); [|done..].
    apply elem_of_all_matches. exists e. split; [|done]. by eapply list_elem_of_lookup_2.
  - intros y. rewrite Hr. apply decide_ext. unfold removable.
    rewrite !list.Exists_exists. split.
    + intros [Hy (m & Hm & Hid & _)]. split; [done|]. by exists m.
    + intros [Hy (m & Hm & Hid)]. split; [done|]. exists m. split_and!; [done..|].
      rewrite <- Hid. apply Hns; [done|]. by rewrite Hid.
Qed.

(** The only exception [revoke_match] raises is the [RecursionError] of
    the interpreter, and with the cascade it raises it at every recursion
    limit as soon as the cascade reaches the id of a stored match that
    names its own id as a dependency. *)
Theorem revoke_match_diverges (fuel : nat) (x : string) (s : DataSequence) :
  (∀ cascade s' err, revoke_match fuel x cascade s = (s', Raise err) →
                     err = RecursionError)
  ∧ ∀ m, m ∈ all_matches s → id m ∈ depends_on_matches m → revoked_id s x (id m) →
         ∃ s', revoke_match fuel x true s = (s', Raise RecursionError).
Proof.
  split.
  - intros cascade s' err. apply revoke_match_raise_kind.
  - intros m Hm Hself Hrev.
    destruct (revoke_match fuel x true s) as [s' [[]|err]] eqn:E.
    + exfalso.
      destruct (revoke_cascade_trace fuel x s s' E)
        as (L & _ & _ & HxL & _ & Hclos & Hns).
      apply (Hns m Hm); [|done].
      clear Hself Hm. induction Hrev as [|m' d Hm' Hd _ IH]; [done|]. by eapply Hclos.
    + exists s'. by rewrite (revoke_match_raise_kind _ _ _ _ _ _ E).
Qed.

(** ** Invariants of a pass *)

Section pass_invariant.
Context (ex : Extractor) (I : bool → Run → Prop) (Q : Run → Prop).
Hypothesis I_Q : ∀ h r, I h r → Q r.
Hypothesis I_invoked : ∀ h r start p v,
  I h r → positions (run_seq r) !! start = Some (v, false) →
  I h {| run_seq := run_seq r; run_log := run_log r ++ [Invoked start p (run_seq r)] |}.
Hypothesis I_submitted : ∀ h r p m s' b,
  I h r → add_match m (run_seq r) = (s', Ok b) →
  I (h || b) {| run_seq := s'; run_log := run_log r ++ [Submitted p m (run_seq r)] |}.
Hypothesis Q_submitted : ∀ h r p m s' err,
  I h r → add_match m (run_seq r) = (s', Raise err) →
  Q {| run_seq := s'; run_log := run_log r ++ [Submitted p m (run_seq r)] |}.

Lemma submit_matches_inv (p : Pattern) (ms : list Match) (h : bool) (r r' : Run)
    (res : result bool) :
  I h r → submit_matches ex p ms h r = (r', res) →
  positions (run_seq r') = positions (run_seq r)
  ∧ match res with Ok b => I b r' | Raise _ => Q r' end.
Proof using I_Q I_submitted Q_submitted.
  revert h r. induction ms as [|m ms IH]; intros h r Hr Hrun; simpl in Hrun.
  { by injection Hrun as <- <-. }
  assert ((let* _ := record_event (Submitted p m) in
           let* added := on_seq (add_match m) in
           submit_matches ex p ms (h || added)) r = (r', res) →
          positions (run_seq r') = positions (run_seq r)
          ∧ match res with Ok b => I b r' | Raise _ => Q r' end) as Hgo.
  { clear Hrun. unfold bind, record_event, on_seq. simpl.
    pose proof (positions_add_match m (run_seq r)) as [Hpos _].
    destruct (add_match m (run_seq r)) as [s' [added|err]] eqn:E; simpl in *.
    - intros Hrun. destruct (IH _ _ (I_submitted h r p m s' added Hr E) Hrun) as [Hp Ho].
      simpl in Hp. split; [congruence|done].
    - intros [= <- <-]. split; [done|]. by eapply Q_submitted. }
  destruct (declared_inside p) as [c|] eqn:Hin.
  - assert (match check_match_is_inside ex (run_seq r) m c with
            | Ok ok =>
                (if negb ok then submit_matches ex p ms h
                 else let* _ := record_event (Submitted p m) in
                      let* added := on_seq (add_match m) in
                      submit_matches ex p ms (h || added)) r
            | Raise e => (r, Raise e)
            end = (r', res)) as Hrun'.
    { rewrite <- Hrun. unfold bind, read_seq, ret.
      by destruct (check_match_is_inside ex (run_seq r) m c) as [[]|]. }
    clear Hrun. rename Hrun' into Hrun.
    destruct (check_match_is_inside ex (run_seq r) m c) as [[]|] eqn:Hchk; simpl in Hrun.
    + by apply Hgo.
    + by eapply IH.
    + injection Hrun as <- <-. split; [done|]. by eapply I_Q.
  - by apply Hgo.
Qed.

Lemma apply_patterns_inv (start : nat) (ps : list Pattern) (h : bool) (r r' : Run)
    (res : result bool) (v : option string) :
  I h r → positions (run_seq r) !! start = Some (v, false) →
  apply_patterns ex start ps h r = (r', res) →
  positions (run_seq r') = positions (run_seq r)
  ∧ match res with Ok b => I b r' | Raise _ => Q r' end.
Proof using All.
  revert h r. induction ps as [|p ps IH]; intros h r Hr Hen Hrun; simpl in Hrun.
  { by injection Hrun as <- <-. }
  assert ((let* _ := record_event (Invoked start p) in
           let* s := read_seq Ok in
           let* had := submit_matches ex p
                         (pattern_match p s (new_state (Z.of_nat start))
                            (the_hierarchy ex)) h in
           apply_patterns ex start ps had) r = (r', res) →
          positions (run_seq r') = positions (run_seq r)
          ∧ match res with Ok b => I b r' | Raise _ => Q r' end) as Hgo.
  { clear Hrun. unfold bind, record_event, read_seq. simpl.
    match goal with |- context [submit_matches ex p ?ms h ?r0] =>
      pose proof (λ r1 res1, submit_matches_inv p ms h r0 r1 res1
                               (I_invoked h r start p v Hr Hen)) as Hsub;
      destruct (submit_matches ex p ms h r0) as [r1 [had1|err]] end.
    - destruct (Hsub _ _ eq_refl) as [Hp Ho]. simpl in Hp. intros Hrun.
      destruct (IH had1 r1 Ho) as [Hp1 Ho1]; [by rewrite Hp|done|].
      split; [congruence|done].
    - destruct (Hsub _ _ eq_refl) as [Hp Ho]. by intros [= <- <-]. }
  destruct (declared_inside p) as [c|] eqn:Hin.
  - assert (match check_inside_start_idx ex (run_seq r) (Z.of_nat start) c with
            | Ok ok =>
                (if negb ok then apply_patterns ex start ps h
                 else let* _ := record_event (Invoked start p) in
                      let* s := read_seq Ok in
                      let* had := submit_matches ex p
                                    (pattern_match p s (new_state (Z.of_nat start))
                                       (the_hierarchy ex)) h in
                      apply_patterns ex start ps had) r
            | Raise e => (r, Raise e)
            end = (r', res)) as Hrun'.
    { rewrite <- Hrun. unfold bind, read_seq, ret.
      by destruct (check_inside_start_idx ex (run_seq r) (Z.of_nat start) c) as [[]|]. }
    clear Hrun. rename Hrun' into Hrun.
    destruct (check_inside_start_idx ex (run_seq r) (Z.of_nat start) c)
      as [[]|] eqn:Hchk; simpl in Hrun.
    + by apply Hgo.
    + by eapply IH.
    + injection Hrun as <- <-. split; [done|]. by eapply I_Q.
  - by apply Hgo.
Qed.

Lemma apply_positions_inv (starts : list nat) (h : bool) (r r' : Run)
    (res : result bool) :
  I h r → apply_positions ex starts h r = (r', res) →
  positions (run_seq r') = positions (run_seq r)
  ∧ match res with Ok b => I b r' | Raise _ => Q r' end.
Proof using All.
  revert h r. induction starts as [|start starts IH]; intros h r Hr Hrun; simpl in Hrun.
  { by injection Hrun as <- <-. }
  unfold bind at 1, get at 1 in Hrun.
  destruct (elements (run_seq r) !! start) as [e|] eqn:He; simpl in Hrun.
  2: { injection Hrun as <- <-. split; [done|]. by eapply I_Q. }
  destruct (disabled e) eqn:Hd; [by eapply IH|].
  unfold bind in Hrun.
  assert (positions (run_seq r) !! start = Some (el_value e, false)) as Hen.
  { unfold positions. by rewrite list_lookup_fmap, He, <- Hd. }
  pose proof (λ r1 res1, apply_patterns_inv start (patterns ex) h r r1 res1
                           (el_value e) Hr Hen) as Hpat.
  destruct (apply_patterns ex start (patterns ex) h r) as [r1 [had1|err]].
  - destruct (Hpat _ _ eq_refl) as [Hp Ho].
    destruct (IH had1 r1 Ho Hrun) as [Hp1 Ho1]. split; [congruence|done].
  - destruct (Hpat _ _ eq_refl) as [Hp Ho]. by injection Hrun as <- <-.
Qed.
End pass_invariant.

(** ** What a pass does to the store *)

Lemma kept_refl (s : DataSequence) : kept s s.
Proof.
  split_and!; [done..| |done]. intros k e Hk. exists e, []. by rewrite app_nil_r.
Qed.

Lemma kept_trans (s1 s2 s3 : DataSequence) : kept s1 s2 → kept s2 s3 → kept s1 s3.
Proof.
  intros (Hp1 & Hv1 & He1 & Hr1) (Hp2 & Hv2 & He2 & Hr2).
  split_and!; [congruence..| |auto].
  intros k e Hk. destruct (He1 k e Hk) as (e' & l & Hk' & Hm).
  destruct (He2 k e' Hk') as (e'' & l' & Hk'' & Hm').
  exists e'', (l ++ l'). split; [done|]. by rewrite Hm', Hm, <- app_assoc.
Qed.

Lemma add_match_kept (m : Match) (s s' : DataSequence) (res : result bool) :
  add_match m s = (s', res) →
  kept s s'
  ∧ (count s ≤ count s')%nat
  ∧ match res with
    | Ok true => (count s < count s')%nat
    | Ok false => elements s' = elements s ∧ match_by_id s' = match_by_id s
    | Raise _ => True
    end.
Proof.
  intros Hrun. pose proof (positions_add_match m s) as [Hp Hv].
  rewrite Hrun in Hp, Hv. simpl in Hp, Hv.
  unfold add_match in Hrun. destruct (dependencies_present m s).
  2: { injection Hrun as <- <-. split; [apply kept_refl|done]. }
  simpl in Hrun.
  pose proof (add_match_loop_grown m (seqZ 0 (size m)) false (set_consolidated false s))
    as (_ & _ & Hreg & Hel).
  rewrite Hrun in Hreg, Hel. simpl in Hreg, Hel. split_and!.
  - split_and!; [done..| |].
    + intros k e Hk. destruct (Hel k e Hk) as (e' & l & ? & ? & _). by exists e', l.
    + intros y Hy. destruct Hreg as [-> | ->]; [done|].
      destruct (decide (y = id m)) as [->|?].
      * rewrite lookup_insert_eq. by eexists.
      * by rewrite lookup_insert_ne.
  - destruct (add_match_loop_outcome _ _ _ _ _ _ Hrun) as [[-> _]|(_ & _ & Hlt & _)];
      [done|]. unfold count, all_matches in *. simpl in Hlt. lia.
  - destruct (add_match_loop_outcome _ _ _ _ _ _ Hrun) as [[-> Hb]|(_ & _ & Hlt & Hb)].
    + destruct res as [[]|]; [|done..]. by specialize (Hb true eq_refl).
    + destruct res as [[]|]; [| |done].
      * unfold count, all_matches in *. simpl in Hlt. lia.
      * by specialize (Hb false eq_refl).
Qed.

(** A pass only adds: whatever its outcome, the positions are the same
    and hold their former matches before the new ones, and every
    registered id is still registered.  Its answer is right: when it
    returns [False] the positions and the registry are exactly as before,
    and when it returns [True] more copies of matches are stored than
    before. *)
Theorem apply_once_answer (ex : Extractor) (r r' : Run) (res : result bool) :
  apply_once ex r = (r', res) →
  kept (run_seq r) (run_seq r')
  ∧ (count (run_seq r) ≤ count (run_seq r'))%nat
  ∧ match res with
    | Ok true => (count (run_seq r) < count (run_seq r'))%nat
    | Ok false => elements (run_seq r') = elements (run_seq r)
                  ∧ match_by_id (run_seq r') = match_by_id (run_seq r)
    | Raise _ => True
    end.
Proof.
  intros Hrun. unfold apply_once in Hrun.
  pose (I := λ (h : bool) (r1 : Run),
          kept (run_seq r) (run_seq r1)
          ∧ (count (run_seq r) ≤ count (run_seq r1))%nat
          ∧ if h then (count (run_seq r) < count (run_seq r1))%nat
            else elements (run_seq r1) = elements (run_seq r)
                 ∧ match_by_id (run_seq r1) = match_by_id (run_seq r)).
  pose (Q := λ (r1 : Run),
          kept (run_seq r) (run_seq r1) ∧ (count (run_seq r) ≤ count (run_seq r1))%nat).
  destruct (apply_positions_inv ex I Q) with (6 := Hrun) as [_ Ho].
  - intros h r1 (Hk & Hc & _). by split.
  - intros h r1 start p v HI _. exact HI.
  - intros h r1 p m s' b (Hk & Hc & Hh) Hadd. unfold I. simpl.
    destruct (add_match_kept _ _ _ _ Hadd) as (Hk' & Hc' & Hb).
    split_and!; [by eapply kept_trans|lia|].
    destruct h, b; simpl; [lia|lia|lia|].
    destruct Hh as [E1 E2], Hb as [E3 E4]. split; congruence.
  - intros h r1 p m s' err (Hk & Hc & Hh) Hadd. unfold Q. simpl.
    destruct (add_match_kept _ _ _ _ Hadd) as (Hk' & Hc' & _).
    split; [by eapply kept_trans|lia].
  - unfold I. split; [apply kept_refl|done].
  - unfold I, Q in Ho. destruct res as [[]|]; simpl in Ho.
    + destruct Ho as (? & ? & ?). done.
    + destruct Ho as (? & ? & ?). done.
    + destruct Ho as (? & ?). done.
Qed.

(** ** Disabled positions *)

Lemma disable_scan_spec (concepts : list string) (ms : list Match) (elem : DataElement) :
  disable_scan concepts ms elem
  = if existsb (λ m, bool_decide (concept m ∈ concepts)) ms
    then {| el_value := el_value elem; matches := matches elem; disabled := true |}
    else elem.
Proof.
  induction ms as [|m ms IH]; simpl; [done|]. by case_bool_decide.
Qed.

(** [disable_elements] sets the flag of every position that holds a match
    with a listed concept and changes nothing else ([concepts] may be one
    concept or a list), and a pass that follows never calls a pattern at a
    position that is disabled or holds a match with a listed concept,
    whether it ends normally or with an exception. *)
Theorem disabled_never_invoked (ex : Extractor) (concepts : string + list string)
    (s : DataSequence) :
  let s1 := (disable_elements concepts s).1 in
  (disable_elements concepts s).2 = Ok tt
  ∧ seq_value s1 = seq_value s
  ∧ match_by_id s1 = match_by_id s
  ∧ seq_extractions s1 = seq_extractions s
  ∧ consolidated s1 = consolidated s
  ∧ elements s1
    = (λ e, {| el_value := el_value e; matches := matches e;
               disabled := disabled e
                           || existsb (λ m, bool_decide (concept m ∈ concept_list concepts))
                                      (matches e) |}) <$> elements s
  ∧ Forall (invoked_where
              (λ e, disabled e = false
                    ∧ ∀ m, m ∈ matches e → concept m ∉ concept_list concepts) s)
           (run_log (apply_once ex {| run_seq := s1; run_log := [] |}).1).
Proof.
  intros s1.
  assert (elements s1
    = (λ e, {| el_value := el_value e; matches := matches e;
               disabled := disabled e
                           || existsb (λ m, bool_decide (concept m ∈ concept_list concepts))
                                      (matches e) |}) <$> elements s) as Hel.
  { unfold s1, disable_elements, concept_list. simpl. apply list_fmap_ext.
    intros k [v ms d] _. rewrite disable_scan_spec. simpl.
    destruct (existsb _ ms); [by rewrite orb_true_r|by rewrite orb_false_r]. }
  split_and!; [done..|].
  pose (ok := λ e, disabled e = false
                   ∧ ∀ m, m ∈ matches e → concept m ∉ concept_list concepts).
  pose (I := λ (h : bool) (r1 : Run),
          positions (run_seq r1) = positions s1
          ∧ Forall (invoked_where ok s) (run_log r1)).
  destruct (apply_once ex {| run_seq := s1; run_log := [] |}) as [r' res] eqn:Hrun.
  unfold apply_once in Hrun.
  destruct (apply_positions_inv ex I (I false)) with (6 := Hrun) as [_ Ho].
  - intros h r1 HI. exact HI.
  - intros h r1 start p v [Hp Hlog] Hen. unfold I. split; [done|]. simpl.
    apply Forall_app. split; [done|]. constructor; [|constructor]. simpl.
    rewrite Hp in Hen. unfold positions in Hen. rewrite Hel in Hen.
    rewrite <- list_fmap_compose, list_lookup_fmap in Hen.
    destruct (elements s !! start) as [e|]; [|done]. simpl in Hen.
    injection Hen as _ [Hd Hex]%orb_false_iff.
    exists e. split; [done|]. split; [done|]. intros m Hm Hc.
    assert (existsb (λ m, bool_decide (concept m ∈ concept_list concepts)) (matches e)
            = true) as Htrue; [|congruence].
    apply existsb_elem_of. exists m. split; [done|]. by apply bool_decide_eq_true.
  - intros h r1 p m s' b [Hp Hlog] Hadd. unfold I. split; simpl.
    + pose proof (positions_add_match m (run_seq r1)) as [Hp' _].
      rewrite Hadd in Hp'. simpl in Hp'. congruence.
    + apply Forall_app. split; [done|]. by repeat constructor.
  - intros h r1 p m s' err [Hp Hlog] Hadd. unfold I. split; simpl.
    + pose proof (positions_add_match m (run_seq r1)) as [Hp' _].
      rewrite Hadd in Hp'. simpl in Hp'. congruence.
    + apply Forall_app. split; [done|]. by repeat constructor.
  - unfold I. split; [done|]. simpl. constructor.
  - simpl. unfold I in Ho. destruct res; apply Ho.
Qed.

(** ** Slots *)

Lemma list_elem_of_concat {A} (x : A) (ls : list (list A)) :
  x ∈ concat ls ↔ ∃ l, x ∈ l ∧ l ∈ ls.
Proof.
  induction ls as [|l ls IH]; simpl.
  { split; [by intros ?%elem_of_nil|]. intros (l & _ & Hl). by apply elem_of_nil in Hl. }
  rewrite elem_of_app, IH. split.
  - intros [?|(l' & ? & ?)]; [exists l|exists l']; (split; [done|]); [left|by right].
  - intros (l' & Hx & [-> |?]%elem_of_cons); [by left|]. right. by exists l'.
Qed.

Lemma get_slots_select_spec (concept_ : string) (hierarchy : option HierarchyProvider)
    (idx : nat) (res : list (Z * Z)) (m : Match) :
  get_slots_select concept_ hierarchy idx res m
  = if decide (listed concept_ hierarchy idx m) then res ++ [slot m] else res.
Proof.
  unfold get_slots_select, listed, slot. case_bool_decide as Hs; simpl.
  2: { rewrite decide_False; [done|]. by intros [? _]. }
  destruct hierarchy as [h|].
  - case_bool_decide as Hp; case_bool_decide as Hc; simpl.
    + rewrite decide_True; [done|]. split; [done|by left].
    + rewrite decide_True; [done|]. split; [done|]. right. by exists h.
    + rewrite decide_True; [done|]. split; [done|by left].
    + rewrite decide_False; [done|]. intros [_ [?|(h' & [= <-] & ?)]]; done.
  - case_bool_decide as Hc; simpl.
    + rewrite decide_True; [done|]. split; [done|by left].
    + rewrite decide_False; [done|]. intros [_ [?|(h' & ? & _)]]; done.
Qed.

Lemma get_slots_fold (concept_ : string) (hierarchy : option HierarchyProvider)
    (l : list (nat * DataElement)) (acc : list (Z * Z)) :
  foldl (λ result ie, foldl (get_slots_select concept_ hierarchy ie.1) result (matches ie.2))
        acc l
  = acc ++ concat ((λ ie, slot <$> filter (listed concept_ hierarchy ie.1) (matches ie.2))
                   <$> l).
Proof.
  revert acc. induction l as [|[k e] l IH]; intros acc; simpl.
  { by rewrite app_nil_r. }
  assert (∀ ms acc,
    foldl (get_slots_select concept_ hierarchy k) acc ms
    = acc ++ (slot <$> filter (listed concept_ hierarchy k) ms)) as Hin.
  { clear. intros ms. induction ms as [|m ms IH]; intros acc; simpl.
    { by rewrite app_nil_r. }
    rewrite IH, get_slots_select_spec, filter_cons. case_decide; [|done].
    by rewrite fmap_cons, <- app_assoc. }
  by rewrite IH, Hin, <- app_assoc.
Qed.

(** [get_slots] lists, position by position and in stored order, the slot
    of every match stored at the position where it starts whose concept is
    the given one or, with a hierarchy, has it among its parents; copies
    of a match at later positions of its span are not listed, and every
    listed slot starts inside the sequence, at or after the ones listed
    before it. *)
Theorem get_slots_spec (concept_ : string) (hierarchy : option HierarchyProvider)
    (s : DataSequence) :
  get_slots concept_ hierarchy s
  = concat ((λ ie, slot <$> filter (listed concept_ hierarchy ie.1) (matches ie.2))
            <$> imap pair (elements s))
  ∧ (∀ a b, (a, b) ∈ get_slots concept_ hierarchy s
            ↔ ∃ k e m, elements s !! k = Some e ∧ m ∈ matches e
                       ∧ listed concept_ hierarchy k m ∧ (a, b) = slot m)
  ∧ (∀ i j x y, (i ≤ j)%nat → get_slots concept_ hierarchy s !! i = Some x →
                get_slots concept_ hierarchy s !! j = Some y →
                0 ≤ x.1 ≤ y.1 ∧ y.1 < Z.of_nat (seq_size s)).
Proof.
  assert (get_slots concept_ hierarchy s
          = concat ((λ ie, slot <$> filter (listed concept_ hierarchy ie.1) (matches ie.2))
                    <$> imap pair (elements s))) as Heq.
  { unfold get_slots. by rewrite get_slots_fold. }
  split; [done|]. rewrite Heq. unfold seq_size. clear Heq. split.
  - intros a b. rewrite list_elem_of_concat. split.
    + intros (l & Hab & (ke & -> & Hke)%list_elem_of_fmap).
      apply elem_of_lookup_imap_1 in Hke as (k & e & -> & Hk). simpl in Hab.
      apply list_elem_of_fmap in Hab as (m & Hm & [Hl Hin]%list_elem_of_filter).
      by exists k, e, m.
    + intros (k & e & m & Hk & Hm & Hl & Hab). eexists. split.
      2: { apply list_elem_of_fmap. exists (k, e). split; [done|].
           by apply (elem_of_lookup_imap_2 pair). }
      simpl. apply list_elem_of_fmap. exists m. split; [done|].
      by apply list_elem_of_filter.
  - assert (∀ (es : list DataElement) (off : nat) i j x y,
      (i ≤ j)%nat →
      concat ((λ ie, slot <$> filter (listed concept_ hierarchy ie.1) (matches ie.2))
              <$> imap (λ k, pair (off + k)%nat) es) !! i = Some x →
      concat ((λ ie, slot <$> filter (listed concept_ hierarchy ie.1) (matches ie.2))
              <$> imap (λ k, pair (off + k)%nat) es) !! j = Some y →
      Z.of_nat off ≤ x.1 ≤ y.1 ∧ y.1 < Z.of_nat (off + length es)) as Hsorted.
    { intros es. induction es as [|e es IH]; intros off i j x y Hij Hi Hj; [done|].
      simpl in Hi, Hj.
      assert (∀ z, z ∈ slot <$> filter (listed concept_ hierarchy (off + 0)%nat) (matches e) →
                   z.1 = Z.of_nat off) as Hhead.
      { intros z (m & -> & [[Hs _] _]%list_elem_of_filter)%list_elem_of_fmap.
        simpl. rewrite Hs. lia. }
      assert (∀ i x,
        concat ((λ ie, slot <$> filter (listed concept_ hierarchy ie.1) (matches ie.2))
                <$> imap (λ k, pair (off + S k)%nat) es) !! i = Some x →
        Z.of_nat (S off) ≤ x.1 < Z.of_nat (off + S (length es))) as Htail.
      { intros i' x' Hx'.
        rewrite (imap_ext _ (λ k, pair (S off + k)%nat)) in Hx'
          by (intros; f_equal; lia).
        destruct (IH (S off) i' i' x' x') as [? ?]; [done..|]. lia. }
      change (imap ((λ k, pair (off + k)%nat) ∘ S) es)
        with (imap (λ k, pair (off + S k)%nat) es) in Hi, Hj.
      apply lookup_app_Some in Hi as [Hi|[Hli Hi]];
        apply lookup_app_Some in Hj as [Hj|[Hlj Hj]].
      + apply list_elem_of_lookup_2 in Hi, Hj. apply Hhead in Hi, Hj. simpl. lia.
      + apply list_elem_of_lookup_2, Hhead in Hi. apply Htail in Hj. simpl. lia.
      + apply lookup_lt_Some in Hj. lia.
      + rewrite (imap_ext _ (λ k, pair (S off + k)%nat)) in Hi, Hj
          by (intros; f_equal; lia).
        match type of Hi with _ !! ?i' = _ => match type of Hj with _ !! ?j' = _ =>
          destruct (IH (S off) i' j' x y) as [? ?]; [lia|done|done|] end end.
        simpl. lia. }
    intros i j x y Hij Hi Hj.
    destruct (Hsorted (elements s) 0%nat i j x y Hij) as [? ?]; [done..|]. simpl in *. lia.
Qed.

Lemma add_match_slot (m : Match) (s s' : DataSequence) (b : bool)
    (hierarchy : option HierarchyProvider) :
  dependencies_present m s = true → 0 ≤ start_idx m → 1 ≤ size m →
  add_match m s = (s', Ok b) →
  slot m ∈ get_slots (concept m) hierarchy s'.
Proof.
  intros Hdeps Hstart Hsize Hrun. unfold add_match in Hrun. rewrite Hdeps in Hrun.
  simpl in Hrun.
  destruct (add_match_loop_covers _ _ _ _ _ _ Hrun 0) as (k & e & Hat & Hc).
  { apply elem_of_seqZ. lia. }
  apply element_at_Some in Hat as [Hk He].
  apply contains_match_spec in Hc as (saved & Hsaved & Hc & Hsz & Hst & _).
  unfold py_norm_index in Hk. rewrite Z.add_0_r in Hk.
  case_bool_decide as Hr; [|case_bool_decide; [lia|done]]. injection Hk as <-.
  unfold get_slots. rewrite get_slots_fold. simpl. apply list_elem_of_concat.
  eexists. split.
  2: { apply list_elem_of_fmap. exists (Z.to_nat (start_idx m), e). split; [done|].
       by apply (elem_of_lookup_imap_2 pair). }
  simpl. apply list_elem_of_fmap. exists saved. split.
  - unfold slot. by rewrite Hst, Hsz.
  - apply list_elem_of_filter. split; [|done]. split; [|by left]. rewrite Hst. lia.
Qed.

(** After [add_match] has returned for a match with stored dependencies,
    a non-negative start index and a positive size, its slot is among the
    slots of its concept, whether it was stored or an equivalent match was
    already there. *)
Theorem get_slots_after_add_match (m : Match) (s s' : DataSequence) (b : bool)
    (hierarchy : option HierarchyProvider) :
  dependencies_present m s = true → 0 ≤ start_idx m → 1 ≤ size m →
  add_match m s = (s', Ok b) →
  slot m ∈ get_slots (concept m) hierarchy s'.
Proof. apply add_match_slot. Qed.

(** ** All the dependencies of a match *)

Lemma py_sorted_set_spec (res : list string) :
  Sorted (λ a b, String.leb a b = true)
         (py_sorted (base.elements (list_to_set res : gset string)))
  ∧ NoDup (py_sorted (base.elements (list_to_set res : gset string)))
  ∧ ∀ x, x ∈ py_sorted (base.elements (list_to_set res : gset string)) ↔ x ∈ res.
Proof.
  unfold py_sorted.
  set (l := base.elements (list_to_set res : gset string)).
  pose proof (StringSort.Permuted_sort l) as Hperm.
  split_and!.
  - apply StringSort.Sorted_sort.
  - rewrite <- Hperm. apply NoDup_elements.
  - intros x. rewrite <- Hperm. unfold l.
    by rewrite elem_of_elements, elem_of_list_to_set.
Qed.

Lemma get_all_dependencies_result (fuel : nat) (m : Match) (s : DataSequence)
    (l : list string) :
  get_all_dependencies fuel m s = Ok l →
  Sorted (λ a b, String.leb a b = true) l
  ∧ NoDup l
  ∧ ∀ x, x ∈ l ↔ depends_on s m x.
Proof.
  revert m l. induction fuel as [|fuel IH]; intros m l Hrun; [done|].
  simpl in Hrun.
  match type of Hrun with context [?f (depends_on_matches m) []] =>
    set (loop := f) in Hrun end.
  assert (∀ deps res res',
    loop deps res = Ok res' →
    ∀ x, x ∈ res'
         ↔ x ∈ res ∨ ∃ d, d ∈ deps
                          ∧ (x = d ∨ ∃ m', match_by_id s !! d = Some m'
                                           ∧ depends_on s m' x)) as Hloop.
  { intros deps. induction deps as [|d deps IHd]; intros res res' Hl x; simpl in Hl.
    { injection Hl as <-. split; [by left|]. intros [?|(d & Hd & _)]; [done|].
      by apply elem_of_nil in Hd. }
    destruct (match_by_id s !! d) as [m'|] eqn:Hreg.
    - destruct (get_all_dependencies fuel m' s) as [more|] eqn:Hmore; [|done].
      destruct (IH m' more Hmore) as (_ & _ & Hin).
      rewrite (IHd _ _ Hl x), !elem_of_app, list_elem_of_singleton, Hin. split.
      + intros [[[?| ->]|?]|(d' & ? & ?)].
        * by left.
        * right. exists d. split; [left|by left].
        * right. exists d. split; [left|]. right. by exists m'.
        * right. exists d'. split; [by right|done].
      + intros [?|(d' & [-> |?]%elem_of_cons & [-> |(m'' & Hreg' & ?)])].
        * by left; left; left.
        * by left; left; right.
        * left; right. rewrite Hreg in Hreg'. by injection Hreg' as <-.
        * right. exists d'. split; [done|by left].
        * right. exists d'. split; [done|]. right. by exists m''.
    - rewrite (IHd _ _ Hl x), !elem_of_app, list_elem_of_singleton. split.
      + intros [[?| ->]|(d' & ? & ?)].
        * by left.
        * right. exists d. split; [left|by left].
        * right. exists d'. split; [by right|done].
      + intros [?|(d' & [-> |?]%elem_of_cons & [-> |(m'' & Hreg' & ?)])].
        * by left; left.
        * by left; right.
        * congruence.
        * right. exists d'. split; [done|by left].
        * right. exists d'. split; [done|]. right. by exists m''. }
  destruct (loop (depends_on_matches m) []) as [res|] eqn:Hres; [|done].
  injection Hrun as <-. destruct (py_sorted_set_spec res) as (Hs & Hn & Hin).
  split_and!; [done..|]. intros x. rewrite Hin, (Hloop _ _ _ Hres x). split.
  - intros [Hx|(d & Hd & [-> |(m' & Hreg & Hx)])].
    + by apply elem_of_nil in Hx.
    + by constructor.
    + by eapply depends_via.
  - intros Hx. right. destruct Hx as [m0 d Hd|m0 d m' x Hd Hreg Hx].
    + exists d. split; [done|by left].
    + exists d. split; [done|]. right. by exists m'.
Qed.

Lemma get_all_dependencies_closure (fuel : nat) (m : Match) (s : DataSequence)
    (l : list string) :
  get_all_dependencies fuel m s = Ok l → ∀ x, x ∈ l ↔ depends_on s m x.
Proof. intros Hrun. by destruct (get_all_dependencies_result _ _ _ _ Hrun) as (_ & _ & ?). Qed.

(** When [get_all_dependencies] returns, its result is sorted, without
    repetition, and holds exactly the ids the match depends on, directly
    or through the registered matches of its dependencies; ids that are
    not registered are listed and not followed. *)
Theorem get_all_dependencies_spec (fuel : nat) (m : Match) (s : DataSequence)
    (l : list string) :
  get_all_dependencies fuel m s = Ok l →
  Sorted (λ a b, String.leb a b = true) l
  ∧ NoDup l
  ∧ ∀ x, x ∈ l ↔ depends_on s m x.
Proof. apply get_all_dependencies_result. Qed.

(** [get_all_dependencies] raises only the [RecursionError] of the
    interpreter, on every sequence and at every recursion depth.  It
    returns when the registered dependencies are well founded: if every
    registered match has dependencies of smaller rank than its id, a
    recursion depth above the ranks of the direct dependencies is
    enough. *)
Theorem get_all_dependencies_returns (m : Match) (s : DataSequence) :
  (∀ fuel err, get_all_dependencies fuel m s = Raise err → err = RecursionError)
  ∧ ∀ (rank : string → nat) (n : nat),
      (∀ d m' d', match_by_id s !! d = Some m' → d' ∈ depends_on_matches m' →
                  (rank d' < rank d)%nat) →
      (∀ d, d ∈ depends_on_matches m → (rank d < n)%nat) →
      ∃ l, get_all_dependencies (S n) m s = Ok l.
Proof.
  split.
  - intros fuel. revert m. induction fuel as [|fuel IH]; intros m err.
    { by intros [= <-]. }
    simpl.
    match goal with |- context [?f (depends_on_matches m) []] => set (loop := f) end.
    assert (∀ deps res, loop deps res = Raise err → err = RecursionError) as Hloop.
    { intros deps. induction deps as [|d deps IHd]; intros res; simpl; [done|].
      destruct (match_by_id s !! d) as [m'|] eqn:Hreg; [|apply IHd].
      destruct (get_all_dependencies fuel m' s) as [more|e] eqn:Hmore; [apply IHd|].
      intros [= <-]. by eapply IH. }
    destruct (loop (depends_on_matches m) []) as [res|e] eqn:Hres; [done|].
    intros [= <-]. by eapply Hloop.
  - intros rank n Hwf. revert m. induction n as [|n IH]; intros m Hm.
    + simpl. destruct (depends_on_matches m) as [|d ?]; [by eexists|].
      assert (rank d < 0)%nat; [|lia]. apply Hm. left.
    + simpl.
      match goal with |- context [?f (depends_on_matches m) []] => set (loop := f) end.
      assert (∀ deps res, (∀ d, d ∈ deps → (rank d < S n)%nat) →
                          ∃ res', loop deps res = Ok res') as Hloop.
      { intros deps. induction deps as [|d deps IHd]; intros res Hd; simpl; [by eexists|].
        destruct (match_by_id s !! d) as [m'|] eqn:Hreg.
        - destruct (IH m') as [more Hmore].
          { intros d' Hd'. pose proof (Hwf d m' d' Hreg Hd').
            assert (rank d < S n)%nat; [|lia]. apply Hd. left. }
          simpl in Hmore. rewrite Hmore. apply IHd. intros d' Hd'. apply Hd. by right.
        - apply IHd. intros d' Hd'. apply Hd. by right. }
      destruct (Hloop (depends_on_matches m) [] Hm) as [res ->]. by eexists.
Qed.

(** ** Listing the matches of the positions *)

Lemma filter_none {A} (P : A → Prop) `{∀ x, Decision (P x)} (l : list A) :
  (∀ x, x ∈ l → ¬ P x) → filter P l = [].
Proof.
  induction l as [|x l IH]; intros Hl; [done|].
  rewrite filter_cons_False by (apply Hl; left). apply IH.
  intros y Hy. apply Hl. by right.
Qed.

Lemma StronglySorted_lookup {A} (R : A → A → Prop) (l : list A) (i j : nat) (a b : A) :
  StronglySorted R l → (i < j)%nat → l !! i = Some a → l !! j = Some b → R a b.
Proof.
  intros Hs. revert i j. induction Hs as [|x l Hl IH Hx]; intros i j Hij Hi Hj; [done|].
  destruct j as [|j]; [lia|]. destruct i as [|i]; simpl in *.
  - injection Hi as <-. rewrite list.Forall_forall in Hx. apply Hx.
    by eapply list_elem_of_lookup_2.
  - eapply IH; [|done..]. lia.
Qed.

Lemma key_ltb_spec (a b : Z * nat) :
  key_ltb a b = true ↔ a.1 < b.1 ∨ (a.1 = b.1 ∧ (a.2 < b.2)%nat).
Proof.
  unfold key_ltb. rewrite orb_true_iff, andb_true_iff, Z.ltb_lt, Z.eqb_eq, Nat.ltb_lt.
  done.
Qed.

Lemma key_ltb_false (a b : Z * nat) :
  key_ltb a b = false ↔ b.1 < a.1 ∨ (a.1 = b.1 ∧ (b.2 ≤ a.2)%nat).
Proof.
  rewrite <- not_true_iff_false, key_ltb_spec. lia.
Qed.

Lemma insert_desc_perm (x : Match) (l : list Match) : insert_desc x l ≡ₚ x :: l.
Proof.
  induction l as [|y l IH]; simpl; [done|].
  destruct (key_ltb (display_key y) (display_key x)); [done|].
  rewrite IH. apply Permutation_swap.
Qed.

Lemma insert_desc_sorted (x : Match) (l : list Match) :
  StronglySorted (λ a b, key_ltb (display_key a) (display_key b) = false) l →
  StronglySorted (λ a b, key_ltb (display_key a) (display_key b) = false)
                 (insert_desc x l).
Proof.
  induction 1 as [|y l Hl IH Hy]; simpl.
  { constructor; constructor. }
  destruct (key_ltb (display_key y) (display_key x)) eqn:E.
  - constructor; [by constructor|]. constructor.
    + apply key_ltb_spec in E. apply key_ltb_false. lia.
    + eapply list.Forall_impl; [exact Hy|]. intros z Hz. simpl in Hz.
      apply key_ltb_spec in E. apply key_ltb_false in Hz. apply key_ltb_false. lia.
  - constructor; [done|]. rewrite insert_desc_perm. by constructor.
Qed.

Lemma insert_desc_stable (x : Match) (l : list Match) (key : Z * nat) :
  StronglySorted (λ a b, key_ltb (display_key a) (display_key b) = false) l →
  filter (λ m, display_key m = key) (insert_desc x l)
  = filter (λ m, display_key m = key) l ++ filter (λ m, display_key m = key) [x].
Proof.
  induction 1 as [|y l Hl IH Hy]; simpl; [done|].
  destruct (key_ltb (display_key y) (display_key x)) eqn:E.
  - rewrite (filter_cons _ x). rewrite (filter_cons _ x []), filter_nil.
    case_decide as Hk; [|by rewrite app_nil_r].
    assert (filter (λ m, display_key m = key) (y :: l) = []) as ->; [|done].
    apply filter_none. intros z Hz Hkz.
    apply key_ltb_spec in E. rewrite <- Hk in Hkz.
    apply elem_of_cons in Hz as [-> |Hz].
    + rewrite Hkz in E. lia.
    + rewrite list.Forall_forall in Hy. specialize (Hy z Hz). simpl in Hy.
      apply key_ltb_false in Hy. rewrite Hkz in Hy. lia.
  - rewrite !(filter_cons _ y), IH. by case_decide.
Qed.

Lemma py_sorted_desc_spec (l : list Match) :
  py_sorted_desc l ≡ₚ l
  ∧ StronglySorted (λ a b, key_ltb (display_key a) (display_key b) = false)
                   (py_sorted_desc l)
  ∧ ∀ key, filter (λ m, display_key m = key) (py_sorted_desc l)
           = filter (λ m, display_key m = key) l.
Proof.
  unfold py_sorted_desc.
  assert (∀ acc,
    StronglySorted (λ a b, key_ltb (display_key a) (display_key b) = false) acc →
    foldl (λ sorted x, insert_desc x sorted) acc l ≡ₚ acc ++ l
    ∧ StronglySorted (λ a b, key_ltb (display_key a) (display_key b) = false)
                     (foldl (λ sorted x, insert_desc x sorted) acc l)
    ∧ ∀ key, filter (λ m, display_key m = key)
                    (foldl (λ sorted x, insert_desc x sorted) acc l)
             = filter (λ m, display_key m = key) acc
               ++ filter (λ m, display_key m = key) l) as Hfold.
  { induction l as [|x l IH]; intros acc Hacc; simpl.
    { rewrite app_nil_r. split_and!; [done..|]. intros key. by rewrite app_nil_r. }
    destruct (IH (insert_desc x acc)) as (Hp & Hs & Hst); [by apply insert_desc_sorted|].
    split_and!; [|done|].
    - rewrite Hp, insert_desc_perm. simpl. apply Permutation_middle.
    - intros key. rewrite Hst, insert_desc_stable by done.
      by rewrite <- app_assoc, <- list.filter_app. }
  destruct (Hfold []) as (Hp & Hs & Hst); [constructor|]. done.
Qed.

(** [to_list] has one row per position; the row of a position lists the
    concept and the value of each of its matches, once for each stored
    copy, largest size first and, among equal sizes, longest concept name
    first; matches with the same size and the same length of concept name
    keep the order in which they are stored. *)
Theorem to_list_spec (s : DataSequence) :
  length (to_list s) = seq_size s
  ∧ ∀ k e, elements s !! k = Some e →
      ∃ ms, to_list s !! k = Some ((λ m, (concept m, value m)) <$> ms)
            ∧ ms ≡ₚ matches e
            ∧ (∀ i j a b, (i < j)%nat → ms !! i = Some a → ms !! j = Some b →
                 size b < size a
                 ∨ (size a = size b
                    ∧ (py_len (concept b) ≤ py_len (concept a))%nat))
            ∧ ∀ sz len,
                filter (λ m, size m = sz ∧ py_len (concept m) = len) ms
                = filter (λ m, size m = sz ∧ py_len (concept m) = len)
                         (matches e).
Proof.
  unfold to_list, seq_size. split; [by rewrite length_fmap|].
  intros k e Hk. exists (py_sorted_desc (matches e)).
  destruct (py_sorted_desc_spec (matches e)) as (Hp & Hs & Hst).
  rewrite list_lookup_fmap, Hk. split_and!; [done..| |].
  - intros i j a b Hij Hi Hj.
    pose proof (StronglySorted_lookup _ _ i j a b Hs Hij Hi Hj) as Hab. simpl in Hab.
    apply key_ltb_false in Hab. simpl in Hab. lia.
  - intros sz len. specialize (Hst (sz, len)).
    etrans; [|etrans; [exact Hst|]]; apply filter_ext_elem_of; intros m _;
      unfold display_key; split.
    + by intros [-> ->].
    + by intros [= -> ->].
    + by intros [= -> ->].
    + by intros [-> ->].
Qed.

(** ** Importance *)

(** [get_match_importance] never returns a positive number: it returns 0
    when no stored match lists the id as a dependency, and raises
    [AttributeError] as soon as one does. *)
Theorem get_match_importance_spec (x : string) (s : DataSequence) :
  ((∀ m, m ∈ all_matches s → x ∉ depends_on_matches m) →
   get_match_importance x s = Ok 0%nat)
  ∧ (∀ m, m ∈ all_matches s → x ∈ depends_on_matches m →
          get_match_importance x s = Raise AttributeError)
  ∧ ∀ n, get_match_importance x s = Ok n → n = 0%nat.
Proof.
  unfold get_match_importance.
  destruct (get_dependant_matches_spec x s) as [Hnone Hsome].
  destruct (decide (dependants x s = [])) as [Hd|Hd].
  - rewrite (Hnone Hd). split_and!; [done| |by intros n [= <-]].
    intros m Hm Hdep. exfalso.
    assert (id m ∈ dependants x s) as Hin; [|rewrite Hd in Hin; by apply elem_of_nil in Hin].
    apply elem_of_dependants. by exists m.
  - rewrite (Hsome Hd). split_and!; [|done|done].
    intros Hno. exfalso. apply Hd. destruct (dependants x s) as [|y l] eqn:E; [done|].
    assert (y ∈ dependants x s) as Hin by (rewrite E; left).
    apply elem_of_dependants in Hin as (m & Hm & _ & Hdep). by destruct (Hno m Hm).
Qed.

(** ** Adding twice *)

Lemma kept_all_matches (s s' : DataSequence) (m : Match) :
  kept s s' → m ∈ all_matches s → m ∈ all_matches s'.
Proof.
  intros (_ & _ & Hel & _). rewrite !elem_of_all_matches.
  intros (e & [k Hk]%list_elem_of_lookup_1 & Hm).
  destruct (Hel k e Hk) as (e' & l & Hk' & Heq). exists e'. split.
  - by eapply list_elem_of_lookup_2.
  - rewrite Heq. apply elem_of_app. by left.
Qed.

(** [add_match] is idempotent: once it has returned for a match, adding
    the same match again returns [False] and changes nothing. *)
Theorem add_match_idempotent (m : Match) (s s' : DataSequence) (b : bool) :
  add_match m s = (s', Ok b) → add_match m s' = (s', Ok false).
Proof.
  intros Hrun. destruct (add_match_kept _ _ _ _ Hrun) as (Hkept & _ & _).
  unfold add_match in *. destruct (dependencies_present m s) eqn:Hd; simpl in Hrun.
  - assert (dependencies_present m s' = true) as ->.
    { apply dependencies_present_spec. intros d Hin.
      rewrite dependencies_present_spec in Hd.
      specialize (Hd d Hin). apply elem_of_get_all_match_ids in Hd as (m0 & Hm0 & Hid).
      apply elem_of_get_all_match_ids. exists m0. split; [|done].
      by eapply kept_all_matches. }
    simpl.
    pose proof (add_match_loop_grown m (seqZ 0 (size m)) false (set_consolidated false s))
      as (_ & Hc & _).
    rewrite Hrun in Hc. simpl in Hc. rewrite (set_consolidated_id s' false Hc).
    apply add_match_loop_all_old. by eapply add_match_loop_covers.
  - injection Hrun as <- <-. by rewrite Hd.
Qed.

(** ** Finalizing a state *)

Lemma propagate_weight_missing (s : DataSequence) (deps : list string) (w : Qc) :
  (∃ d, d ∈ deps ∧ match_by_id s !! d = None) → propagate_weight s deps w = Raise KeyError.
Proof.
  revert w. induction deps as [|d deps IH]; intros w (d' & Hin & Hnone); simpl.
  { by apply elem_of_nil in Hin. }
  destruct (match_by_id s !! d) as [m|] eqn:E; [|done].
  apply IH. exists d'. split; [|done].
  apply elem_of_cons in Hin as [-> |?]; [congruence|done].
Qed.

(** [get_matches] raises [KeyError] exactly when a dependency of the state
    is not registered, and otherwise [TypeError] exactly when the span of
    the state is not set.  On a sequence whose registry has the stored ids
    as keys, the main match it returns passes the dependency check of
    [add_match]; it is followed by one assumed match per assumption, each
    depending on the main match alone, and these pass the check once the
    main match has been added. *)
Theorem get_matches_addable (st : MatchState) (s : DataSequence) (c : string)
    (w : Qc) (ids : nat → string) :
  (get_matches st s c w ids = Raise KeyError
   ↔ ∃ d, d ∈ st_depends_on_matches st ∧ match_by_id s !! d = None)
  ∧ (get_matches st s c w ids = Raise TypeError
     ↔ (∀ d, d ∈ st_depends_on_matches st → is_Some (match_by_id s !! d))
       ∧ (sequence_start_idx st = None ∨ sequence_end_idx st = None))
  ∧ ∀ ms, get_matches st s c w ids = Ok ms →
      ∃ main rest,
        ms = main :: rest
        ∧ concept main = c
        ∧ id main = ids 0%nat
        ∧ sequence_start_idx st = Some (start_idx main)
        ∧ sequence_end_idx st = Some (start_idx main + size main)
        ∧ length rest = length (assumptions st)
        ∧ (∀ a, a ∈ rest → assumed a = true ∧ depends_on_matches a = [id main])
        ∧ (consistent s →
           dependencies_present main s = true
           ∧ ∀ s' a, add_match main s = (s', Ok true) → a ∈ rest →
                     dependencies_present a s' = true).
Proof.
  destruct (decide (Exists (λ d, match_by_id s !! d = None) (st_depends_on_matches st)))
    as [Hex|Hall].
  - apply list.Exists_exists in Hex. unfold get_matches.
    rewrite (propagate_weight_missing s _ w Hex). split_and!; [done| |done].
    split; [done|]. intros [Hreg _]. destruct Hex as (d & Hd & Hnone).
    destruct (Hreg d Hd) as [m Hm]. congruence.
  - assert (∀ d, d ∈ st_depends_on_matches st → is_Some (match_by_id s !! d)) as Hreg.
    { intros d Hd. destruct (match_by_id s !! d) eqn:E; [by eexists|].
      exfalso. apply Hall, list.Exists_exists. by exists d. }
    destruct (propagate_weight_spec s (st_depends_on_matches st) w) as (w' & Hw & _).
    { intros d Hd. apply elem_of_dom. by apply Hreg. }
    unfold get_matches. rewrite Hw.
    destruct (sequence_end_idx st) as [e|] eqn:He, (sequence_start_idx st) as [b|] eqn:Hb.
    2-4: split_and!; [split; [done|];
                      intros (d & Hd & Hnone); destruct (Hreg d Hd); congruence
                     |split; [auto|done]
                     |done].
    split_and!.
    + split; [done|]. intros (d & Hd & Hnone). destruct (Hreg d Hd). congruence.
    + split; [done|]. intros [_ [?|?]]; done.
    + intros ms [= <-]. eexists _, _. split; [done|]. simpl.
      split_and!; [done|done|done|f_equal; lia|by rewrite length_imap| |].
      * intros a (i & asmp & -> & _)%elem_of_lookup_imap_1. done.
      * intros Hcons.
        match goal with |- dependencies_present ?main s = true ∧ _ =>
          set (main_match := main) end.
        split.
        { apply dependencies_present_spec. intros d Hd. simpl in Hd.
          rewrite <- Hcons. apply elem_of_dom. by apply Hreg. }
        intros s' a Hadd (i & asmp & -> & _)%elem_of_lookup_imap_1.
        apply dependencies_present_spec. simpl. intros d ->%list_elem_of_singleton.
        apply add_match_true in Hadd as [_ Hloop].
        destruct (add_match_loop_outcome _ _ _ _ _ _ Hloop)
          as [[_ Hb']|(_ & Hin & _)]; [by specialize (Hb' true eq_refl)|].
        apply elem_of_get_all_match_ids. by exists main_match.
Qed.

(** ** What [add_match] stores, exactly *)

Lemma add_match_loop_exact (m : Match) (idxs : list Z) (b b' : bool)
    (s s' : DataSequence) :
  add_match_loop m idxs b s = (s', Ok b') →
  length (elements s') = length (elements s)
  ∧ (∀ k e, elements s !! k = Some e →
       ((∃ idx, idx ∈ idxs
                ∧ py_norm_index (length (elements s)) (start_idx m + idx) = Some k)
        ∧ contains_match e m = false →
        elements s' !! k = Some (set_matches (λ l, l ++ [m]) e))
       ∧ (¬ ((∃ idx, idx ∈ idxs
                     ∧ py_norm_index (length (elements s)) (start_idx m + idx) = Some k)
             ∧ contains_match e m = false) →
          elements s' !! k = Some e))
  ∧ ((b' = true ∧ match_by_id s' = <[id m := m]> (match_by_id s)
      ∧ ∃ k e idx, elements s !! k = Some e ∧ idx ∈ idxs
                   ∧ py_norm_index (length (elements s)) (start_idx m + idx) = Some k
                   ∧ contains_match e m = false)
     ∨ (b' = b ∧ match_by_id s' = match_by_id s
        ∧ ∀ k e idx, elements s !! k = Some e → idx ∈ idxs →
                     py_norm_index (length (elements s)) (start_idx m + idx) = Some k →
                     contains_match e m = true)).
Proof.
  revert b s. induction idxs as [|i rest IH]; intros b s Hrun.
  { injection Hrun as <- <-. split_and!; [done| |].
    - intros k e Hk. split; [|done]. intros [(idx & Hin & _) _]. by apply elem_of_nil in Hin.
    - right. split_and!; [done..|]. intros k e idx _ Hin. by apply elem_of_nil in Hin. }
  destruct (element_at s (start_idx m + i)) as [[k0 e0]|] eqn:Hat.
  2: { by rewrite add_match_loop_out in Hrun. }
  pose proof Hat as [Hn0 Hk0]%element_at_Some.
  destruct (contains_match e0 m) eqn:Hc.
  - rewrite (add_match_loop_old _ _ _ _ _ _ _ Hat Hc) in Hrun.
    destruct (IH _ _ Hrun) as (Hlen & Hel & Hreg). split_and!; [done| |].
    + intros k e Hk. destruct (Hel k e Hk) as [Hyes Hno]. split.
      * intros [(idx & [-> |Hin]%elem_of_cons & Hn) Hce].
        { rewrite Hn0 in Hn. injection Hn as <-. congruence. }
        apply Hyes. split; [by exists idx|done].
      * intros Hnot. apply Hno. intros [(idx & Hin & Hn) Hce]. apply Hnot.
        split; [|done]. exists idx. split; [by right|done].
    + destruct Hreg as [(-> & Hr & k & e & idx & Hk & Hin & Hn & Hce)|(-> & Hr & Hall)].
      * left. split_and!; [done..|]. exists k, e, idx. split_and!; [done| |done..]. by right.
      * right. split_and!; [done..|]. intros k e idx Hk [-> |Hin]%elem_of_cons Hn.
        { rewrite Hn0 in Hn. injection Hn as <-. congruence. }
        by eapply Hall.
  - rewrite (add_match_loop_new _ _ _ _ _ _ _ Hat Hc) in Hrun.
    destruct (IH _ _ Hrun) as (Hlen & Hel & Hreg).
    assert (length (elements (add_here m k0 e0 s)) = length (elements s)) as Hlen1.
    { unfold add_here. simpl. apply length_insert. }
    rewrite Hlen1 in Hlen, Hel, Hreg.
    assert (elements (add_here m k0 e0 s) !! k0
            = Some (set_matches (λ l, l ++ [m]) e0)) as Hnew.
    { unfold add_here. simpl. apply list_lookup_insert_eq. by eapply lookup_lt_Some. }
    assert (contains_match (set_matches (λ l, l ++ [m]) e0) m = true) as Hcnew.
    { apply contains_match_spec. exists m. split; [|apply equivalent_refl].
      simpl. apply elem_of_app. right. left. }
    split_and!; [done| |].
    + intros k e Hk. destruct (decide (k = k0)) as [-> |Hne].
      * rewrite Hk0 in Hk. injection Hk as <-.
        destruct (Hel k0 _ Hnew) as [_ Hno]. split.
        -- intros _. apply Hno. intros [_ ?]. congruence.
        -- intros Hnot. exfalso. apply Hnot. split; [|done]. exists i. split; [left|done].
      * assert (elements (add_here m k0 e0 s) !! k = Some e) as Hk1.
        { unfold add_here. simpl. by rewrite list_lookup_insert_ne. }
        destruct (Hel k e Hk1) as [Hyes Hno]. split.
        -- intros [(idx & [-> |Hin]%elem_of_cons & Hn) Hce]; [congruence|].
           apply Hyes. split; [by exists idx|done].
        -- intros Hnot. apply Hno. intros [(idx & Hin & Hn) Hce]. apply Hnot.
           split; [|done]. exists idx. split; [by right|done].
    + left.
      assert (match_by_id (add_here m k0 e0 s) = <[id m := m]> (match_by_id s)) as Hr1
        by done.
      split_and!.
      * by destruct Hreg as [(-> & _)|(-> & _)].
      * destruct Hreg as [(_ & -> & _)|(_ & -> & _)]; rewrite Hr1; [|done].
        apply insert_insert_eq.
      * exists k0, e0, i. split_and!; [done|left|done|done].
Qed.

(** [add_match], for a match whose dependencies are stored and whose
    span lies in the sequence, in closed form: the match is appended at
    the positions of its span that hold no equivalent match, once each,
    and nowhere else; the answer is [True] exactly when there is such a
    position, and then the match is registered under its id; otherwise
    the registry is unchanged.  The sequence is left stale; the text and
    the captures are untouched. *)
Theorem add_match_exact (m : Match) (s s' : DataSequence) (b : bool) :
  dependencies_present m s = true →
  add_match m s = (s', Ok b) →
  seq_value s' = seq_value s
  ∧ seq_extractions s' = seq_extractions s
  ∧ consolidated s' = false
  ∧ elements s'
    = imap (λ k e, if decide (in_span m (length (elements s)) k
                              ∧ contains_match e m = false)
                   then set_matches (λ l, l ++ [m]) e else e)
           (elements s)
  ∧ (b = true ↔ ∃ k e, elements s !! k = Some e
                       ∧ in_span m (length (elements s)) k
                       ∧ contains_match e m = false)
  ∧ match_by_id s' = if b then <[id m := m]> (match_by_id s) else match_by_id s.
Proof.
  intros Hdeps Hrun.
  pose proof (positions_add_match m s) as [_ Hv]. rewrite Hrun in Hv. simpl in Hv.
  unfold add_match in Hrun. rewrite Hdeps in Hrun. simpl in Hrun.
  assert (seq_extractions s' = seq_extractions s) as Hx.
  { pose proof (add_match_loop_inv m (λ s1, seq_extractions s1 = seq_extractions s)
                  (λ s1 k e H1 _ _, H1)
                  (seqZ 0 (size m)) false (set_consolidated false s) eq_refl) as Hx.
    by rewrite Hrun in Hx. }
  pose proof (add_match_loop_grown m (seqZ 0 (size m)) false (set_consolidated false s))
    as (_ & Hc & _).
  rewrite Hrun in Hc. simpl in Hc.
  destruct (add_match_loop_exact _ _ _ _ _ _ Hrun) as (Hlen & Hel & Hreg).
  simpl in Hlen, Hel, Hreg.
  assert (∀ k, in_span m (length (elements s)) k
               ↔ ∃ idx, idx ∈ seqZ 0 (size m)
                        ∧ py_norm_index (length (elements s)) (start_idx m + idx) = Some k)
    as Hspan.
  { intros k. unfold in_span. by rewrite list.Exists_exists. }
  split_and!; [done|done|done| | |].
  - apply list_eq. intros k. rewrite list_lookup_imap.
    destruct (elements s !! k) as [e|] eqn:Hk; simpl.
    + destruct (Hel k e Hk) as [Hyes Hno]. case_decide as Hd.
      * apply Hyes. by rewrite <- Hspan.
      * apply Hno. by rewrite <- Hspan.
    + apply lookup_ge_None. rewrite Hlen. by apply lookup_ge_None.
  - destruct Hreg as [(-> & _ & k & e & idx & Hk & Hin & Hn & Hce)|(-> & _ & Hall)].
    + split; [|done]. intros _. exists k, e. split_and!; [done| |done].
      apply Hspan. by exists idx.
    + split; [done|]. intros (k & e & Hk & (idx & Hin & Hn)%Hspan & Hce).
      rewrite (Hall k e idx Hk Hin Hn) in Hce. done.
  - by destruct Hreg as [(-> & -> & _)|(-> & -> & _)].
Qed.

(** ** Adding a concept by its span *)

Lemma py_chars_cons (a : Ascii.ascii) (rest t : string) :
  all_continuation rest = true → starts_char t →
  py_chars (String a (String.append rest t)) = String a rest :: py_chars t.
Proof.
  revert a. induction rest as [|c rest IH]; intros a Hrest Ht.
  - destruct t as [|b t]; [done|]. simpl in Ht. simpl. by rewrite Ht.
  - simpl in Hrest. apply andb_true_iff in Hrest as [Hc Hrest].
    change (py_chars (String a (String.append (String c rest) t)))
      with (if is_continuation c
            then match py_chars (String c (String.append rest t)) with
                 | ch :: chars => String a ch :: chars
                 | [] => [String a EmptyString]
                 end
            else String a EmptyString :: py_chars (String c (String.append rest t))).
    by rewrite Hc, (IH c Hrest Ht).
Qed.

Lemma py_chars_head (s : string) :
  match s with
  | EmptyString => py_chars s = []
  | String a _ =>
      ∃ r chars, py_chars s = String a r :: chars
                 ∧ all_continuation r = true
                 ∧ Forall (λ c, is_char c ∧ starts_char c) chars
  end.
Proof.
  induction s as [|a rest IH]; [done|].
  destruct rest as [|b rest].
  { exists EmptyString, []. by split_and!. }
  destruct IH as (r & chars & Heq & Hr & Hchars).
  change (py_chars (String a (String b rest)))
    with (if is_continuation b
          then match py_chars (String b rest) with
               | ch :: chars => String a ch :: chars
               | [] => [String a EmptyString]
               end
          else String a EmptyString :: py_chars (String b rest)).
  rewrite Heq. destruct (is_continuation b) eqn:Hb.
  - exists (String b r), chars. split_and!; [done| |done]. simpl. by rewrite Hb, Hr.
  - exists EmptyString, (String b r :: chars). split_and!; [done..|].
    constructor; [|done]. by split.
Qed.

Lemma py_chars_ok (s : string) : chars_ok (py_chars s).
Proof.
  pose proof (py_chars_head s) as H. destruct s as [|a rest]; [by rewrite H|].
  destruct H as (r & chars & -> & Hr & Hchars). by split.
Qed.

Lemma starts_char_join (chars : list string) :
  Forall (λ c, is_char c ∧ starts_char c) chars → starts_char (py_join chars).
Proof.
  destruct 1 as [|ch chars [Hc Hs] _]; [done|].
  simpl. by destruct ch.
Qed.

Lemma py_chars_join (chars : list string) : chars_ok chars → py_chars (py_join chars) = chars.
Proof.
  assert (∀ l, Forall (λ c, is_char c ∧ starts_char c) l → py_chars (py_join l) = l)
    as Htail.
  { induction 1 as [|ch l [Hc Hs] Hl IH]; [done|].
    destruct ch as [|a r]; [done|]. simpl in Hc.
    change (py_join (String a r :: l)) with (String a (String.append r (py_join l))).
    rewrite py_chars_cons; [by rewrite IH|done|by apply starts_char_join]. }
  destruct chars as [|ch chars]; [done|]. intros [Hc Hchars].
  destruct ch as [|a r]; [done|]. simpl in Hc.
  change (py_join (String a r :: chars)) with (String a (String.append r (py_join chars))).
  rewrite py_chars_cons; [by rewrite Htail|done|by apply starts_char_join].
Qed.

Lemma chars_ok_segment (chars : list string) (lo k : nat) :
  chars_ok chars → chars_ok (take k (drop lo chars)).
Proof.
  assert (∀ l, chars_ok l → ∀ k, chars_ok (take k l)) as Htake.
  { intros [|ch l] Hl [|k']; try done. destruct Hl as [Hc Hl]. split; [done|].
    by apply Forall_take. }
  assert (∀ l : list string, Forall (λ c, is_char c ∧ starts_char c) l → chars_ok l)
    as Hweak.
  { intros [|ch l] Hl; [done|]. apply list.Forall_cons in Hl as [[? _] Hl].
    split; [done|]. done. }
  intros Hok. apply Htake. destruct lo as [|lo]; [done|].
  destruct chars as [|ch chars]; [done|]. destruct Hok as [_ Hchars].
  simpl. apply Hweak. by apply Forall_drop.
Qed.

(** A slice inside the string has as many characters as its bounds say. *)
Lemma py_slice_length (t : string) (a b : Z) :
  0 ≤ a → a ≤ b → b ≤ Z.of_nat (py_len t) →
  Z.of_nat (py_len (py_slice t (Some a) (Some b))) = b - a.
Proof.
  intros Ha Hab Hb. unfold py_len in *. unfold py_slice, py_clamp. simpl.
  rewrite !bool_decide_eq_false_2 by lia.
  rewrite py_chars_join by (apply chars_ok_segment, py_chars_ok).
  rewrite length_take, length_drop. lia.
Qed.

(** [add_concept] builds a match without dependencies, so the dependency
    check of [add_match] never turns it down: when it returns [False] an
    equivalent match covers every position of the span.  The value of the
    match is the text of its span; when the span lies in the text it has
    [size] characters.  Once the call has returned for a span that starts
    at a non-negative index and is not empty, the span is among the slots
    of the concept. *)
Theorem add_concept_spec (c : string) (start sz : Z) (w : Qc) (new_id : string)
    (s s' : DataSequence) (b : bool) :
  add_concept c start sz w new_id s = (s', Ok b) →
  let m := {| concept := c;
              value := py_slice (seq_value s) (Some start) (Some (start + sz));
              size := sz; start_idx := start; id := new_id; assumed := false;
              depends_on_matches := []; extractions := ∅; structure := [];
              weight := w |} in
  (b = true → match_by_id s' !! new_id = Some m ∧ m ∈ all_matches s')
  ∧ (∀ idx, 0 ≤ idx < sz →
       ∃ k e saved, element_at s' (start + idx) = Some (k, e) ∧ saved ∈ matches e
                    ∧ concept saved = c ∧ size saved = sz ∧ start_idx saved = start)
  ∧ (0 ≤ start → 0 ≤ sz → start + sz ≤ Z.of_nat (py_len (seq_value s)) →
     Z.of_nat (py_len (value m)) = sz)
  ∧ (0 ≤ start → 1 ≤ sz → ∀ hierarchy, (start, start + sz) ∈ get_slots c hierarchy s').
Proof.
  intros Hrun m. unfold add_concept in Hrun. fold m in Hrun.
  assert (dependencies_present m s = true) as Hdeps.
  { apply dependencies_present_spec. intros d Hd. by apply elem_of_nil in Hd. }
  pose proof Hrun as Hloop. unfold add_match in Hloop. rewrite Hdeps in Hloop.
  simpl in Hloop. split_and!.
  - intros ->.
    destruct (add_match_loop_outcome _ _ _ _ _ _ Hloop)
      as [[_ Hb]|(Hreg & Hin & _)]; [by specialize (Hb true eq_refl)|done].
  - intros idx Hidx.
    destruct (add_match_loop_covers _ _ _ _ _ _ Hloop idx) as (k & e & Hat & Hc).
    { apply elem_of_seqZ. simpl. lia. }
    apply contains_match_spec in Hc as (saved & Hsaved & Hc & Hsz & Hst & _).
    by exists k, e, saved.
  - intros Hs Hz Hlen. simpl. rewrite py_slice_length by lia. lia.
  - intros Hs Hz hierarchy. by apply (add_match_slot m s s' b hierarchy).
Qed.

(** ** The structure of a state *)

Lemma dict_get_set (key key' : string) (v : PyVal) (d : list (string * PyVal)) :
  dict_get key' (dict_set key v d)
  = if decide (key' = key) then Some v else dict_get key' d.
Proof.
  induction d as [|[k w] d IH]; simpl.
  - case_bool_decide; case_decide; congruence.
  - case_bool_decide as Hk; simpl.
    + subst k. case_bool_decide; case_decide; congruence.
    + rewrite IH. case_bool_decide; case_decide; congruence.
Qed.

Lemma dict_set_keys (key : string) (v : PyVal) (d : list (string * PyVal)) :
  (dict_set key v d).*1
  = match dict_get key d with Some _ => d.*1 | None => d.*1 ++ [key] end.
Proof.
  induction d as [|[k w] d IH]; [done|].
  cbn [dict_set dict_get]. case_bool_decide as Hk; [done|].
  rewrite !fmap_cons, IH. by destruct (dict_get key d).
Qed.

(** [add_data] never drops a value: the other keys and the order of the
    keys are untouched, a new key comes last, and under its key the value
    is stored alone (in a one-element list with [many]) when the key is
    new, and otherwise appended to what was there, a value that was not a
    list becoming the first item; a key that is present is treated the
    same with and without [many]. *)
Theorem add_data_spec (key : string) (v : PyVal) (many : bool) (st : MatchState) :
  let st' := add_data key v many st in
  (∀ key', key' ≠ key →
           dict_get key' (st_structure st') = dict_get key' (st_structure st))
  ∧ dict_get key (st_structure st')
    = Some match dict_get key (st_structure st) with
           | None => if many then PyList [v] else v
           | Some (PyList l) => PyList (l ++ [v])
           | Some old => PyList [old; v]
           end
  ∧ (st_structure st').*1
    = match dict_get key (st_structure st) with
      | Some _ => (st_structure st).*1
      | None => (st_structure st).*1 ++ [key]
      end
  ∧ (dict_get key (st_structure st) ≠ None →
     add_data key v true st = add_data key v false st)
  ∧ sequence_idx st' = sequence_idx st ∧ pattern_idx st' = pattern_idx st
  ∧ sequence_start_idx st' = sequence_start_idx st
  ∧ sequence_end_idx st' = sequence_end_idx st
  ∧ st_extractions st' = st_extractions st ∧ assumptions st' = assumptions st
  ∧ st_depends_on_matches st' = st_depends_on_matches st.
Proof.
  intros st'. unfold st', add_data.
  destruct (dict_get key (st_structure st)) as [old|] eqn:Hold; simpl.
  - split_and!; try done.
    + intros key' Hne. by rewrite dict_get_set, decide_False.
    + rewrite dict_get_set, decide_True by done. by destruct old.
    + by rewrite dict_set_keys, Hold.
  - split_and!; try done.
    + intros key' Hne. by rewrite dict_get_set, decide_False.
    + by rewrite dict_get_set, decide_True.
    + by rewrite dict_set_keys, Hold.
Qed.

(** ** Cleaning around a main match *)

Lemma without_lookup_Some (L : list string) (s s' : DataSequence) (y : string) (m : Match) :
  without L s s' → match_by_id s' !! y = Some m → match_by_id s !! y = Some m.
Proof.
  intros (_ & _ & _ & Hr) Hy. rewrite Hr in Hy. by case_decide.
Qed.

Lemma without_lookup_None (L : list string) (s s' : DataSequence) (y : string) :
  without L s s' → match_by_id s' !! y = None → is_Some (match_by_id s !! y) → y ∈ L.
Proof.
  intros (_ & _ & _ & Hr) Hy [m Hm]. rewrite Hr in Hy.
  case_decide as Hd; [by destruct Hd|congruence].
Qed.

Lemma cascade_app (La Lb : list string) (s sa s' : DataSequence) :
  without La s sa → without Lb sa s' →
  (∀ m d, m ∈ all_matches s → d ∈ depends_on_matches m → d ∈ La → id m ∈ La) →
  (∀ m, m ∈ all_matches s → id m ∈ La → id m ∉ depends_on_matches m) →
  (∀ m d, m ∈ all_matches sa → d ∈ depends_on_matches m → d ∈ Lb → id m ∈ Lb) →
  (∀ m, m ∈ all_matches sa → id m ∈ Lb → id m ∉ depends_on_matches m) →
  without (La ++ Lb) s s'
  ∧ (∀ m d, m ∈ all_matches s → d ∈ depends_on_matches m → d ∈ La ++ Lb →
            id m ∈ La ++ Lb)
  ∧ (∀ m, m ∈ all_matches s → id m ∈ La ++ Lb → id m ∉ depends_on_matches m).
Proof.
  intros Hwa Hwb Hcla Hnsa Hclb Hnsb.
  pose proof (without_all_matches La s sa) as Hall.
  split_and!.
  - by eapply without_app.
  - intros m d Hm Hd [HLa|HLb]%elem_of_app; apply elem_of_app.
    { left. by eapply Hcla. }
    destruct (decide (id m ∈ La)) as [?|Hout]; [by left|]. right.
    eapply Hclb; [|done..]. apply (Hall m Hwa). split; [done|by left].
  - intros m Hm [HLa|HLb]%elem_of_app; [by apply Hnsa|].
    destruct (decide (id m ∈ depends_on_matches m)) as [Hself|?]; [|done].
    apply Hnsb; [|done]. apply (Hall m Hwa). split; [done|by right].
Qed.

Lemma clean_matches_loop_trace (fuel : nat) (start end_ : Z) (l : list string)
    (s s' : DataSequence) :
  for_each (clean_matches_step fuel start end_) l s = (s', Ok tt) →
  ∃ L, without L s s'
       ∧ (∀ x, x ∈ l → in_clean_span start end_ s x → x ∈ L)
       ∧ (∀ y, y ∈ L → ∃ x, x ∈ l ∧ in_clean_span start end_ s x ∧ revoked_id s x y)
       ∧ (∀ m d, m ∈ all_matches s → d ∈ depends_on_matches m → d ∈ L → id m ∈ L)
       ∧ (∀ m, m ∈ all_matches s → id m ∈ L → id m ∉ depends_on_matches m).
Proof.
  revert s. induction l as [|x l IH]; intros s Hrun.
  { injection Hrun as <-. exists []. split_and!; [apply without_nil| | | |].
    - intros x Hx. by apply elem_of_nil in Hx.
    - intros y Hy. by apply elem_of_nil in Hy.
    - intros m d _ _ Hd. by apply elem_of_nil in Hd.
    - intros m _ Hd. by apply elem_of_nil in Hd. }
  apply for_each_cons_Ok in Hrun as (sa & Hstep & Hrun).
  destruct (IH sa Hrun) as (Lb & Hwb & Hrootb & Hsoundb & Hclb & Hnsb).
  assert (∃ La, without La s sa
                ∧ (in_clean_span start end_ s x → x ∈ La)
                ∧ (∀ y, y ∈ La → in_clean_span start end_ s x ∧ revoked_id s x y)
                ∧ (∀ m d, m ∈ all_matches s → d ∈ depends_on_matches m → d ∈ La →
                          id m ∈ La)
                ∧ (∀ m, m ∈ all_matches s → id m ∈ La → id m ∉ depends_on_matches m))
    as (La & Hwa & Hroota & Hsounda & Hcla & Hnsa).
  { unfold clean_matches_step in Hstep.
    assert (sa = s → ¬ in_clean_span start end_ s x →
            ∃ La, without La s sa
                  ∧ (in_clean_span start end_ s x → x ∈ La)
                  ∧ (∀ y, y ∈ La → in_clean_span start end_ s x ∧ revoked_id s x y)
                  ∧ (∀ m d, m ∈ all_matches s → d ∈ depends_on_matches m → d ∈ La →
                            id m ∈ La)
                  ∧ (∀ m, m ∈ all_matches s → id m ∈ La → id m ∉ depends_on_matches m))
      as Hskip.
    { intros -> Hno. exists []. split_and!; [apply without_nil|done| | |].
      - intros y Hy. by apply elem_of_nil in Hy.
      - intros m d _ _ Hd. by apply elem_of_nil in Hd.
      - intros m _ Hd. by apply elem_of_nil in Hd. }
    destruct (match_by_id s !! x) as [m|] eqn:Hreg.
    2: { injection Hstep as <-. apply Hskip; [done|]. intros (m & Hm & _). congruence. }
    destruct (bool_decide (start ≤ start_idx m) && bool_decide (end_idx m ≤ end_)) eqn:Hin;
      simpl in Hstep.
    2: { injection Hstep as <-. apply Hskip; [done|].
         intros (m' & Hm' & H1 & H2 & _). rewrite Hreg in Hm'. injection Hm' as <-.
         rewrite andb_false_iff, !bool_decide_eq_false in Hin. tauto. }
    apply andb_true_iff in Hin as [H1%bool_decide_eq_true H2%bool_decide_eq_true].
    case_bool_decide as Hch.
    { injection Hstep as <-. apply Hskip; [done|].
      intros (m' & Hm' & _ & _ & Hc). rewrite Hreg in Hm'. injection Hm' as <-. done. }
    destruct (revoke_cascade_trace fuel x s sa Hstep)
      as (La & Hwa & _ & Hx & Hsound & Hclos & Hns).
    exists La. split_and!; [done|done| |done|done].
    intros y Hy. split; [by exists m|by apply Hsound]. }
  destruct (cascade_app La Lb s sa s') as (Hw & Hcl & Hns); [done..|].
  exists (La ++ Lb). split_and!; [done| | |done|done].
  - intros x' [-> |Hx']%elem_of_cons Hroot; apply elem_of_app; [left; by apply Hroota|].
    destruct Hroot as (m & Hm & Hroot).
    destruct (match_by_id sa !! x') as [m'|] eqn:Hsa.
    + right. apply Hrootb; [done|]. exists m'. split; [done|].
      apply (without_lookup_Some La s sa) in Hsa; [|done].
      rewrite Hm in Hsa. by injection Hsa as <-.
    + left. apply (without_lookup_None La s sa); [done..|]. by exists m.
  - intros y [Hy|Hy]%elem_of_app.
    + destruct (Hsounda y Hy) as [? ?]. exists x. split; [left|done].
    + destruct (Hsoundb y Hy) as (x' & Hx' & (m & Hm & Hroot) & Hrev).
      exists x'. split_and!; [by right| |].
      * exists m. split; [|done]. by apply (without_lookup_Some La s sa).
      * eapply revoked_id_mono; [|done]. intros m0 Hm0.
        by apply (without_all_matches La s sa m0 Hwa) in Hm0 as [? _].
Qed.

Lemma depends_on_trans (s : DataSequence) (m m0 : Match) (y x : string) :
  depends_on s m y → match_by_id s !! y = Some m0 → depends_on s m0 x →
  depends_on s m x.
Proof.
  intros Hmy Hreg Hx. induction Hmy as [m d Hd|m d m' y Hd Hreg' Hm' IH].
  - by eapply depends_via.
  - eapply depends_via; [done..|]. by apply IH.
Qed.

Lemma revoked_id_depends_on (s : DataSequence) (x y : string) :
  registry_exact s → revoked_id s x y →
  y = x ∨ ∃ m, m ∈ all_matches s ∧ id m = y ∧ depends_on s m x.
Proof.
  intros Hex Hrev. induction Hrev as [|m d Hm Hd _ IH]; [by left|].
  right. exists m. split_and!; [done..|].
  destruct IH as [-> |(m' & Hm' & Hid & Hdep)]; [by constructor|].
  eapply depends_via; [done| |done]. by apply Hex.
Qed.

(** When [clean_matches] returns, it has removed exactly the matches
    whose id is revoked by a cascade from one of its roots: the stored
    ids, other than the id of the main match and its dependencies, whose
    registered match lies in the span of the main match and is not a
    ['Character'].  The result does not depend on the order in which the
    set of ids is iterated.  When the registry holds exactly the stored
    matches, the main match and all its dependencies stay. *)
Theorem clean_matches_spec (fuel_deps fuel : nat) (iter : gset string → list string)
    (main_match_id : string) (s s' : DataSequence) :
  (∀ X x, x ∈ iter X ↔ x ∈ X) →
  clean_matches fuel_deps fuel iter main_match_id s = (s', Ok tt) →
  ∃ (main : Match) (L : list string),
    match_by_id s !! main_match_id = Some main
    ∧ (∀ y, y ∈ L ↔ ∃ x, clean_root s main x ∧ revoked_id s x y)
    ∧ seq_value s' = seq_value s
    ∧ seq_extractions s' = seq_extractions s
    ∧ elements s' = set_matches (filter (λ m, id m ∉ L)) <$> elements s
    ∧ (∀ y, match_by_id s' !! y
            = if decide (y ∈ L ∧ Exists (λ m, id m = y) (all_matches s))
              then None else match_by_id s !! y)
    ∧ (registry_exact s →
       (id main ∉ L) ∧ ∀ y, depends_on s main y → y ∉ L).
Proof.
  intros Hiter Hrun. unfold clean_matches in Hrun.
  destruct (match_by_id s !! main_match_id) as [main|] eqn:Hmain; [|done].
  destruct (get_all_dependencies fuel_deps main s) as [deps|] eqn:Hdeps; [|done].
  pose proof (get_all_dependencies_closure fuel_deps main s deps Hdeps) as Hclosure.
  case_bool_decide as Hin; [|done].
  destruct (clean_matches_loop_trace _ _ _ _ _ _ Hrun)
    as (L & (Hv & Hx & He & Hr) & Hroot & Hsound & Hclos & Hns).
  assert (∀ x, x ∈ iter (get_all_match_ids s ∖ list_to_set deps ∖ {[id main]})
               ∧ in_clean_span (start_idx main) (end_idx main) s x
               ↔ clean_root s main x) as Hroots.
  { intros x. unfold clean_root.
    rewrite Hiter, !elem_of_difference, elem_of_singleton, elem_of_list_to_set, Hclosure.
    tauto. }
  assert (∀ y, y ∈ L ↔ ∃ x, clean_root s main x ∧ revoked_id s x y) as HL.
  { intros y. split.
    - intros Hy. destruct (Hsound y Hy) as (x & Hx' & Hspan & Hrev).
      exists x. split; [|done]. by apply Hroots.
    - intros (x & [Hx' Hspan]%Hroots & Hrev).
      specialize (Hroot x Hx' Hspan).
      induction Hrev as [|m d Hm Hd _ IH]; [done|]. by eapply Hclos. }
  exists main, L. split_and!; [done..| | |].
  - rewrite He. apply list_fmap_ext. intros k e Hk. unfold set_matches. f_equal.
    apply filter_ext_elem_of. intros m Hm. split; [|by left].
    intros [?|Hself]; [done|]. intros HLm. apply (Hns m); [|done..].
    apply elem_of_all_matches. exists e. split; [|done]. by eapply list_elem_of_lookup_2.
  - intros y. rewrite Hr. apply decide_ext. unfold removable.
    rewrite !list.Exists_exists. split.
    + intros [Hy (m & Hm & Hid & _)]. split; [done|]. by exists m.
    + intros [Hy (m & Hm & Hid)]. split; [done|]. exists m. split_and!; [done..|].
      rewrite <- Hid. apply Hns; [done|]. by rewrite Hid.
  - intros Hex.
    assert (∀ x y, clean_root s main x → revoked_id s x y →
                   y ≠ id main ∧ ¬ depends_on s main y) as Hkeep.
    { intros x y (Hst & Hne & Hnd & _) Hrev.
      destruct (revoked_id_depends_on s x y Hex Hrev) as [-> |(m & Hm & Hid & Hdep)];
        [done|].
      assert (match_by_id s !! y = Some m) as Hreg by (by apply Hex).
      split.
      - intros ->. apply Hnd.
        assert (match_by_id s !! id main = Some main) as Hreg'.
        { apply Hex. split; [|done]. by apply (Hex main_match_id main). }
        rewrite Hreg in Hreg'. by injection Hreg' as ->.
      - intros Hy. apply Hnd. by eapply depends_on_trans. }
    split.
    + intros (x & Hx' & Hrev)%HL. by destruct (Hkeep x _ Hx' Hrev).
    + intros y Hy (x & Hx' & Hrev)%HL. by destruct (Hkeep x _ Hx' Hrev).
Qed.

(** ** The registry holds the stored matches *)

Lemma foldl_insert_lookup_inv (l : list Match) (reg : gmap string Match) (y : string)
    (m : Match) :
  foldl (λ reg m, <[id m := m]> reg) reg l !! y = Some m →
  (m ∈ l ∧ id m = y) ∨ reg !! y = Some m.
Proof.
  revert reg. induction l as [|a l IH]; intros reg; simpl; [by right|].
  intros [[Hin Hid]|Hreg]%IH.
  - left. split; [by right|done].
  - destruct (decide (id a = y)) as [<-|Hne].
    + rewrite lookup_insert_eq in Hreg. injection Hreg as <-. left. split; [left|done].
    + rewrite lookup_insert_ne in Hreg by done. by right.
Qed.

Lemma registry_exact_add_here (m : Match) (k : nat) (e : DataElement) (s : DataSequence) :
  elements s !! k = Some e →
  registry_exact s ∧ (match_by_id s !! id m = None ∨ match_by_id s !! id m = Some m) →
  registry_exact (add_here m k e s)
  ∧ (match_by_id (add_here m k e s) !! id m = None
     ∨ match_by_id (add_here m k e s) !! id m = Some m).
Proof.
  intros Hk [Hex Hm]. split.
  2: { right. unfold add_here. simpl. apply lookup_insert_eq. }
  intros y m'. rewrite all_matches_add_here by done.
  unfold add_here. simpl. destruct (decide (y = id m)) as [-> |Hne].
  - rewrite lookup_insert_eq. split.
    + intros [= <-]. split; [by right|done].
    + intros [[Hin| ->] Hid]; [|done].
      assert (match_by_id s !! id m = Some m') as Hreg by (by apply Hex).
      destruct Hm as [Hm|Hm]; rewrite Hm in Hreg; [done|]. by injection Hreg as ->.
  - rewrite lookup_insert_ne by done. rewrite (Hex y m'). split.
    + intros [? ?]. split; [by left|done].
    + intros [[?| ->] Hid]; [done|]. congruence.
Qed.

Lemma registry_exact_revoke_here (x : string) (s : DataSequence) :
  registry_exact s → registry_exact (revoke_here x s).
Proof.
  intros Hex y m'. rewrite all_matches_revoke_here, list_elem_of_filter.
  unfold revoke_here. simpl. case_decide as Hall.
  - rewrite (Hex y m'). rewrite list.Forall_forall in Hall. split.
    + intros [? ?]. split_and!; [auto|done..].
    + intros [[_ ?] ?]. done.
  - apply not_Forall_Exists in Hall; [|apply _].
    apply list.Exists_exists in Hall as (m0 & Hm0 & Hns).
    pose proof Hns as [Hself Hid]%not_survives.
    assert (match_by_id s !! x = Some m0) as Hreg0 by (by apply Hex).
    destruct (decide (y = x)) as [-> |Hne].
    + rewrite lookup_delete_eq. split; [done|]. intros [[Hs Hin] Hid'].
      assert (match_by_id s !! x = Some m') as Hreg by (by apply Hex).
      rewrite Hreg0 in Hreg. injection Hreg as <-. done.
    + rewrite lookup_delete_ne by done. rewrite (Hex y m'). split.
      * intros [? ?]. split_and!; [|done..]. right. congruence.
      * intros [[_ ?] ?]. done.
Qed.

Lemma registry_exact_revoke_match (fuel : nat) (x : string) (cascade : bool)
    (s : DataSequence) :
  registry_exact s → registry_exact (revoke_match fuel x cascade s).1.
Proof.
  revert x cascade s. induction fuel as [|fuel IH]; intros x cascade s Hs; [done|].
  rewrite revoke_match_unfold. apply (registry_exact_revoke_here x) in Hs.
  destruct cascade; [|done].
  apply (for_each_inv registry_exact); [|done].
  intros y s' Hs'. by apply IH.
Qed.

(** The registry holds exactly the stored matches, each under its id:
    this is so after [from_string] when the ids handed out are distinct,
    it is kept by [add_match] when the id of the match is not yet
    registered or is registered for the match itself, and it holds again
    when a call of [revoke_match], [keep_only] or [drop_matches]
    returns. *)
Theorem registry_exact_preserved :
  (∀ text ids,
     (∀ i j, (i < py_len text)%nat → (j < py_len text)%nat → ids i = ids j → i = j) →
     registry_exact (from_string text ids))
  ∧ (∀ s m, registry_exact s →
            match_by_id s !! id m = None ∨ match_by_id s !! id m = Some m →
            registry_exact (add_match m s).1)
  ∧ (∀ s fuel x cascade s',
       registry_exact s → revoke_match fuel x cascade s = (s', Ok tt) →
       registry_exact s')
  ∧ (∀ s fuel concepts hierarchy s',
       registry_exact s → keep_only fuel concepts hierarchy s = (s', Ok tt) →
       registry_exact s')
  ∧ (∀ s fuel concepts hierarchy cascade s',
       registry_exact s → drop_matches fuel concepts hierarchy cascade s = (s', Ok tt) →
       registry_exact s').
Proof.
  split_and!.
  - intros text ids Hinj y m. unfold from_string.
    match goal with |- context [post_init ?r] => set (raw := r) end.
    rewrite post_init_registry.
    assert (∀ f, all_matches (set_match_by_id f raw) = all_matches raw) as -> by done.
    cbn [match_by_id set_match_by_id].
    assert (match_by_id raw = ∅) as -> by done.
    assert (∀ m, m ∈ all_matches raw
                 ↔ ∃ i ch, py_chars text !! i = Some ch
                           ∧ m = {| concept := "Character"; value := ch;
                                    size := 1; start_idx := Z.of_nat i; id := ids i;
                                    assumed := false; depends_on_matches := [];
                                    extractions := ∅; structure := [];
                                    weight := 1%Qc |}) as Hall.
    { intros m0. rewrite elem_of_all_matches. unfold raw. simpl. split.
      - intros (e & (i & ch & -> & Hi)%elem_of_lookup_imap_1 & Hm0). simpl in Hm0.
        apply list_elem_of_singleton in Hm0. by exists i, ch.
      - intros (i & ch & Hi & ->). eexists. split.
        + by eapply elem_of_lookup_imap_2.
        + simpl. left. }
    split.
    + intros [?|Hreg]%foldl_insert_lookup_inv; [done|]. by rewrite lookup_empty in Hreg.
    + intros [Hm <-]. apply foldl_insert_lookup; [|by left].
      intros m' Hm' Hid. apply Hall in Hm as (i & ch & Hi & ->).
      apply Hall in Hm' as (j & ch' & Hj & ->). simpl in Hid.
      assert (j = i) as ->.
      { apply Hinj; [| |done]; unfold py_len; by eapply lookup_lt_Some. }
      rewrite Hi in Hj. by injection Hj as <-.
  - intros s m Hex Hm. unfold add_match. destruct (dependencies_present m s); simpl; [|done].
    apply (add_match_loop_inv m
             (λ s, registry_exact s
                   ∧ (match_by_id s !! id m = None ∨ match_by_id s !! id m = Some m))).
    + intros s' k e Hs' Hk _. by apply registry_exact_add_here.
    + done.
  - intros s fuel x cascade s' Hex Hrun.
    pose proof (registry_exact_revoke_match fuel x cascade s Hex) as H.
    by rewrite Hrun in H.
  - intros s fuel concepts hierarchy s' Hex Hrun. unfold keep_only in Hrun.
    match type of Hrun with for_each ?f ?l s = _ =>
      pose proof (for_each_inv registry_exact f l s) as H end.
    rewrite Hrun in H. apply H; [|done].
    intros y s1 Hs1. by apply registry_exact_revoke_match.
  - intros s fuel concepts hierarchy cascade s' Hex Hrun. unfold drop_matches in Hrun.
    match type of Hrun with for_each ?f ?l s = _ =>
      pose proof (for_each_inv registry_exact f l s) as H end.
    rewrite Hrun in H. apply H; [|done].
    intros y s1 Hs1. by apply registry_exact_revoke_match.
Qed.

(** ** A pass returns when the patterns stay in the sequence *)

Lemma add_match_in_range (m : Match) (s : DataSequence) :
  span_in_range (length (elements s)) m →
  ∃ s' b, add_match m s = (s', Ok b) ∧ length (elements s') = length (elements s).
Proof.
  intros [Hstart Hend].
  pose proof (positions_add_match m s) as [Hp _].
  apply (f_equal length) in Hp. unfold positions in Hp. rewrite !length_fmap in Hp.
  destruct (add_match m s) as [s' [b|err]] eqn:Hrun; [by exists s', b|].
  exfalso. unfold add_match in Hrun. destruct (dependencies_present m s); [|done].
  simpl in Hrun. apply add_match_loop_raise in Hrun as (_ & idx & Hidx & Hout).
  apply elem_of_seqZ in Hidx. simpl in Hout. unfold py_norm_index in Hout.
  repeat case_bool_decide; try done; lia.
Qed.

Section pass_returns.
Context (ex : Extractor) (len : nat).

Lemma submit_matches_prefix (p : Pattern) (ms : list Match) (h : bool) (r : Run) :
  run_log r `prefix_of` run_log (submit_matches ex p ms h r).1
  ∧ positions (run_seq (submit_matches ex p ms h r).1) = positions (run_seq r).
Proof.
  destruct (submit_matches ex p ms h r) as [r' res] eqn:E.
  destruct (submit_matches_inv ex (λ _ r1, run_log r `prefix_of` run_log r1)
              (λ r1, run_log r `prefix_of` run_log r1)) with (5 := E) as [Hp Ho].
  - done.
  - intros _ r1 p' m s' _ H _. simpl. by apply prefix_app_r.
  - intros _ r1 p' m s' _ H _. simpl. by apply prefix_app_r.
  - done.
  - split; [|done]. by destruct res.
Qed.

Lemma apply_patterns_prefix (start : nat) (ps : list Pattern) (h : bool) (r : Run)
    (v : option string) :
  positions (run_seq r) !! start = Some (v, false) →
  run_log r `prefix_of` run_log (apply_patterns ex start ps h r).1
  ∧ positions (run_seq (apply_patterns ex start ps h r).1) = positions (run_seq r).
Proof.
  intros Hen. destruct (apply_patterns ex start ps h r) as [r' res] eqn:E.
  destruct (apply_patterns_inv ex (λ _ r1, run_log r `prefix_of` run_log r1)
              (λ r1, run_log r `prefix_of` run_log r1)) with (7 := E) (v := v)
    as [Hp Ho].
  - done.
  - intros _ r1 start' p' v' H _. simpl. by apply prefix_app_r.
  - intros _ r1 p' m s' _ H _. simpl. by apply prefix_app_r.
  - intros _ r1 p' m s' _ H _. simpl. by apply prefix_app_r.
  - done.
  - done.
  - split; [|done]. by destruct res.
Qed.

Lemma apply_positions_prefix (starts : list nat) (h : bool) (r : Run) :
  run_log r `prefix_of` run_log (apply_positions ex starts h r).1.
Proof.
  destruct (apply_positions ex starts h r) as [r' res] eqn:E.
  destruct (apply_positions_inv ex (λ _ r1, run_log r `prefix_of` run_log r1)
              (λ r1, run_log r `prefix_of` run_log r1)) with (6 := E) as [Hp Ho].
  - done.
  - intros _ r1 start' p' v' H _. simpl. by apply prefix_app_r.
  - intros _ r1 p' m s' _ H _. simpl. by apply prefix_app_r.
  - intros _ r1 p' m s' _ H _. simpl. by apply prefix_app_r.
  - done.
  - by destruct res.
Qed.

Lemma Forall_prefix {A} (P : A → Prop) (l l' : list A) :
  l `prefix_of` l' → Forall P l' → Forall P l.
Proof. intros [k ->] [H _]%list.Forall_app. done. Qed.

Lemma submit_matches_returns (p : Pattern) (ms : list Match) (h : bool) (r : Run) :
  length (elements (run_seq r)) = len → Forall (span_in_range len) ms →
  ∃ r' b, submit_matches ex p ms h r = (r', Ok b)
          ∧ length (elements (run_seq r')) = len.
Proof.
  revert h r. induction ms as [|m ms IH]; intros h r Hlen Hall.
  { by exists r, h. }
  apply list.Forall_cons in Hall as [Hm Hms].
  assert (∃ r' b, (let* _ := record_event (Submitted p m) in
                   let* added := on_seq (add_match m) in
                   submit_matches ex p ms (h || added)) r = (r', Ok b)
                  ∧ length (elements (run_seq r')) = len) as Hgo.
  { destruct (add_match_in_range m (run_seq r)) as (s' & added & Hadd & Hlen');
      [by rewrite Hlen|].
    unfold bind, record_event, on_seq. simpl. rewrite Hadd.
    apply IH; [|done]. simpl. congruence. }
  assert (submit_matches ex p (m :: ms) h r
          = match declared_inside p with
            | Some c =>
                match check_match_is_inside ex (run_seq r) m c with
                | Ok ok =>
                    (if negb ok then submit_matches ex p ms h
                     else let* _ := record_event (Submitted p m) in
                          let* added := on_seq (add_match m) in
                          submit_matches ex p ms (h || added)) r
                | Raise e => (r, Raise e)
                end
            | None => (let* _ := record_event (Submitted p m) in
                       let* added := on_seq (add_match m) in
                       submit_matches ex p ms (h || added)) r
            end) as ->.
  { simpl. destruct (declared_inside p) as [c|]; [|done].
    unfold bind, read_seq, ret.
    by destruct (check_match_is_inside ex (run_seq r) m c) as [[]|]. }
  destruct (declared_inside p) as [c|]; [|done].
  destruct (check_match_is_inside ex (run_seq r) m c) as [[]|err] eqn:Hchk; simpl.
  - done.
  - by apply IH.
  - exfalso. unfold check_match_is_inside in Hchk.
    destruct (element_at (run_seq r) (start_idx m)) as [[k e]|] eqn:Hat; [done|].
    apply element_at_None in Hat. rewrite Hlen in Hat. destruct Hm as [Hstart _].
    unfold py_norm_index in Hat. repeat case_bool_decide; try done; lia.
Qed.

Lemma apply_patterns_returns (start : nat) (ps : list Pattern) (h : bool) (r : Run)
    (v : option string) :
  (start < len)%nat → length (elements (run_seq r)) = len →
  positions (run_seq r) !! start = Some (v, false) →
  Forall (returned_in_range ex len) (run_log (apply_patterns ex start ps h r).1) →
  ∃ r' b, apply_patterns ex start ps h r = (r', Ok b)
          ∧ length (elements (run_seq r')) = len.
Proof.
  revert h r. induction ps as [|p ps IH]; intros h r Hstart Hlen Hen Hlog.
  { by exists r, h. }
  assert (apply_patterns ex start (p :: ps) h r
          = match declared_inside p with
            | Some c =>
                match check_inside_start_idx ex (run_seq r) (Z.of_nat start) c with
                | Ok ok =>
                    (if negb ok then apply_patterns ex start ps h
                     else let* _ := record_event (Invoked start p) in
                          let* s := read_seq Ok in
                          let* had := submit_matches ex p
                                        (pattern_match p s (new_state (Z.of_nat start))
                                           (the_hierarchy ex)) h in
                          apply_patterns ex start ps had) r
                | Raise e => (r, Raise e)
                end
            | None => (let* _ := record_event (Invoked start p) in
                       let* s := read_seq Ok in
                       let* had := submit_matches ex p
                                     (pattern_match p s (new_state (Z.of_nat start))
                                        (the_hierarchy ex)) h in
                       apply_patterns ex start ps had) r
            end) as Heq.
  { simpl. destruct (declared_inside p) as [c|]; [|done].
    unfold bind, read_seq, ret.
    by destruct (check_inside_start_idx ex (run_seq r) (Z.of_nat start) c) as [[]|]. }
  rewrite Heq in Hlog |- *. clear Heq.
  assert (Forall (returned_in_range ex len)
            (run_log ((let* _ := record_event (Invoked start p) in
                       let* s := read_seq Ok in
                       let* had := submit_matches ex p
                                     (pattern_match p s (new_state (Z.of_nat start))
                                        (the_hierarchy ex)) h in
                       apply_patterns ex start ps had) r).1) →
          ∃ r' b, (let* _ := record_event (Invoked start p) in
                   let* s := read_seq Ok in
                   let* had := submit_matches ex p
                                 (pattern_match p s (new_state (Z.of_nat start))
                                    (the_hierarchy ex)) h in
                   apply_patterns ex start ps had) r = (r', Ok b)
                  ∧ length (elements (run_seq r')) = len) as Hgo.
  { clear Hlog. unfold bind, record_event, read_seq. simpl.
    set (ms := pattern_match p (run_seq r) (new_state (Z.of_nat start)) (the_hierarchy ex)).
    set (r1 := {| run_seq := run_seq r;
                  run_log := run_log r ++ [Invoked start p (run_seq r)] |}).
    destruct (submit_matches_prefix p ms h r1) as [Hpre1 Hpos1].
    assert (positions (run_seq (submit_matches ex p ms h r1).1) !! start
            = Some (v, false)) as Hen1 by (by rewrite Hpos1).
    intros Hlog.
    assert (Forall (span_in_range len) ms) as Hms.
    { assert (Forall (returned_in_range ex len) (run_log r1)) as Hr1.
      { destruct (submit_matches ex p ms h r1) as [r2 [had|err]] eqn:E; simpl in *.
        - destruct (apply_patterns_prefix start ps had r2 v Hen1) as [Hpre2 _].
          eapply Forall_prefix; [|exact Hlog]. by etrans.
        - by eapply Forall_prefix. }
      unfold r1 in Hr1. simpl in Hr1. apply list.Forall_app in Hr1 as [_ Hev].
      rewrite list.Forall_singleton in Hev. exact Hev. }
    destruct (submit_matches_returns p ms h r1 Hlen Hms) as (r2 & had & E & Hlen2).
    rewrite E in Hlog, Hen1 |- *. simpl in Hen1. by apply IH. }
  destruct (declared_inside p) as [c|]; [|by apply Hgo].
  destruct (check_inside_start_idx ex (run_seq r) (Z.of_nat start) c)
    as [[]|err] eqn:Hchk; simpl in Hlog |- *.
  - by apply Hgo.
  - by apply IH.
  - exfalso. unfold check_inside_start_idx in Hchk.
    destruct (element_at (run_seq r) (Z.of_nat start)) as [[k e]|] eqn:Hat; [done|].
    apply element_at_None in Hat. rewrite Hlen in Hat.
    unfold py_norm_index in Hat. repeat case_bool_decide; try done; lia.
Qed.

Lemma apply_positions_returns (starts : list nat) (h : bool) (r : Run) :
  (∀ start, start ∈ starts → (start < len)%nat) →
  length (elements (run_seq r)) = len →
  Forall (returned_in_range ex len) (run_log (apply_positions ex starts h r).1) →
  ∃ r' b, apply_positions ex starts h r = (r', Ok b)
          ∧ length (elements (run_seq r')) = len.
Proof.
  revert h r. induction starts as [|start starts IH]; intros h r Hstarts Hlen Hlog.
  { by exists r, h. }
  assert (start < len)%nat as Hstart by (apply Hstarts; left).
  assert (∀ st, st ∈ starts → (st < len)%nat) as Hrest.
  { intros st Hst. apply Hstarts. by right. }
  simpl in Hlog |- *. unfold bind at 1, get at 1. unfold bind at 1, get at 1 in Hlog.
  destruct (elements (run_seq r) !! start) as [e|] eqn:He.
  2: { apply lookup_ge_None in He. lia. }
  destruct (disabled e) eqn:Hd; [by apply IH|].
  unfold bind in Hlog |- *.
  assert (positions (run_seq r) !! start = Some (el_value e, false)) as Hen.
  { unfold positions. by rewrite list_lookup_fmap, He, <- Hd. }
  assert (Forall (returned_in_range ex len)
            (run_log (apply_patterns ex start (patterns ex) h r).1)) as Hlog1.
  { destruct (apply_patterns ex start (patterns ex) h r) as [r1 [had|err]] eqn:E;
      simpl in *; [|done].
    eapply Forall_prefix; [|exact Hlog]. apply apply_positions_prefix. }
  destruct (apply_patterns_returns start (patterns ex) h r (el_value e))
    as (r1 & had & E & Hlen1); [done..|].
  rewrite E in Hlog |- *. by apply IH.
Qed.
End pass_returns.

(** A pass returns normally when the matches its patterns return lie in
    the sequence: if, at every call of a pattern the pass makes, each
    returned match has its start index in the sequence and its span
    ending inside it (negative indexes counting from the end), no
    subscript of the pass is out of range and the pass ends with an
    answer.  The number of positions is the same afterwards. *)
Theorem apply_once_returns (ex : Extractor) (s : DataSequence) :
  let out := apply_once ex {| run_seq := s; run_log := [] |} in
  Forall (returned_in_range ex (length (elements s))) (run_log out.1) →
  ∃ b, out.2 = Ok b ∧ length (elements (run_seq out.1)) = length (elements s).
Proof.
  intros out Hlog. unfold out, apply_once in *. simpl in *.
  destruct (apply_positions_returns ex (length (elements s))
              (seq 0 (length (elements s))) false {| run_seq := s; run_log := [] |})
    as (r' & b & E & Hlen); [|done|done|].
  { intros start Hstart. apply elem_of_seq in Hstart. lia. }
  rewrite E. by exists b.
Qed.

(** * Further instances *)

Lemma post_init_registers_witness :
  match_by_id (post_init seq_pair_word) !! id pair_ab = Some pair_ab.
Proof.
  refine (proj2 (proj2 (post_init_registers seq_pair_word pair_ab _)) _).
  - apply (bool_decide_unpack _). vm_compute. exact I.
  - apply (list.Forall_forall (λ m', id m' = id pair_ab → m' = pair_ab)).
    apply (bool_decide_unpack _). vm_compute. exact I.
Defined.

Lemma add_match_outcome_witness :
  match_by_id (add_match pair_ab seq_ab).1 !! id pair_ab = Some pair_ab
  ∧ pair_ab ∈ all_matches (add_match pair_ab seq_ab).1
  ∧ (count seq_ab < count (add_match pair_ab seq_ab).1)%nat.
Proof.
  apply (add_match_outcome pair_ab seq_ab (add_match pair_ab seq_ab).1 true).
  vm_compute. reflexivity.
Defined.

Lemma revoke_all_order_irrelevant_witness :
  for_each (λ y, revoke_match 1 y false) ["p"; "w"] seq_pair_word
  = for_each (λ y, revoke_match 1 y false) ["w"; "p"; "p"] seq_pair_word.
Proof.
  apply (revoke_all_order_irrelevant 0 ["p"; "w"] ["w"; "p"; "p"] seq_pair_word).
  intros y. rewrite !elem_of_cons, !elem_of_nil. tauto.
Defined.

Lemma revoke_match_cascade_exact_witness :
  ∃ L : list string,
    (∀ y, y ∈ L ↔ revoked_id seq_pair_word "c0" y)
    ∧ (∀ m, m ∈ all_matches seq_pair_word → id m ∈ L → id m ∉ depends_on_matches m)
    ∧ seq_value (revoke_match 5 "c0" true seq_pair_word).1 = seq_value seq_pair_word
    ∧ seq_extractions (revoke_match 5 "c0" true seq_pair_word).1
      = seq_extractions seq_pair_word
    ∧ consolidated (revoke_match 5 "c0" true seq_pair_word).1 = false
    ∧ elements (revoke_match 5 "c0" true seq_pair_word).1
      = set_matches (filter (λ m, id m ∉ L)) <$> elements seq_pair_word
    ∧ (∀ y, match_by_id (revoke_match 5 "c0" true seq_pair_word).1 !! y
            = if decide (y ∈ L ∧ Exists (λ m, id m = y) (all_matches seq_pair_word))
              then None else match_by_id seq_pair_word !! y).
Proof.
  apply (revoke_match_cascade_exact 5 "c0" seq_pair_word
           (revoke_match 5 "c0" true seq_pair_word).1).
  vm_compute. reflexivity.
Defined.

Lemma apply_once_answer_witness :
  let out := apply_once sample_extractor {| run_seq := seq_ab; run_log := [] |} in
  kept seq_ab (run_seq out.1)
  ∧ (count seq_ab ≤ count (run_seq out.1))%nat
  ∧ (count seq_ab < count (run_seq out.1))%nat.
Proof.
  intros out.
  apply (apply_once_answer sample_extractor {| run_seq := seq_ab; run_log := [] |}
           out.1 (Ok true)).
  vm_compute. reflexivity.
Defined.

Lemma get_slots_after_add_match_witness :
  slot pair_ab ∈ get_slots (concept pair_ab) None (add_match pair_ab seq_ab).1.
Proof.
  apply (get_slots_after_add_match pair_ab seq_ab (add_match pair_ab seq_ab).1 true None).
  - vm_compute. reflexivity.
  - simpl. lia.
  - simpl. lia.
  - vm_compute. reflexivity.
Defined.

Lemma get_all_dependencies_spec_witness :
  Sorted (λ a b, String.leb a b = true) ["c0"; "p"]
  ∧ NoDup ["c0"; "p"]
  ∧ ∀ x, x ∈ ["c0"; "p"] ↔ depends_on seq_pair_word word_ab x.
Proof.
  apply (get_all_dependencies_spec 5 word_ab seq_pair_word ["c0"; "p"]).
  vm_compute. reflexivity.
Defined.

Lemma get_all_dependencies_returns_witness :
  ∃ l, get_all_dependencies 3 word_ab seq_pair_word = Ok l.
Proof.
  apply (proj2 (get_all_dependencies_returns word_ab seq_pair_word)
           (λ d, if decide (d = "w") then 2 else if decide (d = "p") then 1 else 0)%nat
           2%nat).
  - intros d m' d' Hreg Hd'.
    assert (map_Forall
              (λ d m', Forall (λ d', ((if decide (d' = "w") then 2
                                       else if decide (d' = "p") then 1 else 0)
                                      < (if decide (d = "w") then 2
                                         else if decide (d = "p") then 1 else 0))%nat)
                              (depends_on_matches m'))
              (match_by_id seq_pair_word)) as Hall.
    { apply (bool_decide_unpack _). vm_compute. exact I. }
    specialize (Hall d m' Hreg). rewrite list.Forall_forall in Hall. by apply Hall.
  - intros d Hd.
    assert (Forall (λ d, ((if decide (d = "w") then 2
                           else if decide (d = "p") then 1 else 0) < 2)%nat)
                   (depends_on_matches word_ab)) as Hall.
    { apply (bool_decide_unpack _). vm_compute. exact I. }
    rewrite list.Forall_forall in Hall. by apply Hall.
Defined.

Lemma add_match_idempotent_witness :
  add_match pair_ab (add_match pair_ab seq_ab).1 = ((add_match pair_ab seq_ab).1, Ok false).
Proof.
  apply (add_match_idempotent pair_ab seq_ab (add_match pair_ab seq_ab).1 true).
  vm_compute. reflexivity.
Defined.

Lemma add_match_exact_witness :
  seq_value (add_match pair_ab seq_ab).1 = seq_value seq_ab
  ∧ seq_extractions (add_match pair_ab seq_ab).1 = seq_extractions seq_ab
  ∧ consolidated (add_match pair_ab seq_ab).1 = false
  ∧ elements (add_match pair_ab seq_ab).1
    = imap (λ k e, if decide (in_span pair_ab (length (elements seq_ab)) k
                              ∧ contains_match e pair_ab = false)
                   then set_matches (λ l, l ++ [pair_ab]) e else e)
           (elements seq_ab)
  ∧ (true = true ↔ ∃ k e, elements seq_ab !! k = Some e
                          ∧ in_span pair_ab (length (elements seq_ab)) k
                          ∧ contains_match e pair_ab = false)
  ∧ match_by_id (add_match pair_ab seq_ab).1
    = <[id pair_ab := pair_ab]> (match_by_id seq_ab).
Proof.
  apply (add_match_exact pair_ab seq_ab (add_match pair_ab seq_ab).1 true).
  - vm_compute. reflexivity.
  - vm_compute. reflexivity.
Defined.

Lemma add_concept_spec_witness :
  let s' := (add_concept "Pair" 0 2 1%Qc "p" seq_ab).1 in
  let m := {| concept := "Pair";
              value := py_slice (seq_value seq_ab) (Some 0) (Some (0 + 2));
              size := 2; start_idx := 0; id := "p"; assumed := false;
              depends_on_matches := []; extractions := ∅; structure := [];
              weight := 1%Qc |} in
  (true = true → match_by_id s' !! "p" = Some m ∧ m ∈ all_matches s')
  ∧ (∀ idx, 0 ≤ idx < 2 →
       ∃ k e saved, element_at s' (0 + idx) = Some (k, e) ∧ saved ∈ matches e
                    ∧ concept saved = "Pair" ∧ size saved = 2 ∧ start_idx saved = 0)
  ∧ (0 ≤ 0 → 0 ≤ 2 → 0 + 2 ≤ Z.of_nat (py_len (seq_value seq_ab)) →
     Z.of_nat (py_len (value m)) = 2)
  ∧ (0 ≤ 0 → 1 ≤ 2 → ∀ hierarchy, (0, 0 + 2) ∈ get_slots "Pair" hierarchy s').
Proof.
  intros s'.
  apply (add_concept_spec "Pair" 0 2 1%Qc "p" seq_ab s' true).
  vm_compute. reflexivity.
Defined.

Lemma clean_matches_spec_witness :
  let s' := (clean_matches 5 5 base.elements "w" seq_other).1 in
  ∃ (main : Match) (L : list string),
    match_by_id seq_other !! "w" = Some main
    ∧ (∀ y, y ∈ L ↔ ∃ x, clean_root seq_other main x ∧ revoked_id seq_other x y)
    ∧ seq_value s' = seq_value seq_other
    ∧ seq_extractions s' = seq_extractions seq_other
    ∧ elements s' = set_matches (filter (λ m, id m ∉ L)) <$> elements seq_other
    ∧ (∀ y, match_by_id s' !! y
            = if decide (y ∈ L ∧ Exists (λ m, id m = y) (all_matches seq_other))
              then None else match_by_id seq_other !! y)
    ∧ (registry_exact seq_other →
       (id main ∉ L) ∧ ∀ y, depends_on seq_other main y → y ∉ L).
Proof.
  intros s'.
  apply (clean_matches_spec 5 5 base.elements "w" seq_other s').
  - intros X x. apply elem_of_elements.
  - vm_compute. reflexivity.
Defined.

(** Cleaning around the word removes the match it does not depend on and
    keeps the pair and the characters; cleaning around the pair removes
    the word as well. *)
Example clean_matches_sample :
  (clean_matches 5 5 base.elements "w" seq_other).2 = Ok tt
  ∧ id <$> all_matches (clean_matches 5 5 base.elements "w" seq_other).1
    = ["c0"; "p"; "w"; "c1"; "p"; "w"]
  ∧ id <$> all_matches (clean_matches 5 5 base.elements "p" seq_other).1
    = ["c0"; "p"; "c1"; "p"]
  ∧ (clean_matches 5 5 base.elements "zz" seq_other).2 = Raise KeyError.
Proof. by vm_compute. Qed.

Lemma apply_once_returns_witness :
  ∃ b, (apply_once sample_extractor {| run_seq := seq_ab; run_log := [] |}).2 = Ok b
       ∧ length (elements (run_seq
                   (apply_once sample_extractor {| run_seq := seq_ab; run_log := [] |}).1))
         = length (elements seq_ab).
Proof.
  apply (apply_once_returns sample_extractor seq_ab).
  apply (bool_decide_unpack _). vm_compute. exact I.
Defined.
